(** * LexVii: the DFA visualizer's automaton engine

    A shallow embedding of [src/dfa_visualizer.py]: the [DFAState] objects,
    the [DFAVisualizer] fields that carry the automaton and the animation
    cursor, the editing operations, the stepper and [minimize_dfa].

    Python objects are mutable and compared by identity, so the embedding
    keeps an explicit store of [DFAState] objects ([objs]) and every field
    that holds a state holds a reference into that store.  Python dicts keep
    insertion order and [minimize_dfa] depends on it, so a dict is an
    association list with Python's update discipline (module [Dict]). *)

From Stdlib Require Import String Ascii List Bool Arith ZArith Lia Permutation.
Import ListNotations.
Open Scope string_scope.
Open Scope list_scope.

Set Implicit Arguments.

(* ------------------------------------------------------------------ *)
(** ** Python dicts *)

Module Dict.
Section Defs.
Variables K V : Type.
Variable K_dec : forall a b : K, {a = b} + {a <> b}.

(** [d.get(k)] *)
Fixpoint get (k : K) (d : list (K * V)) : option V :=
  match d with
  | [] => None
  | (k', v) :: r => if K_dec k k' then Some v else get k r
  end.

(** [k in d] *)
Definition mem (k : K) (d : list (K * V)) : bool :=
  match get k d with Some _ => true | None => false end.

(** [d[k] = v]: an existing key keeps its place, a new key goes last. *)
Fixpoint set (k : K) (v : V) (d : list (K * V)) : list (K * V) :=
  match d with
  | [] => [(k, v)]
  | (k', v') :: r =>
      if K_dec k k' then (k', v) :: r else (k', v') :: set k v r
  end.

(** The dict without key [k] (what [del d[k]] leaves when [k] is there). *)
Fixpoint remove (k : K) (d : list (K * V)) : list (K * V) :=
  match d with
  | [] => []
  | (k', v') :: r =>
      if K_dec k k' then r else (k', v') :: remove k r
  end.

(** [del d[k]]: raises [KeyError] ([None]) when [k] is not a key. *)
Definition del (k : K) (d : list (K * V)) : option (list (K * V)) :=
  if mem k d then Some (remove k d) else None.

Definition keys (d : list (K * V)) : list K := map fst d.
Definition values (d : list (K * V)) : list V := map snd d.
End Defs.
End Dict.

(* ------------------------------------------------------------------ *)
(** ** Objects *)

(** A reference to a [DFAState] object: its index in the store. *)
Definition ref := nat.

(** [class DFAState]; [position] is layout only and is left out. *)
Record DFAState := mkDFAState {
  name : string;
  is_accepting : bool;
  transitions : list (string * ref)
}.

(** [class Token] of [src/lexer.py]. *)
Record Token := mkToken {
  type : string;
  value : string;
  line : nat;
  column : nat
}.

Definition heap := list DFAState.

(** What a reference that is not in the store reads as.  Python has no
    such reference; the well-formed visualizers below hold none. *)
Definition no_object : DFAState := mkDFAState "" false [].

Definition deref (h : heap) (r : ref) : DFAState := nth r h no_object.

(** Object creation: the new object gets the next free reference. *)
Definition alloc (h : heap) (o : DFAState) : heap * ref := (h ++ [o], length h).

(** In-place mutation of the object behind [r]. *)
Fixpoint update (h : heap) (r : ref) (f : DFAState -> DFAState) : heap :=
  match h, r with
  | [], _ => []
  | o :: h', 0 => f o :: h'
  | o :: h', S r' => o :: update h' r' f
  end.

Definition set_name (n : string) (o : DFAState) : DFAState :=
  mkDFAState n (is_accepting o) (transitions o).

Definition set_transitions (t : list (string * ref)) (o : DFAState) : DFAState :=
  mkDFAState (name o) (is_accepting o) t.

(** [state.transitions[label] = target] *)
Definition add_transition (label : string) (target : ref) (o : DFAState) : DFAState :=
  set_transitions (Dict.set string_dec label target (transitions o)) o.

(** The fields of [DFAVisualizer] that carry the automaton and the
    animation; canvas, theme and widgets are presentation. *)
Record DFAVisualizer := mkVisualizer {
  objs : heap;
  states : list (string * ref);
  start_state : option ref;
  current_state : option ref;
  animation_step : nat;
  animation_sequence : list string;
  tokens : list Token;
  selected_state : option ref
}.

Definition option_ref_eqb (a b : option ref) : bool :=
  match a, b with
  | Some x, Some y => Nat.eqb x y
  | None, None => true
  | _, _ => false
  end.

Definition is_nil {A} (l : list A) : bool :=
  match l with [] => true | _ => false end.

Definition is_none {A} (o : option A) : bool :=
  match o with None => true | Some _ => false end.

(** [x in l] for a list (or set) of objects: identity comparison. *)
Definition memb (x : ref) (l : list ref) : bool := existsb (Nat.eqb x) l.

(* ------------------------------------------------------------------ *)
(** ** The simulator: [reset_animation] and [step_animation] *)

Definition reset_animation (v : DFAVisualizer) : DFAVisualizer :=
  mkVisualizer (objs v) (states v) (start_state v)
    (start_state v) 0
    (animation_sequence v) (tokens v) (selected_state v).

(** One click on "Step".  The second component is the verdict the call
    prints: [Some true] for "Input accepted by DFA", [Some false] for
    "Input rejected by DFA", [None] when it prints neither. *)
Definition step_animation (v : DFAVisualizer) : DFAVisualizer * option bool :=
  if is_nil (animation_sequence v) || is_nil (tokens v) then (v, None)
  else if (length (animation_sequence v) <=? animation_step v)%nat then
    (reset_animation v, None)
  else
    let token_value := nth (animation_step v) (animation_sequence v) "" in
    let cur :=
      match current_state v with
      | None => start_state v
      | Some c => Some c
      end in
    let cur' :=
      match cur with
      | Some c => Dict.get string_dec token_value (transitions (deref (objs v) c))
      | None => None
      end in
    let step' := S (animation_step v) in
    let v' := mkVisualizer (objs v) (states v) (start_state v)
                cur' step'
                (animation_sequence v) (tokens v) (selected_state v) in
    if (length (animation_sequence v) <=? step')%nat || is_none cur'
    then (v', Some (match cur' with
                    | Some c => is_accepting (deref (objs v) c)
                    | None => false
                    end))
    else (v', None).

(** The driver of a whole run (the host clicks "Step" until a verdict is
    printed): at most [n] clicks, the first printed verdict. *)
Fixpoint run (n : nat) (v : DFAVisualizer) : option bool :=
  match n with
  | 0 => None
  | S n' =>
      match step_animation v with
      | (_, Some verdict) => Some verdict
      | (v', None) => run n' v'
      end
  end.

Definition with_sequence (w : list string) (v : DFAVisualizer) : DFAVisualizer :=
  mkVisualizer (objs v) (states v) (start_state v)
    (current_state v) (animation_step v) w (tokens v) (selected_state v).

(** [simulate(A, w)]: load [w], reset, step to the first verdict. *)
Definition simulate (v : DFAVisualizer) (w : list string) : option bool :=
  run (length w) (reset_animation (with_sequence w v)).

(* ------------------------------------------------------------------ *)
(** ** Editing: [_delete_state] *)

(** [{k: v for k, v in state.transitions.items() if v != selected}] *)
Definition drop_transitions_to (selected : ref) (o : DFAState) : DFAState :=
  set_transitions
    (filter (fun kv => negb (Nat.eqb (snd kv) selected)) (transitions o)) o.

Definition with_objs (h : heap) (v : DFAVisualizer) : DFAVisualizer :=
  mkVisualizer h (states v) (start_state v)
    (current_state v) (animation_step v)
    (animation_sequence v) (tokens v) (selected_state v).

(** The loop [for state in self.states.values(): state.transitions = ...]. *)
Fixpoint drop_loop (selected : ref) (sts : list ref) (v : DFAVisualizer)
  : DFAVisualizer :=
  match sts with
  | [] => v
  | state :: rest =>
      drop_loop selected rest
        (with_objs (update (objs v) state (drop_transitions_to selected)) v)
  end.

(** The visualizer after each assignment of that loop, in order. *)
Fixpoint drop_loop_trace (selected : ref) (sts : list ref) (v : DFAVisualizer)
  : list DFAVisualizer :=
  match sts with
  | [] => []
  | state :: rest =>
      let v1 := with_objs (update (objs v) state (drop_transitions_to selected)) v in
      v1 :: drop_loop_trace selected rest v1
  end.

(** [_delete_state]; [None] is the [KeyError] of [del self.states[...]]. *)
Definition _delete_state (v : DFAVisualizer) : option DFAVisualizer :=
  match selected_state v with
  | Some selected =>
      if negb (option_ref_eqb (Some selected) (start_state v)) then
        let v1 := drop_loop selected (Dict.values (states v)) v in
        match Dict.del string_dec (name (deref (objs v1) selected)) (states v1) with
        | Some sts =>
            Some (mkVisualizer (objs v1) sts (start_state v1)
                    (current_state v1) (animation_step v1)
                    (animation_sequence v1) (tokens v1) None)
        | None => None
        end
      else Some v
  | None => Some v
  end.

(** Every visualizer value the call passes through: the one it starts
    from, the one after each assignment of the loop, and the one it
    returns. *)
Definition delete_state_trace (v : DFAVisualizer) : list DFAVisualizer :=
  match selected_state v with
  | Some selected =>
      if negb (option_ref_eqb (Some selected) (start_state v)) then
        v :: drop_loop_trace selected (Dict.values (states v)) v
          ++ match _delete_state v with Some v' => [v'] | None => [] end
      else [v]
  | None => [v]
  end.

(* ------------------------------------------------------------------ *)
(** ** Building the automaton from tokens: [update_dfa] *)

Section Update.
(** Iteration order of the set [{token.type for token in tokens}], as a
    function of the sequence of insertions. *)
Variable str_set_iter : list string -> list string.

(** The loop [for i, token_type in enumerate(token_types)]. *)
Fixpoint add_token_states (token_types : list string) (start : ref)
    (h : heap) (sts : list (string * ref)) : heap * list (string * ref) :=
  match token_types with
  | [] => (h, sts)
  | token_type :: rest =>
      let (h1, state) := alloc h (mkDFAState token_type true []) in
      let sts1 := Dict.set string_dec token_type state sts in
      let h2 := update h1 start (add_transition token_type state) in
      add_token_states rest start h2 sts1
  end.

Definition update_dfa (v : DFAVisualizer) (toks : list Token) : DFAVisualizer :=
  let (h1, start) := alloc (objs v) (mkDFAState "START" false []) in
  let sts1 := Dict.set string_dec "START" start [] in
  let token_types := str_set_iter (map type toks) in
  let (h2, sts2) := add_token_states token_types start h1 sts1 in
  reset_animation
    (mkVisualizer h2 sts2 (Some start)
       (current_state v) (animation_step v)
       (animation_sequence v) toks (selected_state v)).
End Update.

(* ------------------------------------------------------------------ *)
(** ** [minimize_dfa] *)

(** An entry of the partition list.  The two initial entries are Python
    sets; the groups a round produces are Python lists.  The payload of
    [BSet] is the set's content in its iteration order. *)
Inductive Block :=
| BSet (l : list ref)
| BList (l : list ref).

Definition members (b : Block) : list ref :=
  match b with BSet l => l | BList l => l end.

Definition subset (a b : list ref) : bool := forallb (fun x => memb x b) a.

(** Python's [==] on two entries: two sets are equal when they have the
    same elements, two lists when they agree position by position, and a
    list never equals a set. *)
Definition block_eqb (a b : Block) : bool :=
  match a, b with
  | BSet x, BSet y => subset x y && subset y x
  | BList x, BList y => if list_eq_dec Nat.eq_dec x y then true else false
  | _, _ => false
  end.

Fixpoint partitions_eqb (a b : list Block) : bool :=
  match a, b with
  | [], [] => true
  | x :: a', y :: b' => block_eqb x y && partitions_eqb a' b'
  | _, _ => false
  end.

(** [sorted(...)] on strings. *)
Fixpoint insert_sorted (s : string) (l : list string) : list string :=
  match l with
  | [] => [s]
  | x :: r => if String.leb s x then s :: l else x :: insert_sorted s r
  end.

Definition sorted (l : list string) : list string :=
  fold_right insert_sorted [] l.

(** [enumerate(partitions)] searched for the first entry holding
    [next_state]; [-1] when there is none. *)
Fixpoint partition_index (next_state : ref) (partitions : list Block) (i : Z) : Z :=
  match partitions with
  | [] => (-1)%Z
  | p :: rest =>
      if memb next_state (members p) then i
      else partition_index next_state rest (i + 1)%Z
  end.

Definition key_dec : forall a b : list Z, {a = b} + {a <> b} :=
  list_eq_dec Z.eq_dec.

(** What the [while] loop and the construction after it leave behind. *)
Inductive outcome (A : Type) :=
| Returns (a : A)
| Raises_KeyError
| Out_of_fuel.
Arguments Returns {A} a.
Arguments Raises_KeyError {A}.
Arguments Out_of_fuel {A}.

(** The dicts and the store threaded through the construction loops. *)
Record Minimized := mkMinimized {
  m_objs : heap;
  minimized_states : list (string * ref);
  partition_to_state : list (nat * ref);
  original_to_minimized : list (ref * ref)
}.

Section Minimize.
(** Iteration order of a set of [DFAState] objects, as a function of the
    sequence of insertions (objects hash by address, so the order is not
    fixed by the program). *)
Variable set_iter : list ref -> list ref.

Section Refinement.
Variable h : heap.
(** [sorted(list(alphabet))] *)
Variable symbols : list string.

(** [tuple(transition_key)] of one state against [partitions]. *)
Definition transition_key (partitions : list Block) (state : ref) : list Z :=
  map (fun symbol =>
         match Dict.get string_dec symbol (transitions (deref h state)) with
         | Some next_state => partition_index next_state partitions 0
         | None => (-1)%Z
         end) symbols.

(** The loop [for state in partition] filling [groups]. *)
Fixpoint group_states (partitions : list Block) (sts : list ref)
    (groups : list (list Z * list ref)) : list (list Z * list ref) :=
  match sts with
  | [] => groups
  | state :: rest =>
      let key := transition_key partitions state in
      let group :=
        match Dict.get key_dec key groups with
        | Some g => g
        | None => []
        end in
      group_states partitions rest (Dict.set key_dec key (group ++ [state]) groups)
  end.

(** The body of [for partition in partitions]: what one entry adds to
    [new_partitions]. *)
Definition split_partition (partitions : list Block) (partition : Block)
  : list Block :=
  if is_nil (members partition) then [partition]
  else map BList (Dict.values (group_states partitions (members partition) [])).

(** One pass of [for partition in partitions]. *)
Definition refine_round (partitions : list Block) : list Block :=
  flat_map (split_partition partitions) partitions.

(** [while new_partitions != partitions]; one unit of fuel per test. *)
Fixpoint refine_loop (fuel : nat) (partitions new_partitions : list Block)
  : option (list Block) :=
  match fuel with
  | 0 => None
  | S fuel' =>
      if partitions_eqb new_partitions partitions then Some new_partitions
      else
        let partitions :=
          if is_nil new_partitions then partitions else new_partitions in
        refine_loop fuel' partitions (refine_round partitions)
  end.
End Refinement.

(** The union of the transition keys of all states. *)
Definition alphabet (v : DFAVisualizer) : list string :=
  nodup string_dec
    (flat_map (fun state => Dict.keys (transitions (deref (objs v) state)))
       (Dict.values (states v))).

(** [[non_accepting_states, accepting_states]] *)
Definition initial_partitions (v : DFAVisualizer) : list Block :=
  [ BSet (set_iter (filter (fun s => negb (is_accepting (deref (objs v) s)))
                      (Dict.values (states v))));
    BSet (set_iter (filter (fun s => is_accepting (deref (objs v) s))
                      (Dict.values (states v)))) ].

(** The partition list after the [while] loop. *)
Definition final_partitions (fuel : nat) (v : DFAVisualizer) : option (list Block) :=
  refine_loop (objs v) (sorted (alphabet v)) fuel (initial_partitions v) [].

(** The loop that creates one minimized state per non-empty entry. *)
Fixpoint create_minimized (new_partitions : list Block) (i : nat) (acc : Minimized)
  : Minimized :=
  match new_partitions with
  | [] => acc
  | partition :: rest =>
      if is_nil (members partition) then create_minimized rest (S i) acc
      else
        let hp := m_objs acc in
        let original_state_names :=
          sorted (map (fun s => name (deref hp s)) (members partition)) in
        let new_state_name := String.concat ", " original_state_names in
        let is_accepting_state :=
          existsb (fun s => is_accepting (deref hp s)) (members partition) in
        let (h1, minimized_state) :=
          alloc hp (mkDFAState new_state_name is_accepting_state []) in
        create_minimized rest (S i)
          (mkMinimized h1
             (Dict.set string_dec new_state_name minimized_state (minimized_states acc))
             (Dict.set Nat.eq_dec i minimized_state (partition_to_state acc))
             (fold_left (fun d original_state =>
                           Dict.set Nat.eq_dec original_state minimized_state d)
                (members partition) (original_to_minimized acc)))
  end.

(** The loop over [original_state_in_partition.transitions.items()]. *)
Fixpoint copy_transitions (items : list (string * ref)) (minimized_state : ref)
    (o2m : list (ref * ref)) (hp : heap) : heap :=
  match items with
  | [] => hp
  | (symbol, next_original_state) :: rest =>
      match Dict.get Nat.eq_dec next_original_state o2m with
      | Some next_minimized_state =>
          copy_transitions rest minimized_state o2m
            (update hp minimized_state (add_transition symbol next_minimized_state))
      | None => copy_transitions rest minimized_state o2m hp
      end
  end.

(** The loop that defines the transitions of the minimized states;
    [None] is the [KeyError] of [partition_to_state[i]]. *)
Fixpoint define_transitions (new_partitions : list Block) (i : nat)
    (p2s : list (nat * ref)) (o2m : list (ref * ref)) (hp : heap) : option heap :=
  match new_partitions with
  | [] => Some hp
  | partition :: rest =>
      match members partition with
      | [] => define_transitions rest (S i) p2s o2m hp
      | original_state_in_partition :: _ =>
          match Dict.get Nat.eq_dec i p2s with
          | None => None
          | Some minimized_state =>
              define_transitions rest (S i) p2s o2m
                (copy_transitions
                   (transitions (deref hp original_state_in_partition))
                   minimized_state o2m hp)
          end
      end
  end.

(** "Find the new start state"; the outer [None] is the [KeyError] of
    [original_to_minimized[self.start_state]]. *)
Definition find_new_start (start : option ref) (new_partitions : list Block)
    (o2m : list (ref * ref)) : option (option ref) :=
  match start with
  | None => Some None
  | Some s =>
      if existsb (fun partition => memb s (members partition)) new_partitions
      then match Dict.get Nat.eq_dec s o2m with
           | Some m => Some (Some m)
           | None => None
           end
      else Some None
  end.

(** "Update the start state reference in the minimized states
    dictionary"; [None] is the [KeyError] of [del]. *)
Definition relabel_start (new_start_state : option ref) (hp : heap)
    (ms : list (string * ref)) : option (heap * list (string * ref)) :=
  match new_start_state with
  | None => Some (hp, ms)
  | Some ns =>
      match Dict.get string_dec "START" ms with
      | Some m0 =>
          if negb (Nat.eqb m0 ns) then
            let original_name := name (deref hp ns) in
            let h1 := update hp ns (set_name "START") in
            let ms1 := Dict.set string_dec "START" ns ms in
            match Dict.del string_dec original_name ms1 with
            | Some ms2 => Some (h1, ms2)
            | None => None
            end
          else Some (hp, ms)
      | None =>
          Some (update hp ns (set_name "START"),
                Dict.set string_dec "START" ns ms)
      end
  end.

(** Everything after the [while] loop, up to the state the minimized
    states are in before the start state is relabelled. *)
Definition build_minimized (v : DFAVisualizer) (new_partitions : list Block)
  : option Minimized :=
  let acc := create_minimized new_partitions 0 (mkMinimized (objs v) [] [] []) in
  match define_transitions new_partitions 0
          (partition_to_state acc) (original_to_minimized acc) (m_objs acc) with
  | Some h2 =>
      Some (mkMinimized h2 (minimized_states acc)
              (partition_to_state acc) (original_to_minimized acc))
  | None => None
  end.

(** [minimize_dfa]: the store with the new objects in it, and the
    returned dict. *)
Definition minimize_dfa (fuel : nat) (v : DFAVisualizer)
  : outcome (heap * list (string * ref)) :=
  match final_partitions fuel v with
  | None => Out_of_fuel
  | Some new_partitions =>
      match build_minimized v new_partitions with
      | None => Raises_KeyError
      | Some b =>
          match find_new_start (start_state v) new_partitions
                  (original_to_minimized b) with
          | None => Raises_KeyError
          | Some new_start_state =>
              match relabel_start new_start_state (m_objs b) (minimized_states b) with
              | None => Raises_KeyError
              | Some r => Returns r
              end
          end
      end
  end.

(** [next((state for state in minimized_states.values()
          if state.name == "START"), None)], then the fallback. *)
Definition find_start (hp : heap) (ms : list (string * ref)) : option ref :=
  match find (fun state => String.eqb (name (deref hp state)) "START")
          (Dict.values ms) with
  | Some state => Some state
  | None =>
      match Dict.values ms with
      | state :: _ => Some state
      | [] => None
      end
  end.

Definition _on_minimize_button_click (fuel : nat) (v : DFAVisualizer)
  : outcome DFAVisualizer :=
  match minimize_dfa fuel v with
  | Returns (hp, ms) =>
      Returns (mkVisualizer hp ms (find_start hp ms)
                 (current_state v) (animation_step v)
                 (animation_sequence v) (tokens v) (selected_state v))
  | Raises_KeyError => Raises_KeyError
  | Out_of_fuel => Out_of_fuel
  end.
End Minimize.

(* ------------------------------------------------------------------ *)
(** ** Vocabulary of the properties *)

(** The state objects of the automaton: the values of [self.states]. *)
Definition state_refs (v : DFAVisualizer) : list ref := Dict.values (states v).

(** The transition function read off the objects. *)
Definition delta (h : heap) (r : ref) (symbol : string) : option ref :=
  Dict.get string_dec symbol (transitions (deref h r)).

(** Acceptance of a symbol sequence from a state: every symbol is consumed
    by a defined transition and the last state is accepting. *)
Fixpoint accepts (h : heap) (r : ref) (w : list string) : bool :=
  match w with
  | [] => is_accepting (deref h r)
  | symbol :: w' =>
      match delta h r symbol with
      | Some t => accepts h t w'
      | None => false
      end
  end.

(** No transition of a state of the automaton leads outside of it. *)
Definition no_dangling (v : DFAVisualizer) : Prop :=
  forall r label t,
    In r (state_refs v) ->
    In (label, t) (transitions (deref (objs v) r)) ->
    In t (state_refs v).

(** All the states held by a partition list, entry after entry. *)
Definition all_members (partitions : list Block) : list ref :=
  flat_map members partitions.

(** The empty entries of a partition list. *)
Definition empty_entries (partitions : list Block) : list Block :=
  filter (fun b => is_nil (members b)) partitions.

(** The group stored under a key, [[]] when the key is new. *)
Definition group_of (k : list Z) (groups : list (list Z * list ref)) : list ref :=
  match Dict.get key_dec k groups with Some g => g | None => [] end.

(** What holds of the [groups] dict while [group_states] fills it: keys are
    distinct, no group is empty, and a group holds states of its key only. *)
Definition groups_ok (kf : ref -> list Z) (groups : list (list Z * list ref)) : Prop :=
  NoDup (Dict.keys groups) /\
  forall k g, In (k, g) groups -> g <> [] /\ forall x, In x g -> kf x = k.

(** Every non-empty entry is a list (true of every partition list a
    round has produced). *)
Definition settled (partitions : list Block) : Prop :=
  forall b, In b partitions -> members b = [] \/ exists l, b = BList l.

(** The states of an entry agree on a function. *)
Definition uniform {A} (f : ref -> A) (b : Block) : Prop :=
  forall x y, In x (members b) -> In y (members b) -> f x = f y.

(** The entries are pairwise disjoint, hold no state twice, and together
    hold exactly the states [sts]. *)
Definition partition_of (sts : list ref) (partitions : list Block) : Prop :=
  NoDup (all_members partitions) /\
  forall x, In x (all_members partitions) <-> In x sts.

(** The non-empty entries of a partition list (the blocks). *)
Definition blocks (partitions : list Block) : list Block :=
  filter (fun b => negb (is_nil (members b))) partitions.

(** What every partition list of a run of the loop satisfies. *)
Definition refinement_invariant (set_iter : list ref -> list ref)
    (v : DFAVisualizer) (partitions : list Block) : Prop :=
  partition_of (state_refs v) partitions /\
  (forall b, In b partitions ->
             uniform (fun s => is_accepting (deref (objs v) s)) b) /\
  empty_entries partitions = empty_entries (initial_partitions set_iter v).

(** One iteration order a set can have: first insertions first. *)
Definition insertion_order (l : list ref) : list ref :=
  rev (nodup Nat.eq_dec (rev l)).

(** The name and the accepting flag [minimize_dfa] computes for the
    minimized state of an entry. *)
Definition block_name (hp : heap) (b : Block) : string :=
  String.concat ", " (sorted (map (fun s => name (deref hp s)) (members b))).

Definition block_accepting (hp : heap) (b : Block) : bool :=
  existsb (fun s => is_accepting (deref hp s)) (members b).

(** [original_to_minimized] after the loop that registers the states of
    one entry. *)
Definition register (sts : list ref) (m : ref) (o2m : list (ref * ref))
  : list (ref * ref) :=
  fold_left (fun d original_state => Dict.set Nat.eq_dec original_state m d) sts o2m.

(** The accumulator after the body of the creation loop has run on one
    non-empty entry. *)
Definition create_one (b : Block) (i : nat) (acc : Minimized) : Minimized :=
  let m := length (m_objs acc) in
  mkMinimized
    (m_objs acc ++ [mkDFAState (block_name (m_objs acc) b)
                      (block_accepting (m_objs acc) b) []])
    (Dict.set string_dec (block_name (m_objs acc) b) m (minimized_states acc))
    (Dict.set Nat.eq_dec i m (partition_to_state acc))
    (register (members b) m (original_to_minimized acc)).

(** The transitions dict [copy_transitions] builds, started from [d]. *)
Fixpoint mapped (o2m : list (ref * ref)) (items : list (string * ref))
    (d : list (string * ref)) : list (string * ref) :=
  match items with
  | [] => d
  | (symbol, t) :: rest =>
      match Dict.get Nat.eq_dec t o2m with
      | Some m => mapped o2m rest (Dict.set string_dec symbol m d)
      | None => mapped o2m rest d
      end
  end.

(** What the construction loops of [minimize_dfa] establish, for the
    partition list [partitions] the [while] loop has left: old objects are
    untouched; every non-empty entry has its own new object, with the
    entry's name and accepting flag and the transitions of the entry's
    first state mapped through [original_to_minimized]; and the returned
    dict holds such objects only, each under the name computed for it. *)
Definition minimized_for (v : DFAVisualizer) (partitions : list Block)
    (b : Minimized) : Prop :=
  length (objs v) <= length (m_objs b) /\
  (forall r, r < length (objs v) -> deref (m_objs b) r = deref (objs v) r) /\
  NoDup (Dict.keys (minimized_states b)) /\
  (forall j blk,
      nth_error partitions j = Some blk -> members blk <> [] ->
      exists m,
        Dict.get Nat.eq_dec j (partition_to_state b) = Some m /\
        length (objs v) <= m /\ m < length (m_objs b) /\
        deref (m_objs b) m
        = mkDFAState (block_name (objs v) blk) (block_accepting (objs v) blk)
            (mapped (original_to_minimized b)
               (transitions (deref (objs v) (hd 0 (members blk)))) []) /\
        In (block_name (objs v) blk) (Dict.keys (minimized_states b)) /\
        (forall x, In x (members blk) ->
                   Dict.get Nat.eq_dec x (original_to_minimized b) = Some m)) /\
  (forall j j' blk blk' m,
      nth_error partitions j = Some blk -> members blk <> [] ->
      nth_error partitions j' = Some blk' -> members blk' <> [] ->
      Dict.get Nat.eq_dec j (partition_to_state b) = Some m ->
      Dict.get Nat.eq_dec j' (partition_to_state b) = Some m -> j = j') /\
  (forall k m,
      In (k, m) (minimized_states b) ->
      exists j blk,
        nth_error partitions j = Some blk /\ members blk <> [] /\
        k = block_name (objs v) blk /\
        Dict.get Nat.eq_dec j (partition_to_state b) = Some m).

(** The string has a comma in it. *)
Fixpoint has_comma (s : string) : bool :=
  match s with
  | EmptyString => false
  | String c s' => Ascii.eqb c "," || has_comma s'
  end.

(** A well-formed automaton, as the visualizer holds it: the states are
    objects of the store; the transitions of a state have distinct symbols
    (they are a dict); the start state is one of the states; no transition
    leads outside the states; and no two states have the same name. *)
Definition well_formed (v : DFAVisualizer) : Prop :=
  (forall r, In r (state_refs v) -> r < length (objs v)) /\
  (forall r, In r (state_refs v) ->
             NoDup (Dict.keys (transitions (deref (objs v) r)))) /\
  (exists s, start_state v = Some s /\ In s (state_refs v)) /\
  no_dangling v /\
  (forall x y, In x (state_refs v) -> In y (state_refs v) ->
               name (deref (objs v) x) = name (deref (objs v) y) -> x = y).

(** [no_dangling] as a check that can be run. *)
Definition no_danglingb (v : DFAVisualizer) : bool :=
  forallb (fun r =>
             forallb (fun kv => memb (snd kv) (state_refs v))
               (transitions (deref (objs v) r)))
    (state_refs v).

(** Scenario A: start [S], [S --a--> A], [S --b--> B], [A] and [B]
    accepting; one token loaded so that the stepper is armed. *)
Definition scenario_A : DFAVisualizer :=
  mkVisualizer
    [ mkDFAState "S" false [("a", 1); ("b", 2)];
      mkDFAState "A" true [];
      mkDFAState "B" true [] ]
    [("S", 0); ("A", 1); ("B", 2)]
    (Some 0) None 0 [] [mkToken "identifier" "a" 1 1] None.

(** A single accepting start state, tokens loaded. *)
Definition accepting_start : DFAVisualizer :=
  mkVisualizer
    [ mkDFAState "START" true [] ]
    [("START", 0)]
    (Some 0) None 0 [] [mkToken "identifier" "a" 1 1] None.

(** Scenario A after one step on the sequence [a]. *)
Definition scenario_A_after_a : DFAVisualizer :=
  fst (step_animation (reset_animation (with_sequence ["a"] scenario_A))).

(** Scenario A after one step on the sequence [c; a]. *)
Definition scenario_A_after_c : DFAVisualizer :=
  fst (step_animation (reset_animation (with_sequence ["c"; "a"] scenario_A))).

(** Scenario A with state [A] selected on the canvas. *)
Definition scenario_A_selecting_A : DFAVisualizer :=
  mkVisualizer (objs scenario_A) (states scenario_A) (start_state scenario_A)
    None 0 [] (tokens scenario_A) (Some 1).

(** The visualizer as [__init__] leaves it: the state "START" alone. *)
Definition initial_visualizer : DFAVisualizer :=
  mkVisualizer [ mkDFAState "START" false [] ] [("START", 0)]
    (Some 0) None 0 [] [] None.

(** The start state "START" and a second state "X", neither accepting,
    no transitions: what the visualizer holds after "Add State" on a fresh
    canvas. *)
Definition start_and_X : DFAVisualizer :=
  mkVisualizer
    [ mkDFAState "START" false []; mkDFAState "X" false [] ]
    [("START", 0); ("X", 1)]
    (Some 0) None 0 [] [] None.

(** [start_and_X] after one click on "Minimize DFA". *)
Definition start_and_X_minimized : DFAVisualizer :=
  mkVisualizer
    [ mkDFAState "START" false []; mkDFAState "X" false [];
      mkDFAState "START" false [] ]
    [("START, X", 2); ("START", 2)]
    (Some 2) None 0 [] [] None.

(** [start_and_X] after two clicks on "Minimize DFA". *)
Definition start_and_X_minimized_twice : DFAVisualizer :=
  mkVisualizer
    [ mkDFAState "START" false []; mkDFAState "X" false [];
      mkDFAState "START" false []; mkDFAState "START" false [] ]
    [("START", 3)]
    (Some 3) None 0 [] [] None.

(* ------------------------------------------------------------------ *)
(** ** Editing on the canvas *)

(** The customization fields of [DFAVisualizer] next to the fields
    modelled above ([selected_state] is among those). *)
Record Customizer := mkCustomizer {
  canvas : DFAVisualizer;
  customization_mode : bool;
  creating_transition : bool;
  transition_start : option ref
}.

(** A string that Python takes for true: not empty. *)
Definition truthy (s : string) : bool :=
  match s with EmptyString => false | String _ _ => true end.

Definition set_is_accepting (b : bool) (o : DFAState) : DFAState :=
  mkDFAState (name o) b (transitions o).

Definition with_states (h : heap) (sts : list (string * ref)) (v : DFAVisualizer)
  : DFAVisualizer :=
  mkVisualizer h sts (start_state v)
    (current_state v) (animation_step v)
    (animation_sequence v) (tokens v) (selected_state v).

Definition with_selected (sel : option ref) (v : DFAVisualizer) : DFAVisualizer :=
  mkVisualizer (objs v) (states v) (start_state v)
    (current_state v) (animation_step v)
    (animation_sequence v) (tokens v) sel.

Definition with_canvas (v : DFAVisualizer) (c : Customizer) : Customizer :=
  mkCustomizer v (customization_mode c) (creating_transition c) (transition_start c).

(** [__init__]: the state "START" alone, nothing selected, nothing
    loaded. *)
Definition init : Customizer :=
  mkCustomizer
    (mkVisualizer [ mkDFAState "START" false [] ] [("START", 0)]
       (Some 0) None 0 [] [] None)
    false false None.

(** [_get_state_name]; [answer] is what the dialog returns, [None] when
    it is cancelled. *)
Definition _get_state_name (v : DFAVisualizer) (answer : option string)
  : option string :=
  match answer with
  | Some name =>
      if truthy name && negb (Dict.mem string_dec name (states v))
      then Some name else None
  | None => None
  end.

Definition _add_state (c : Customizer) (answer : option string) : Customizer :=
  match _get_state_name (canvas c) answer with
  | Some name =>
      let (h, state) := alloc (objs (canvas c)) (mkDFAState name false []) in
      with_canvas
        (with_states h (Dict.set string_dec name state (states (canvas c))) (canvas c))
        c
  | None => c
  end.

Definition _toggle_accepting (c : Customizer) : Customizer :=
  match selected_state (canvas c) with
  | Some selected =>
      with_canvas
        (with_objs (update (objs (canvas c)) selected
                      (fun o => set_is_accepting (negb (is_accepting o)) o))
           (canvas c))
        c
  | None => c
  end.

Definition _start_transition (c : Customizer) : Customizer :=
  match selected_state (canvas c) with
  | Some selected =>
      mkCustomizer (canvas c) (customization_mode c) true (Some selected)
  | None => c
  end.

(** [_complete_transition(end_state)]; the label dialog is opened only
    when a transition is being created. *)
Definition _complete_transition (c : Customizer) (end_state : ref)
    (answer : option string) : Customizer :=
  let v :=
    match creating_transition c, transition_start c, answer with
    | true, Some source, Some label =>
        if truthy label
        then with_objs (update (objs (canvas c)) source (add_transition label end_state))
               (canvas c)
        else canvas c
    | _, _, _ => canvas c
    end in
  mkCustomizer v (customization_mode c) false None.

Definition _delete_transition (c : Customizer) (answer : option string) : Customizer :=
  match selected_state (canvas c), answer with
  | Some selected, Some label =>
      if truthy label
         && Dict.mem string_dec label (transitions (deref (objs (canvas c)) selected))
      then with_canvas
             (with_objs
                (update (objs (canvas c)) selected
                   (fun o => set_transitions
                               (Dict.remove string_dec label (transitions o)) o))
                (canvas c))
             c
      else c
  | _, _ => c
  end.

(** [_toggle_customization_mode]; [var] is [custom_mode_var.get()]. *)
Definition _toggle_customization_mode (c : Customizer) (var : bool) : Customizer :=
  if var then mkCustomizer (canvas c) true (creating_transition c) (transition_start c)
  else mkCustomizer (with_selected None (canvas c)) false false None.

(** The loop [for tag in tags] of [_on_click]: the state of the first tag
    that is a key of [self.states]. *)
Fixpoint clicked_state (sts : list (string * ref)) (tags : list string) : option ref :=
  match tags with
  | [] => None
  | tag :: rest =>
      match Dict.get string_dec tag sts with
      | Some state => Some state
      | None => clicked_state sts rest
      end
  end.

(** [_on_click]; [clicked] is the tag list of the closest canvas item,
    [None] when the canvas has no item. *)
Definition _on_click (c : Customizer) (clicked : option (list string))
    (answer : option string) : Customizer :=
  if negb (customization_mode c) then c
  else
    match clicked with
    | None => c
    | Some tags =>
        match clicked_state (states (canvas c)) tags with
        | Some state =>
            if creating_transition c then _complete_transition c state answer
            else with_canvas (with_selected (Some state) (canvas c)) c
        | None => c
        end
    end.

(** What the user can do on the customization panel and the canvas. *)
Inductive Edit :=
| Click (clicked : option (list string)) (answer : option string)
| AddState (answer : option string)
| DeleteState
| ToggleAccepting
| StartTransition
| DeleteTransition (answer : option string)
| ToggleCustomizationMode (var : bool).

(** The callback an action is bound to; [None] when it raises. *)
Definition apply_edit (e : Edit) (c : Customizer) : option Customizer :=
  match e with
  | Click clicked answer => Some (_on_click c clicked answer)
  | AddState answer => Some (_add_state c answer)
  | DeleteState =>
      match _delete_state (canvas c) with
      | Some v => Some (with_canvas v c)
      | None => None
      end
  | ToggleAccepting => Some (_toggle_accepting c)
  | StartTransition => Some (_start_transition c)
  | DeleteTransition answer => Some (_delete_transition c answer)
  | ToggleCustomizationMode var => Some (_toggle_customization_mode c var)
  end.

Fixpoint apply_edits (es : list Edit) (c : Customizer) : option Customizer :=
  match es with
  | [] => Some c
  | e :: rest =>
      match apply_edit e c with
      | Some c' => apply_edits rest c'
      | None => None
      end
  end.

(* ------------------------------------------------------------------ *)
(** ** The application: [on_editor_change] of [src/main.py] *)

(** The fields of [LexViApp] the callback touches. *)
Record LexViApp := mkApp {
  app_tokens : list Token;
  dfa_visualizer : DFAVisualizer
}.

Section App.
(** [self.lexer.tokenize] *)
Variable tokenize : string -> list Token.
Variable str_set_iter : list string -> list string.

(** [on_editor_change]; [text] is the content of the editor after
    [.strip()]. *)
Definition on_editor_change (text : string) (app : LexViApp) : LexViApp :=
  if negb (truthy text) then
    mkApp [] (update_dfa str_set_iter (dfa_visualizer app) [])
  else
    let toks := tokenize text in
    mkApp toks
      (with_sequence (map value toks)
         (update_dfa str_set_iter (dfa_visualizer app) toks)).
End App.

(* ------------------------------------------------------------------ *)
(** * The lexer ([src/lexer.py]) *)

(** [class Lexer]: the two sets and the dict of regular expressions, in
    the order of its items.  A character is an [ascii], a [str] a
    [string]. *)
Record Lexer := mkLexer {
  language : string;
  keywords : list string;
  operators : list string;
  patterns : list (string * string)
}.

Inductive exception := IndexError | ValueError.

(** How a call ends: with a value, with an exception, or not within the
    iterations allowed. *)
Inductive completion (A : Type) :=
| Finished (a : A)
| Raised (e : exception)
| Unfinished.
Arguments Finished {A} a.
Arguments Raised {A} e.
Arguments Unfinished {A}.

Definition newline : ascii := ascii_of_nat 10.

(** [c in s], [s.count(c)] and [s.rindex(c)] for a one-character [c];
    [rindex] raises [ValueError] ([None]) when [c] is not in [s]. *)
Fixpoint contains (c : ascii) (s : string) : bool :=
  match s with
  | EmptyString => false
  | String a s' => Ascii.eqb a c || contains c s'
  end.

Fixpoint count (c : ascii) (s : string) : nat :=
  match s with
  | EmptyString => 0
  | String a s' => (if Ascii.eqb a c then 1 else 0) + count c s'
  end.

Fixpoint rindex (c : ascii) (s : string) : option nat :=
  match s with
  | EmptyString => None
  | String a s' =>
      match rindex c s' with
      | Some i => Some (S i)
      | None => if Ascii.eqb a c then Some 0 else None
      end
  end.

(** [text[pos:]]. *)
Fixpoint slice_from (pos : nat) (text : string) : string :=
  match pos with
  | 0 => text
  | S pos' =>
      match text with
      | EmptyString => EmptyString
      | String _ text' => slice_from pos' text'
      end
  end.

(** [s in set] for a set of strings. *)
Definition str_memb (s : string) (set : list string) : bool :=
  existsb (String.eqb s) set.

(** The local variables of [tokenize]. *)
Record Locals := mkLocals {
  l_tokens : list Token;
  l_line : nat;
  l_column : nat;
  l_pos : nat
}.

Section Tokenize.
(** [re.match(pattern, string)]: [match.group(0)] when there is a match. *)
Variable re_match : string -> string -> option string.

(** The [for] loop over [self.patterns.items()], up to its [break]: the
    first pattern that matches, and what it matched. *)
Fixpoint first_match (pats : list (string * string)) (rest : string)
  : option (string * string) :=
  match pats with
  | [] => None
  | (token_type, pattern) :: pats' =>
      match re_match pattern rest with
      | Some value0 => Some (token_type, value0)
      | None => first_match pats' rest
      end
  end.

(** The body of [if match:]. *)
Definition on_match (lx : Lexer) (token_type0 value0 : string) (l : Locals)
  : completion Locals :=
  let emitted := negb (String.eqb token_type0 "whitespace")
                 && negb (String.eqb token_type0 "comment") in
  let token_type :=
    if emitted && String.eqb token_type0 "identifier" then
      if str_memb value0 (keywords lx) then "keyword"
      else if str_memb value0 (operators lx) then "operator"
      else token_type0
    else token_type0 in
  let tokens1 :=
    if emitted
    then l_tokens l ++ [mkToken token_type value0 (l_line l) (l_column l)]
    else l_tokens l in
  let pos1 := l_pos l + String.length value0 in
  let column1 := l_column l + String.length value0 in
  if String.eqb token_type "whitespace" && contains newline value0 then
    match rindex newline value0 with
    | Some i => Finished (mkLocals tokens1 (l_line l + count newline value0) (1 + i) pos1)
    | None => Raised ValueError
    end
  else Finished (mkLocals tokens1 (l_line l) column1 pos1).

(** The body of [if not matched:]. *)
Definition on_no_match (lx : Lexer) (text : string) (l : Locals)
  : completion Locals :=
  match String.get (l_pos l) text with
  | None => Raised IndexError
  | Some c =>
      let char := String c EmptyString in
      let token :=
        if str_memb char (operators lx)
        then mkToken "operator" char (l_line l) (l_column l)
        else mkToken "unknown" char (l_line l) (l_column l) in
      Finished (mkLocals (l_tokens l ++ [token]) (l_line l) (l_column l + 1)
                  (l_pos l + 1))
  end.

(** One iteration of the [while] loop. *)
Definition tokenize_body (lx : Lexer) (text : string) (l : Locals)
  : completion Locals :=
  match first_match (patterns lx) (slice_from (l_pos l) text) with
  | Some (token_type, value0) => on_match lx token_type value0 l
  | None => on_no_match lx text l
  end.

(** [while pos < len(text)], run for at most [fuel] tests of its
    condition. *)
Fixpoint tokenize_loop (fuel : nat) (lx : Lexer) (text : string) (l : Locals)
  : completion (list Token) :=
  match fuel with
  | 0 => Unfinished
  | S fuel' =>
      if (l_pos l <? String.length text)%nat then
        match tokenize_body lx text l with
        | Finished l' => tokenize_loop fuel' lx text l'
        | Raised e => Raised e
        | Unfinished => Unfinished
        end
      else Finished (l_tokens l)
  end.

Definition tokenize (fuel : nat) (lx : Lexer) (text : string)
  : completion (list Token) :=
  tokenize_loop fuel lx text (mkLocals [] 1 1 0).
End Tokenize.

Section Suggestions.
(** [str.isalnum] on one character. *)
Variable isalnum : ascii -> bool.

(** [while word_start > 0 and text[word_start - 1].isalnum():
       word_start -= 1]; [None] is the [IndexError] of [text[...]]. *)
Fixpoint find_word_start (text : string) (word_start : nat) : option nat :=
  match word_start with
  | 0 => Some 0
  | S before =>
      match String.get before text with
      | None => None
      | Some c => if isalnum c then find_word_start text before
                  else Some word_start
      end
  end.

Definition get_suggestions (lx : Lexer) (text : string) (cursor_pos : nat)
  : option (list string) :=
  match find_word_start text cursor_pos with
  | None => None
  | Some word_start =>
      let current_word := substring word_start (cursor_pos - word_start) text in
      let suggestions :=
        filter (prefix current_word) (keywords lx)
        ++ filter (prefix current_word) (operators lx) in
      Some (sorted suggestions)
  end.
End Suggestions.

(** The states are stored under their names. *)
Definition keyed_by_name (v : DFAVisualizer) : Prop :=
  forall k r, In (k, r) (states v) -> name (deref (objs v) r) = k.

(** What the editing operations keep: a well-formed automaton whose dict
    has distinct keys and stores each state under its name, and a
    selection that is one of the states. *)
Definition editable (v : DFAVisualizer) : Prop :=
  well_formed v /\
  NoDup (Dict.keys (states v)) /\
  keyed_by_name v /\
  (forall s, selected_state v = Some s -> In s (state_refs v)).

(** What holds of the store and of [self.states] while the loop of
    [update_dfa] runs, [n] being the new start state and [seen] the token
    types handled so far: the start state has one transition per type
    seen, each to an accepting state of that name with no transitions,
    stored under that name; and [self.states] holds those states, and the
    start state as long as no type seen is "START". *)
Definition token_states_ok (n : ref) (h : heap) (sts : list (string * ref))
    (seen : string -> Prop) : Prop :=
  n < length h /\
  name (deref h n) = "START" /\
  is_accepting (deref h n) = false /\
  NoDup (Dict.keys (transitions (deref h n))) /\
  NoDup (Dict.keys sts) /\
  (forall t, In t (Dict.keys (transitions (deref h n))) <-> seen t) /\
  (forall t r, In (t, r) (transitions (deref h n)) ->
               n < r /\ r < length h /\
               deref h r = mkDFAState t true [] /\
               Dict.get string_dec t sts = Some r) /\
  (forall k r, In (k, r) sts ->
               (k = "START" /\ r = n /\ ~ seen "START") \/
               In (k, r) (transitions (deref h n))).

(** [k] clicks on "Step". *)
Fixpoint steps (k : nat) (v : DFAVisualizer) : DFAVisualizer :=
  match k with
  | 0 => v
  | S k' => steps k' (fst (step_animation v))
  end.

(** The state reached from [r] by the symbols of [w], when every one of
    them has a transition. *)
Fixpoint walk (h : heap) (r : ref) (w : list string) : option ref :=
  match w with
  | [] => Some r
  | symbol :: w' =>
      match delta h r symbol with
      | Some t => walk h t w'
      | None => None
      end
  end.

(** The type [tokenize] stores a match of an "identifier" pattern under. *)
Definition token_type_of (lx : Lexer) (token_type0 value0 : string) : string :=
  if String.eqb token_type0 "identifier" then
    if str_memb value0 (keywords lx) then "keyword"
    else if str_memb value0 (operators lx) then "operator"
    else token_type0
  else token_type0.

(* ------------------------------------------------------------------ *)
(** ** Concrete inputs *)

(** Scenario A on the canvas, in customization mode, with state [A]
    selected. *)
Definition editing_A : Customizer :=
  mkCustomizer scenario_A_selecting_A true false None.

(** The same with the start state [S] selected. *)
Definition editing_S : Customizer :=
  mkCustomizer (with_selected (Some 0) scenario_A) true false None.

(** An iteration order for a set of strings. *)
Definition string_set_order (l : list string) : list string :=
  nodup string_dec l.

(** The longest prefix of [s] made of characters that satisfy [p]. *)
Fixpoint take_while (p : ascii -> bool) (s : string) : string :=
  match s with
  | EmptyString => EmptyString
  | String a s' => if p a then String a (take_while p s') else EmptyString
  end.

(** A matcher for runs of characters.  The pattern lists the characters,
    and what is matched is the longest run of them that the text starts
    with: [re.match] on the pattern [[...]+], or on [[...]*] with
    [allow_empty]. *)
Definition run_match (allow_empty : bool) (pattern rest : string)
  : option string :=
  match take_while (fun c => contains c pattern) rest with
  | EmptyString => if allow_empty then Some EmptyString else None
  | String a s => Some (String a s)
  end.

(** Rules with two keywords, two operators and three patterns. *)
Definition sample_lexer : Lexer :=
  mkLexer "sample" ["if"; "in"] ["+"; "in"]
    [ ("identifier", "abcdefghijklmnopqrstuvwxyz");
      ("number", "0123456789");
      ("whitespace", " ") ].

(** [tokenize] with these rules, given one iteration more than the text
    has characters. *)
Definition sample_tokenize (text : string) : list Token :=
  match tokenize (run_match false) (S (String.length text)) sample_lexer text with
  | Finished toks => toks
  | _ => []
  end.

(** [isalnum] on the letters and digits of ASCII. *)
Definition is_alnum (c : ascii) : bool :=
  let n := nat_of_ascii c in
  ((48 <=? n) && (n <=? 57) || (65 <=? n) && (n <=? 90)
   || (97 <=? n) && (n <=? 122))%nat.

(* ------------------------------------------------------------------ *)
(** * Properties *)

(** ** Dicts *)

Module DictFacts.
Section Facts.
Variables K V : Type.
Variable K_dec : forall a b : K, {a = b} + {a <> b}.
Implicit Types (d : list (K * V)) (k : K) (v : V).

Lemma get_In d k v : Dict.get K_dec k d = Some v -> In (k, v) d.
Proof.
  induction d as [|[k' v'] d IH]; simpl; [discriminate|].
  destruct (K_dec k k') as [->|Hne]; intros H.
  - injection H as ->. now left.
  - right. auto.
Qed.

Lemma get_None d k : Dict.get K_dec k d = None <-> ~ In k (Dict.keys d).
Proof.
  induction d as [|[k' v'] d IH]; simpl; [tauto|].
  destruct (K_dec k k') as [->|Hne].
  - split; [discriminate|]. intros H; exfalso; apply H; now left.
  - rewrite IH. split; intros H; [intros [E|E]; [congruence|tauto]|tauto].
Qed.

Lemma get_Some_key d k v : Dict.get K_dec k d = Some v -> In k (Dict.keys d).
Proof.
  intros H. apply get_In in H. unfold Dict.keys.
  change k with (fst (k, v)). now apply in_map.
Qed.

Lemma In_get d k v :
  NoDup (Dict.keys d) -> In (k, v) d -> Dict.get K_dec k d = Some v.
Proof.
  induction d as [|[k' v'] d IH]; simpl; [tauto|].
  intros Hnd [E|Hin].
  - injection E as -> ->. destruct (K_dec k k); congruence.
  - inversion Hnd as [|? ? Hn Hnd']; subst.
    destruct (K_dec k k') as [->|Hne]; auto.
    exfalso. apply Hn. unfold Dict.keys.
    change k' with (fst (k', v)). now apply in_map.
Qed.

Lemma In_values d v : In v (Dict.values d) <-> exists k, In (k, v) d.
Proof.
  unfold Dict.values. rewrite in_map_iff. split.
  - intros [[k v'] [E H]]. simpl in E. subst. eauto.
  - intros [k H]. exists (k, v). auto.
Qed.

Lemma get_set_same d k v : Dict.get K_dec k (Dict.set K_dec k v d) = Some v.
Proof.
  induction d as [|[k' v'] d IH]; simpl.
  - destruct (K_dec k k); congruence.
  - destruct (K_dec k k') as [->|Hne]; simpl.
    + destruct (K_dec k' k'); congruence.
    + destruct (K_dec k k'); congruence.
Qed.

Lemma get_set_other d k k' v :
  k <> k' -> Dict.get K_dec k' (Dict.set K_dec k v d) = Dict.get K_dec k' d.
Proof.
  intros Hne. induction d as [|[k0 v0] d IH]; simpl.
  - destruct (K_dec k' k); congruence.
  - destruct (K_dec k k0) as [->|Hne0]; simpl.
    + destruct (K_dec k' k0); congruence.
    + destruct (K_dec k' k0); congruence.
Qed.

Lemma get_set d k k' v :
  Dict.get K_dec k' (Dict.set K_dec k v d)
  = if K_dec k k' then Some v else Dict.get K_dec k' d.
Proof.
  destruct (K_dec k k') as [->|Hne].
  - apply get_set_same.
  - now apply get_set_other.
Qed.

Lemma keys_set d k v :
  Dict.keys (Dict.set K_dec k v d)
  = if Dict.mem K_dec k d then Dict.keys d else Dict.keys d ++ [k].
Proof.
  unfold Dict.mem.
  induction d as [|[k' v'] d IH]; simpl; auto.
  destruct (K_dec k k') as [->|Hne]; simpl; auto.
  rewrite IH. destruct (Dict.get K_dec k d); reflexivity.
Qed.

Lemma NoDup_keys_set d k v :
  NoDup (Dict.keys d) -> NoDup (Dict.keys (Dict.set K_dec k v d)).
Proof.
  intros Hnd. rewrite keys_set. unfold Dict.mem.
  destruct (Dict.get K_dec k d) eqn:E; auto.
  apply get_None in E.
  apply NoDup_app; auto.
  - constructor; [simpl; tauto | constructor].
  - intros x Hx [<-|[]]. contradiction.
Qed.

Lemma In_set d k v k' v' :
  In (k', v') (Dict.set K_dec k v d) ->
  (k' = k /\ v' = v) \/ In (k', v') d.
Proof.
  induction d as [|[k0 v0] d IH]; simpl.
  - intros [E|[]]. injection E as <- <-. auto.
  - destruct (K_dec k k0) as [->|Hne]; simpl.
    + intros [E|H]; [injection E as <- <-; auto|auto].
    + intros [E|H]; [auto|].
      destruct (IH H) as [?|?]; auto.
Qed.

Lemma In_set_new d k v : In (k, v) (Dict.set K_dec k v d).
Proof. apply get_In. apply get_set_same. Qed.

Lemma In_set_old d k v k' v' :
  In (k', v') d -> k' <> k -> In (k', v') (Dict.set K_dec k v d).
Proof.
  intros H Hne. induction d as [|[k0 v0] d IH]; simpl in *; [tauto|].
  destruct (K_dec k k0) as [->|Hne0]; simpl.
  - destruct H as [E|H]; [injection E as -> ->; congruence|auto].
  - destruct H as [E|H]; auto.
Qed.

Lemma In_remove d k x : In x (Dict.remove K_dec k d) -> In x d.
Proof.
  induction d as [|[k0 v0] d IH]; simpl; auto.
  destruct (K_dec k k0); simpl; intuition.
Qed.

Lemma In_remove_other d k k' v' :
  In (k', v') d -> k' <> k -> In (k', v') (Dict.remove K_dec k d).
Proof.
  intros H Hne. induction d as [|[k0 v0] d IH]; simpl in *; [tauto|].
  destruct (K_dec k k0) as [->|Hne0]; simpl.
  - destruct H as [E|H]; [injection E as -> ->; congruence|auto].
  - destruct H as [E|H]; auto.
Qed.

Lemma keys_remove_notin d k :
  NoDup (Dict.keys d) -> ~ In k (Dict.keys (Dict.remove K_dec k d)).
Proof.
  induction d as [|[k0 v0] d IH]; simpl; auto.
  intros Hnd. inversion Hnd as [|? ? Hn Hnd']; subst.
  destruct (K_dec k k0) as [->|Hne0]; simpl; auto.
  intros [E|H]; [congruence|]. now apply IH.
Qed.

Lemma get_remove_same d k :
  NoDup (Dict.keys d) -> Dict.get K_dec k (Dict.remove K_dec k d) = None.
Proof. intros H. apply get_None. now apply keys_remove_notin. Qed.

Lemma NoDup_keys_remove d k :
  NoDup (Dict.keys d) -> NoDup (Dict.keys (Dict.remove K_dec k d)).
Proof.
  induction d as [|[k0 v0] d IH]; simpl; auto.
  intros Hnd. inversion Hnd as [|? ? Hn Hnd']; subst.
  destruct (K_dec k k0) as [->|Hne0]; simpl; auto.
  constructor; auto.
  intros H. apply Hn. unfold Dict.keys in *.
  apply in_map_iff in H. destruct H as [[a b] [E H]]. simpl in E; subst.
  apply In_remove in H. change k0 with (fst (k0, b)). now apply in_map.
Qed.
End Facts.
End DictFacts.

Unset Implicit Arguments.

(* ------------------------------------------------------------------ *)
(** ** The store *)

Lemma length_update (h : heap) r f : length (update h r f) = length h.
Proof.
  revert r; induction h as [|o h IH]; intros [|r]; simpl; auto.
Qed.

Lemma deref_update_same (h : heap) r f :
  r < length h -> deref (update h r f) r = f (deref h r).
Proof.
  unfold deref. revert r; induction h as [|o h IH]; intros [|r] Hr; simpl in *;
    try lia; auto.
  apply IH; lia.
Qed.

Lemma deref_update_other (h : heap) r r' f :
  r <> r' -> deref (update h r f) r' = deref h r'.
Proof.
  unfold deref. revert r r'; induction h as [|o h IH]; intros [|r] [|r'] Hne;
    simpl; auto; try congruence.
Qed.

Lemma update_out_of_range (h : heap) r f : length h <= r -> update h r f = h.
Proof.
  revert r; induction h as [|o h IH]; intros [|r] Hr; simpl in *; auto; try lia.
  f_equal. apply IH. lia.
Qed.

Lemma deref_app_old (h h' : heap) r : r < length h -> deref (h ++ h') r = deref h r.
Proof. intros Hr. unfold deref. apply app_nth1; assumption. Qed.

Lemma deref_alloc_new (h : heap) o : deref (h ++ [o]) (length h) = o.
Proof. unfold deref. rewrite app_nth2, Nat.sub_diag; auto. Qed.

Lemma name_update_transitions (h : heap) r r' f :
  (forall o, name (f o) = name o) ->
  name (deref (update h r f) r') = name (deref h r').
Proof.
  intros Hf. destruct (Nat.eq_dec r r') as [->|Hne].
  - destruct (Nat.lt_ge_cases r' (length h)).
    + rewrite deref_update_same; auto.
    + rewrite update_out_of_range; auto.
  - rewrite deref_update_other; auto.
Qed.

Lemma is_accepting_update (h : heap) r r' f :
  (forall o, is_accepting (f o) = is_accepting o) ->
  is_accepting (deref (update h r f) r') = is_accepting (deref h r').
Proof.
  intros Hf. destruct (Nat.eq_dec r r') as [->|Hne].
  - destruct (Nat.lt_ge_cases r' (length h)).
    + rewrite deref_update_same; auto.
    + rewrite update_out_of_range; auto.
  - rewrite deref_update_other; auto.
Qed.

(** ** The simulator *)

Lemma step_animation_unarmed v :
  animation_sequence v = [] \/ tokens v = [] -> step_animation v = (v, None).
Proof.
  intros [H|H]; unfold step_animation; rewrite H; simpl; auto.
  destruct (animation_sequence v); reflexivity.
Qed.

Lemma step_animation_past_end v :
  animation_sequence v <> [] -> tokens v <> [] ->
  length (animation_sequence v) <= animation_step v ->
  step_animation v = (reset_animation v, None).
Proof.
  intros Hs Ht Hle. unfold step_animation.
  destruct (animation_sequence v) as [|s w] eqn:Es; [congruence|].
  destruct (tokens v) as [|t ts] eqn:Et; [congruence|].
  cbn [is_nil orb].
  apply Nat.leb_le in Hle. rewrite Hle. reflexivity.
Qed.

(** C2, as the code has it: once the cursor has passed the end of the
    (non-empty) symbol sequence, the next [step_animation] is not a no-op.
    It is exactly [reset_animation]: the cursor goes back to 0, the current
    state goes back to the start state, and no verdict is printed. *)
Theorem C2_step_past_end_resets (v : DFAVisualizer) :
  animation_sequence v <> [] -> tokens v <> [] ->
  length (animation_sequence v) <= animation_step v ->
  step_animation v = (reset_animation v, None) /\
  animation_step (fst (step_animation v)) = 0 /\
  current_state (fst (step_animation v)) = start_state v /\
  snd (step_animation v) = None.
Proof.
  intros Hs Ht Hle. rewrite (step_animation_past_end v Hs Ht Hle).
  repeat split.
Qed.

Lemma C2_step_past_end_resets_witness :
  animation_step (fst (step_animation scenario_A_after_a)) = 0.
Proof.
  apply (C2_step_past_end_resets scenario_A_after_a).
  - vm_compute. discriminate.
  - vm_compute. discriminate.
  - vm_compute. lia.
Defined.

(** C2 fails as stated: on Scenario A with the sequence [a], the first
    step halts with verdict accept at cursor 1 in state [A]; the next step
    prints no verdict and moves the cursor to 0 and the current state to
    [S]. *)
Lemma C2_counterexample :
  step_animation (reset_animation (with_sequence ["a"] scenario_A))
    = (scenario_A_after_a, Some true) /\
  animation_step scenario_A_after_a = 1 /\
  current_state scenario_A_after_a = Some 1 /\
  snd (step_animation scenario_A_after_a) = None /\
  animation_step (fst (step_animation scenario_A_after_a)) = 0 /\
  current_state (fst (step_animation scenario_A_after_a)) = Some 0.
Proof. vm_compute. repeat split. Qed.

(** A step on a missing transition prints "rejected" at once and leaves
    no current state. *)
Lemma step_animation_missing_transition v c :
  tokens v <> [] ->
  animation_step v < length (animation_sequence v) ->
  current_state v = Some c ->
  delta (objs v) c (nth (animation_step v) (animation_sequence v) "") = None ->
  snd (step_animation v) = Some false /\
  current_state (fst (step_animation v)) = None.
Proof.
  intros Ht Hlt Hc Hd. unfold step_animation.
  destruct (animation_sequence v) as [|s w] eqn:Es; [simpl in Hlt; lia|].
  destruct (tokens v) as [|t ts] eqn:Et; [congruence|].
  cbn [is_nil orb].
  destruct (length (s :: w) <=? animation_step v)%nat eqn:E.
  - apply Nat.leb_le in E. lia.
  - rewrite Hc. unfold delta in Hd. rewrite Hd.
    rewrite orb_true_r. simpl. auto.
Qed.

(** C3 at the failing input: on Scenario A with the sequence [c; a], the
    first step hits the missing transition and prints "rejected"; the
    second step starts again from [S], consumes [a] and prints
    "accepted". *)
Theorem C3_rejection_is_not_permanent :
  step_animation (reset_animation (with_sequence ["c"; "a"] scenario_A))
    = (scenario_A_after_c, Some false) /\
  current_state scenario_A_after_c = None /\
  animation_step scenario_A_after_c = 1 /\
  snd (step_animation scenario_A_after_c) = Some true /\
  current_state (fst (step_animation scenario_A_after_c)) = Some 1 /\
  animation_step (fst (step_animation scenario_A_after_c)) = 2.
Proof. vm_compute. repeat split. Qed.

(** C4, as the code has it: with an empty symbol sequence [step_animation]
    returns at its first guard.  It prints no verdict and changes nothing,
    whether or not the start state is accepting, and so does a whole run. *)
Theorem C4_empty_sequence_no_verdict (v : DFAVisualizer) :
  animation_sequence v = [] ->
  step_animation v = (v, None) /\
  step_animation (reset_animation v) = (reset_animation v, None) /\
  simulate v [] = None.
Proof.
  intros H. repeat split.
  - apply step_animation_unarmed; auto.
  - apply step_animation_unarmed; auto.
Qed.

Lemma C4_empty_sequence_no_verdict_witness :
  simulate accepting_start [] = None.
Proof.
  apply (C4_empty_sequence_no_verdict accepting_start). reflexivity.
Defined.

(** C4 fails as stated: the start state of [accepting_start] is
    accepting, yet a step on the empty sequence after a reset prints no
    verdict, and neither does the run. *)
Lemma C4_counterexample :
  is_accepting (deref (objs accepting_start) 0) = true /\
  start_state accepting_start = Some 0 /\
  snd (step_animation (reset_animation (with_sequence [] accepting_start))) = None /\
  simulate accepting_start [] = None.
Proof. vm_compute. repeat split. Qed.

(* ------------------------------------------------------------------ *)
(** ** [update_dfa] *)

Lemma add_token_states_start token_types start h sts h' sts' :
  start < length h ->
  add_token_states token_types start h sts = (h', sts') ->
  length h <= length h' /\
  name (deref h' start) = name (deref h start) /\
  is_accepting (deref h' start) = is_accepting (deref h start).
Proof.
  revert h sts. induction token_types as [|ty rest IH]; intros h sts Hlt; simpl.
  - intros E. injection E as <- <-. auto.
  - intros E. apply IH in E.
    2:{ rewrite length_update, length_app. simpl. lia. }
    destruct E as (Hlen & Hn & Ha).
    rewrite length_update, length_app in Hlen. simpl in Hlen.
    rewrite Hn, Ha. split; [lia|].
    rewrite name_update_transitions by reflexivity.
    rewrite is_accepting_update by reflexivity.
    rewrite deref_app_old by assumption. auto.
Qed.

(** C10: whatever the visualizer was doing, after [update_dfa(tokens)] the
    cursor is 0 and the current state is the start state, which is the
    object the call has just created: it did not exist in the store before
    the call, its name is "START" and it is not accepting. *)
Theorem C10_update_dfa_resets (str_set_iter : list string -> list string)
    (v : DFAVisualizer) (toks : list Token) :
  let v' := update_dfa str_set_iter v toks in
  let fresh := length (objs v) in
  animation_step v' = 0 /\
  current_state v' = Some fresh /\
  start_state v' = Some fresh /\
  fresh < length (objs v') /\
  name (deref (objs v') fresh) = "START" /\
  is_accepting (deref (objs v') fresh) = false /\
  tokens v' = toks.
Proof.
  cbv zeta. unfold update_dfa, alloc.
  destruct (add_token_states _ _ _ _) as [h2 sts2] eqn:E.
  apply add_token_states_start in E.
  2:{ rewrite length_app. simpl. lia. }
  destruct E as (Hlen & Hn & Ha).
  rewrite deref_alloc_new in Hn, Ha. simpl in Hn, Ha.
  rewrite length_app in Hlen. simpl in Hlen |- *.
  repeat split; auto. lia.
Qed.

(* ------------------------------------------------------------------ *)
(** ** [_delete_state] *)

Lemma transitions_update_drop h a sel r :
  transitions (deref (update h a (drop_transitions_to sel)) r)
  = if Nat.eq_dec a r
    then filter (fun kv => negb (Nat.eqb (snd kv) sel)) (transitions (deref h r))
    else transitions (deref h r).
Proof.
  destruct (Nat.eq_dec a r) as [->|Hne].
  - destruct (Nat.lt_ge_cases r (length h)).
    + rewrite deref_update_same by assumption. reflexivity.
    + rewrite update_out_of_range by assumption.
      unfold deref. rewrite nth_overflow by assumption. reflexivity.
  - now rewrite deref_update_other.
Qed.

Lemma filter_idem {A} (p : A -> bool) l : filter p (filter p l) = filter p l.
Proof.
  induction l as [|x l IH]; simpl; auto.
  destruct (p x) eqn:E; simpl; rewrite ?E, IH; auto.
Qed.

Lemma memb_In x l : memb x l = true <-> In x l.
Proof.
  unfold memb. rewrite existsb_exists. split.
  - intros [y [Hy E]]. apply Nat.eqb_eq in E. now subst.
  - intros H. exists x. split; auto. apply Nat.eqb_refl.
Qed.

Lemma memb_false x l : memb x l = false <-> ~ In x l.
Proof.
  rewrite <- memb_In. destruct (memb x l); split; congruence.
Qed.

Lemma drop_loop_fields sel sts v :
  states (drop_loop sel sts v) = states v /\
  start_state (drop_loop sel sts v) = start_state v /\
  selected_state (drop_loop sel sts v) = selected_state v.
Proof.
  revert v. induction sts as [|a sts IH]; intros v; simpl; auto.
  destruct (IH (with_objs (update (objs v) a (drop_transitions_to sel)) v))
    as (-> & -> & ->). auto.
Qed.

Lemma drop_loop_transitions sel sts v r :
  transitions (deref (objs (drop_loop sel sts v)) r)
  = if memb r sts
    then filter (fun kv => negb (Nat.eqb (snd kv) sel))
           (transitions (deref (objs v) r))
    else transitions (deref (objs v) r).
Proof.
  revert v. induction sts as [|a sts IH]; intros v; simpl; auto.
  rewrite IH. simpl. rewrite transitions_update_drop.
  destruct (Nat.eq_dec a r) as [->|Hne].
  - rewrite Nat.eqb_refl. simpl. rewrite filter_idem.
    destruct (memb r sts); reflexivity.
  - assert (Nat.eqb r a = false) as -> by (apply Nat.eqb_neq; congruence).
    reflexivity.
Qed.

Lemma drop_loop_name sel sts v r :
  name (deref (objs (drop_loop sel sts v)) r) = name (deref (objs v) r).
Proof.
  revert v. induction sts as [|a sts IH]; intros v; simpl; auto.
  rewrite IH. simpl. now rewrite name_update_transitions.
Qed.

(** Each assignment of the loop only takes transitions away. *)
Lemma drop_loop_trace_shrinks sel sts v u :
  In u (drop_loop_trace sel sts v) ->
  states u = states v /\
  forall r kv, In kv (transitions (deref (objs u) r)) ->
               In kv (transitions (deref (objs v) r)).
Proof.
  revert v. induction sts as [|a sts IH]; intros v; simpl; [tauto|].
  set (v1 := with_objs (update (objs v) a (drop_transitions_to sel)) v).
  assert (Hv1 : forall r kv, In kv (transitions (deref (objs v1) r)) ->
                             In kv (transitions (deref (objs v) r))).
  { intros r kv. unfold v1. simpl. rewrite transitions_update_drop.
    destruct (Nat.eq_dec a r); auto. intros H. apply filter_In in H. tauto. }
  intros [<-|Hin].
  - split; auto.
  - destruct (IH v1 Hin) as [Hs Ht]. split; auto.
Qed.

Lemma no_dangling_shrinks v u :
  states u = states v ->
  (forall r kv, In kv (transitions (deref (objs u) r)) ->
                In kv (transitions (deref (objs v) r))) ->
  no_dangling v -> no_dangling u.
Proof.
  intros Hs Ht Hv r label t Hr Hin. unfold state_refs in *. rewrite Hs in *.
  eapply Hv; eauto.
Qed.

Lemma delete_start_state_refused v :
  selected_state v = start_state v ->
  _delete_state v = Some v /\ delete_state_trace v = [v].
Proof.
  intros E. unfold delete_state_trace, _delete_state.
  destruct (selected_state v) as [sel|]; auto.
  rewrite <- E. simpl. rewrite Nat.eqb_refl. simpl. auto.
Qed.

Lemma delete_other_state v selected :
  selected_state v = Some selected ->
  start_state v <> Some selected ->
  NoDup (Dict.keys (states v)) ->
  Dict.get string_dec (name (deref (objs v) selected)) (states v) = Some selected ->
  no_dangling v ->
  exists v',
    _delete_state v = Some v' /\
    states v' = Dict.remove string_dec (name (deref (objs v) selected)) (states v) /\
    Dict.get string_dec (name (deref (objs v) selected)) (states v') = None /\
    (forall r label t,
        In r (state_refs v') ->
        In (label, t) (transitions (deref (objs v') r)) -> t <> selected) /\
    ((forall k, In (k, selected) (states v) -> k = name (deref (objs v) selected)) ->
     ~ In selected (state_refs v')) /\
    (forall u, In u (delete_state_trace v) -> no_dangling u).
Proof.
  intros Hsel Hstart Hnd Hget Hdang.
  assert (Hneq : negb (option_ref_eqb (Some selected) (start_state v)) = true).
  { destruct (start_state v) as [s|]; simpl; auto.
    apply negb_true_iff, Nat.eqb_neq. congruence. }
  set (k := name (deref (objs v) selected)) in *.
  set (v1 := drop_loop selected (Dict.values (states v)) v).
  destruct (drop_loop_fields selected (Dict.values (states v)) v)
    as (Hs1 & Hst1 & Hse1). fold v1 in Hs1, Hst1, Hse1.
  assert (Hk1 : name (deref (objs v1) selected) = k)
    by apply drop_loop_name.
  assert (Hdel : Dict.del string_dec k (states v)
                 = Some (Dict.remove string_dec k (states v))).
  { unfold Dict.del, Dict.mem. now rewrite Hget. }
  assert (Hres : _delete_state v
                 = Some (mkVisualizer (objs v1) (Dict.remove string_dec k (states v))
                           (start_state v1) (current_state v1) (animation_step v1)
                           (animation_sequence v1) (tokens v1) None)).
  { unfold _delete_state. rewrite Hsel, Hneq. fold v1. rewrite Hk1, Hs1, Hdel.
    reflexivity. }
  assert (Hfiltered : forall r label t,
             In r (Dict.values (Dict.remove string_dec k (states v))) ->
             In (label, t) (transitions (deref (objs v1) r)) ->
             t <> selected /\ In (label, t) (transitions (deref (objs v) r))
             /\ In r (Dict.values (states v))).
  { intros r label t Hr Hin.
    assert (Hr' : In r (Dict.values (states v))).
    { apply DictFacts.In_values in Hr. destruct Hr as [k' Hr].
      apply DictFacts.In_remove in Hr. apply DictFacts.In_values. eauto. }
    unfold v1 in Hin. rewrite drop_loop_transitions in Hin.
    apply memb_In in Hr'. rewrite Hr' in Hin. apply memb_In in Hr'.
    apply filter_In in Hin. destruct Hin as [Hin Hne]. simpl in Hne.
    apply negb_true_iff, Nat.eqb_neq in Hne. auto. }
  eexists. split; [exact Hres|]. simpl.
  split; [reflexivity|].
  split; [now apply DictFacts.get_remove_same|].
  split; [intros r label t Hr Hin; now destruct (Hfiltered r label t Hr Hin)|].
  split.
  { intros Honce Hin. apply DictFacts.In_values in Hin. destruct Hin as [k' Hin].
    assert (In (k', selected) (states v)) as Hin'
        by (eapply DictFacts.In_remove; eauto).
    apply Honce in Hin'. subst k'.
    apply DictFacts.keys_remove_notin with (K_dec := string_dec) (k := k) in Hnd.
    apply Hnd. unfold Dict.keys. change k with (fst (k, selected)).
    now apply in_map. }
  intros u Hu. unfold delete_state_trace in Hu. rewrite Hsel, Hneq, Hres in Hu.
  destruct Hu as [<-|Hu]; [assumption|].
  apply in_app_or in Hu. destruct Hu as [Hu|[<-|[]]].
  - apply drop_loop_trace_shrinks in Hu. destruct Hu as [Hs Ht].
    eapply no_dangling_shrinks; eauto.
  - intros r label t Hr Hin. unfold state_refs in *. simpl in *.
    destruct (Hfiltered r label t Hr Hin) as (Hne & Hin0 & Hr0).
    pose proof (Hdang r label t Hr0 Hin0) as Ht.
    unfold state_refs in Ht. apply DictFacts.In_values in Ht.
    destruct Ht as [k' Ht]. apply DictFacts.In_values. exists k'.
    apply DictFacts.In_remove_other; auto.
    intros ->. apply (DictFacts.In_get string_dec) in Ht; auto. congruence.
Qed.

(** C7: [_delete_state] on the start state does nothing; on any other
    state stored under its name it returns, the state's key is gone from
    [self.states], no state that is left has a transition into the removed
    state, and every visualizer value the call passes through (before,
    after each assignment of its loop, after [del]) is free of dangling
    transitions when the one it started from was. *)
Theorem C7_delete_state (v : DFAVisualizer) :
  (selected_state v = start_state v ->
   _delete_state v = Some v /\ delete_state_trace v = [v]) /\
  (forall selected,
      selected_state v = Some selected ->
      start_state v <> Some selected ->
      NoDup (Dict.keys (states v)) ->
      Dict.get string_dec (name (deref (objs v) selected)) (states v) = Some selected ->
      no_dangling v ->
      exists v',
        _delete_state v = Some v' /\
        states v' = Dict.remove string_dec (name (deref (objs v) selected)) (states v) /\
        Dict.get string_dec (name (deref (objs v) selected)) (states v') = None /\
        (forall r label t,
            In r (state_refs v') ->
            In (label, t) (transitions (deref (objs v') r)) -> t <> selected) /\
        ((forall k, In (k, selected) (states v) ->
                    k = name (deref (objs v) selected)) ->
         ~ In selected (state_refs v')) /\
        (forall u, In u (delete_state_trace v) -> no_dangling u)).
Proof.
  split.
  - apply delete_start_state_refused.
  - intros selected. apply delete_other_state.
Qed.

Lemma no_danglingb_sound v : no_danglingb v = true -> no_dangling v.
Proof.
  unfold no_danglingb, no_dangling. rewrite forallb_forall.
  intros H r label t Hr Hin. specialize (H r Hr). rewrite forallb_forall in H.
  specialize (H (label, t) Hin). now apply memb_In in H.
Qed.

Ltac distinct_keys :=
  repeat (constructor; [simpl; intuition discriminate|]); constructor.

Lemma C7_delete_state_witness :
  exists v',
    _delete_state scenario_A_selecting_A = Some v' /\
    states v' = Dict.remove string_dec (name (deref (objs scenario_A_selecting_A) 1))
                  (states scenario_A_selecting_A) /\
    Dict.get string_dec (name (deref (objs scenario_A_selecting_A) 1)) (states v') = None /\
    (forall r label t,
        In r (state_refs v') ->
        In (label, t) (transitions (deref (objs v') r)) -> t <> 1) /\
    ((forall k, In (k, 1) (states scenario_A_selecting_A) ->
                k = name (deref (objs scenario_A_selecting_A) 1)) ->
     ~ In 1 (state_refs v')) /\
    (forall u, In u (delete_state_trace scenario_A_selecting_A) -> no_dangling u).
Proof.
  apply (proj2 (C7_delete_state scenario_A_selecting_A) 1).
  - reflexivity.
  - simpl. discriminate.
  - simpl. distinct_keys.
  - reflexivity.
  - apply no_danglingb_sound. reflexivity.
Defined.

(* ------------------------------------------------------------------ *)
(** ** Grouping the states of one entry *)

Section Grouping.
Variable h : heap.
Variable symbols : list string.
Variable partitions : list Block.

Local Abbreviation kf := (transition_key h symbols partitions).

Lemma group_states_cons state rest groups :
  group_states h symbols partitions (state :: rest) groups
  = group_states h symbols partitions rest
      (Dict.set key_dec (kf state) (group_of (kf state) groups ++ [state]) groups).
Proof. reflexivity. Qed.

Lemma group_step_ok groups x :
  groups_ok kf groups ->
  groups_ok kf (Dict.set key_dec (kf x) (group_of (kf x) groups ++ [x]) groups).
Proof.
  intros [Hnd Hg]. split.
  - now apply DictFacts.NoDup_keys_set.
  - intros k g Hin. apply DictFacts.In_set in Hin. destruct Hin as [[-> ->]|Hin].
    + split; [destruct (group_of (kf x) groups); discriminate|].
      intros y Hy. apply in_app_or in Hy. destruct Hy as [Hy|[<-|[]]]; auto.
      unfold group_of in Hy.
      destruct (Dict.get key_dec (kf x) groups) as [g|] eqn:E; [|contradiction].
      apply DictFacts.get_In in E. now apply (Hg _ _ E).
    + now apply Hg.
Qed.

Lemma group_step_perm groups k x :
  Permutation
    (concat (Dict.values (Dict.set key_dec k (group_of k groups ++ [x]) groups)))
    (concat (Dict.values groups) ++ [x]).
Proof.
  unfold group_of.
  induction groups as [|[k0 g0] r IH]; simpl.
  - reflexivity.
  - destruct (key_dec k k0) as [->|Hne]; simpl.
    + rewrite <- !app_assoc. apply Permutation_app_head. apply Permutation_app_comm.
    + rewrite <- app_assoc. apply Permutation_app_head. exact IH.
Qed.

Lemma group_states_ok sts groups :
  groups_ok kf groups -> groups_ok kf (group_states h symbols partitions sts groups).
Proof.
  revert groups. induction sts as [|x sts IH]; intros groups Hok; auto.
  rewrite group_states_cons. apply IH. now apply group_step_ok.
Qed.

Lemma group_states_perm sts groups :
  Permutation (concat (Dict.values (group_states h symbols partitions sts groups)))
              (concat (Dict.values groups) ++ sts).
Proof.
  revert groups. induction sts as [|x sts IH]; intros groups.
  - simpl. now rewrite app_nil_r.
  - rewrite group_states_cons. rewrite IH. rewrite group_step_perm.
    rewrite <- app_assoc. reflexivity.
Qed.

Lemma length_set_ge (groups : list (list Z * list ref)) k g :
  length groups <= length (Dict.set key_dec k g groups).
Proof.
  induction groups as [|[k0 g0] r IH]; simpl; [lia|].
  destruct (key_dec k k0); simpl; lia.
Qed.

Lemma group_states_length sts groups :
  length groups <= length (group_states h symbols partitions sts groups).
Proof.
  revert groups. induction sts as [|x sts IH]; intros groups; auto.
  rewrite group_states_cons. etransitivity; [|apply IH]. apply length_set_ge.
Qed.

Lemma group_states_nonempty x sts :
  1 <= length (group_states h symbols partitions (x :: sts) []).
Proof.
  rewrite group_states_cons. etransitivity; [|apply group_states_length].
  simpl. lia.
Qed.

Lemma group_states_same_key k g sts :
  (forall x, In x sts -> kf x = k) ->
  group_states h symbols partitions sts [(k, g)] = [(k, g ++ sts)].
Proof.
  revert g. induction sts as [|x sts IH]; intros g Hk.
  - simpl. now rewrite app_nil_r.
  - rewrite group_states_cons. rewrite (Hk x) by now left.
    unfold group_of. simpl. destruct (key_dec k k); [|congruence].
    rewrite IH by (intros; apply Hk; now right).
    now rewrite <- app_assoc.
Qed.

(** A single group is the entry itself, in the same order. *)
Lemma group_states_single sts k g :
  group_states h symbols partitions sts [] = [(k, g)] -> g = sts.
Proof.
  intros E.
  assert (Hok : groups_ok kf [(k, g)]).
  { rewrite <- E. apply group_states_ok. split; [constructor|intros ? ? []]. }
  pose proof (group_states_perm sts []) as Hp. rewrite E in Hp. simpl in Hp.
  rewrite app_nil_r in Hp.
  assert (Hk : forall x, In x sts -> kf x = k).
  { intros x Hx. destruct Hok as [_ Hg]. apply (Hg k g); [now left|].
    eapply Permutation_in; [symmetry; exact Hp|exact Hx]. }
  destruct sts as [|x sts].
  - discriminate E.
  - rewrite group_states_cons in E. rewrite (Hk x) in E by now left.
    unfold group_of in E. simpl in E.
    rewrite group_states_same_key in E by (intros; apply Hk; now right).
    now injection E.
Qed.
End Grouping.

(* ------------------------------------------------------------------ *)
(** ** One refinement round *)

Section Round.
Variable h : heap.
Variable symbols : list string.

Local Abbreviation split := (split_partition h symbols).
Local Abbreviation round := (refine_round h symbols).

Lemma split_empty P b : members b = [] -> split P b = [b].
Proof. intros E. unfold split_partition. now rewrite E. Qed.

Lemma split_nonempty P b x r :
  members b = x :: r ->
  split P b = map BList (Dict.values (group_states h symbols P (x :: r) [])).
Proof. intros E. unfold split_partition. now rewrite E. Qed.

Lemma all_members_map_BList (gs : list (list ref)) :
  all_members (map BList gs) = concat gs.
Proof.
  unfold all_members. induction gs as [|g gs IH]; simpl; auto. now rewrite IH.
Qed.

Lemma split_members P b : Permutation (all_members (split P b)) (members b).
Proof.
  destruct (members b) as [|x r] eqn:E.
  - rewrite split_empty by assumption. unfold all_members. simpl.
    now rewrite E.
  - rewrite (split_nonempty P b x r E). rewrite all_members_map_BList.
    apply (group_states_perm h symbols P (x :: r) []).
Qed.

Lemma all_members_app P Q : all_members (P ++ Q) = all_members P ++ all_members Q.
Proof. unfold all_members. apply flat_map_app. Qed.

Lemma flat_map_split_members P Q :
  Permutation (all_members (flat_map (split P) Q)) (all_members Q).
Proof.
  induction Q as [|b Q IH]; simpl; auto.
  rewrite all_members_app. unfold all_members at 3. simpl.
  apply Permutation_app; [apply split_members|exact IH].
Qed.

Lemma round_members P : Permutation (all_members (round P)) (all_members P).
Proof. apply flat_map_split_members. Qed.

Lemma split_length P b : 1 <= length (split P b).
Proof.
  destruct (members b) as [|x r] eqn:E.
  - rewrite split_empty by assumption. simpl. lia.
  - rewrite (split_nonempty P b x r E). rewrite length_map. unfold Dict.values.
    rewrite length_map. apply group_states_nonempty.
Qed.

Lemma flat_map_split_length P Q : length Q <= length (flat_map (split P) Q).
Proof.
  induction Q as [|b Q IH]; simpl; auto.
  rewrite length_app. pose proof (split_length P b). lia.
Qed.

Lemma round_length P : length P <= length (round P).
Proof. apply flat_map_split_length. Qed.

(** What a round produces from one entry: the entry itself when it is
    empty, else non-empty lists of states that agree on their key and come
    from that entry. *)
Lemma split_blocks P b b' :
  In b' (split P b) ->
  (members b = [] /\ b' = b) \/
  (exists l, b' = BList l /\ l <> [] /\
             (forall x, In x l -> In x (members b)) /\
             uniform (transition_key h symbols P) b').
Proof.
  destruct (members b) as [|x r] eqn:E.
  - rewrite split_empty by assumption. intros [<-|[]]. auto.
  - rewrite (split_nonempty P b x r E). intros Hin. right.
    apply in_map_iff in Hin. destruct Hin as [l [<- Hl]].
    apply DictFacts.In_values in Hl. destruct Hl as [k Hl].
    pose proof (group_states_ok h symbols P (x :: r) []) as Hok.
    destruct Hok as [_ Hg]; [split; [constructor|intros ? ? []]|].
    destruct (Hg k l Hl) as [Hne Hk].
    exists l. repeat split; auto.
    + intros y Hy.
      eapply Permutation_in;
        [apply (group_states_perm h symbols P (x :: r) [])|].
      simpl. apply in_concat. exists l. split; auto.
      apply DictFacts.In_values. eauto.
    + intros y z Hy Hz. simpl in *. rewrite (Hk y Hy), (Hk z Hz). reflexivity.
Qed.

Lemma round_blocks P b' :
  In b' (round P) ->
  exists b, In b P /\
    ((members b = [] /\ b' = b) \/
     (exists l, b' = BList l /\ l <> [] /\
                (forall x, In x l -> In x (members b)) /\
                uniform (transition_key h symbols P) b')).
Proof.
  unfold refine_round. intros Hin. apply in_flat_map in Hin.
  destruct Hin as [b [Hb Hin]]. exists b. split; auto.
  now apply split_blocks.
Qed.

Lemma empty_entries_app P Q :
  empty_entries (P ++ Q) = empty_entries P ++ empty_entries Q.
Proof. unfold empty_entries. apply filter_app. Qed.

Lemma split_empty_entries P b :
  empty_entries (split P b) = empty_entries [b].
Proof.
  destruct (members b) as [|x r] eqn:E.
  - now rewrite split_empty.
  - unfold empty_entries at 2. simpl. rewrite E. simpl.
    unfold empty_entries.
    assert (Hall : forall b', In b' (split P b) -> is_nil (members b') = false).
    { intros b' Hin. apply split_blocks in Hin.
      destruct Hin as [[E' _]|[l [-> [Hne _]]]]; [congruence|].
      simpl. destruct l; [congruence|reflexivity]. }
    induction (split P b) as [|b' L IH]; simpl; auto.
    rewrite (Hall b') by now left. apply IH. intros; apply Hall; now right.
Qed.

Lemma flat_map_split_empty_entries P Q :
  empty_entries (flat_map (split P) Q) = empty_entries Q.
Proof.
  induction Q as [|b Q IH]; simpl; auto.
  rewrite empty_entries_app, IH, split_empty_entries.
  unfold empty_entries. simpl. destruct (is_nil (members b)); reflexivity.
Qed.

(** A round carries the empty entries over, and adds none. *)
Lemma round_empty_entries P : empty_entries (round P) = empty_entries P.
Proof. apply flat_map_split_empty_entries. Qed.

Lemma round_settled P : settled (round P).
Proof.
  intros b' Hin. apply round_blocks in Hin.
  destruct Hin as [b [_ [[E ->]|[l [-> _]]]]]; eauto.
Qed.

Lemma partitions_eqb_length A B : partitions_eqb A B = true -> length A = length B.
Proof.
  revert B. induction A as [|a A IH]; intros [|b B]; simpl; try discriminate; auto.
  intros H. apply andb_true_iff in H. destruct H as [_ H]. f_equal. auto.
Qed.

Lemma block_eqb_refl_settled b :
  (members b = [] \/ exists l, b = BList l) -> block_eqb b b = true.
Proof.
  intros [E|[l ->]].
  - destruct b as [l|l]; simpl in *; subst; simpl; auto.
  - simpl. destruct (list_eq_dec Nat.eq_dec l l); congruence.
Qed.

(** On a settled list, a round that adds no entry changes nothing. *)
Lemma flat_map_split_fixed P Q :
  settled Q ->
  length (flat_map (split P) Q) = length Q ->
  partitions_eqb (flat_map (split P) Q) Q = true.
Proof.
  induction Q as [|b Q IH]; intros Hs Hlen; simpl in *; auto.
  rewrite length_app in Hlen.
  pose proof (split_length P b) as H1.
  pose proof (flat_map_split_length P Q) as H2.
  assert (Hb : length (split P b) = 1) by lia.
  assert (HQ : length (flat_map (split P) Q) = length Q) by lia.
  assert (Hsb : members b = [] \/ exists l, b = BList l) by (apply Hs; now left).
  assert (E : split P b = [b]).
  { destruct (members b) as [|x r] eqn:Em.
    - now rewrite split_empty.
    - destruct Hsb as [?|[l ->]]; [discriminate|]. simpl in Em. subst l.
      rewrite (split_nonempty P (BList (x :: r)) x r eq_refl) in *.
      rewrite length_map in Hb. unfold Dict.values in *. rewrite length_map in Hb.
      destruct (group_states h symbols P (x :: r) []) as [|[k g] [|? ?]] eqn:Eg;
        simpl in Hb; try lia.
      apply group_states_single in Eg. subst g. reflexivity. }
  rewrite E. simpl. rewrite block_eqb_refl_settled by assumption. simpl.
  apply IH; auto. intros b' Hb'. apply Hs. now right.
Qed.

Lemma round_fixed_or_grows P :
  settled P ->
  partitions_eqb (round P) P = true \/ length P < length (round P).
Proof.
  intros Hs. pose proof (round_length P) as Hle.
  destruct (Nat.eq_dec (length (round P)) (length P)) as [E|Hne].
  - left. now apply flat_map_split_fixed.
  - right. lia.
Qed.
End Round.

(* ------------------------------------------------------------------ *)
(** ** The [while] loop *)

Section Loop.
Variable h : heap.
Variable symbols : list string.

Local Abbreviation round := (refine_round h symbols).
Local Abbreviation loop := (refine_loop h symbols).

Lemma refine_loop_more_fuel fuel P N R :
  loop fuel P N = Some R ->
  forall fuel', fuel <= fuel' -> loop fuel' P N = Some R.
Proof.
  revert P N. induction fuel as [|fuel IH]; intros P N; simpl; [discriminate|].
  intros H [|fuel'] Hle; [lia|]. simpl.
  destruct (partitions_eqb N P); auto. apply IH; auto. lia.
Qed.

Lemma refine_loop_start fuel P0 b :
  loop (S fuel) (b :: P0) [] = loop fuel (b :: P0) (round (b :: P0)).
Proof. reflexivity. Qed.

Lemma refine_loop_step fuel P :
  loop (S fuel) P (round P)
  = if partitions_eqb (round P) P then Some (round P)
    else loop fuel (round P) (round (round P)).
Proof.
  simpl. destruct (partitions_eqb (round P) P) eqn:E; auto.
  destruct (round P) as [|b N] eqn:EN; auto.
  pose proof (round_length h symbols P) as Hle. rewrite EN in Hle.
  destruct P; simpl in *; [discriminate|lia].
Qed.

(** Whatever the loop returns is the outcome of a round that changed
    nothing, applied to a list every round invariant holds of. *)
Lemma refine_loop_result (I : list Block -> Prop) :
  (forall P, I P -> I (round P)) ->
  forall fuel P R,
    I P -> loop fuel P (round P) = Some R ->
    exists P', I P' /\ R = round P' /\ partitions_eqb R P' = true.
Proof.
  intros Hround. induction fuel as [|fuel IH]; intros P R HI; [discriminate|].
  rewrite refine_loop_step.
  destruct (partitions_eqb (round P) P) eqn:E.
  - intros H. injection H as <-. eauto.
  - intros H. apply (IH (round P)); auto.
Qed.

(** Whatever the loop returns is the first iterate of the round that the
    next round leaves unchanged; a loop that returns from [fuel] tests has
    run fewer rounds than that. *)
Lemma refine_loop_iterate fuel :
  forall P R,
    loop fuel P (round P) = Some R ->
    exists n,
      n < fuel /\
      R = Nat.iter (S n) round P /\
      partitions_eqb (Nat.iter (S n) round P) (Nat.iter n round P) = true /\
      (forall m, m < n ->
                 partitions_eqb (Nat.iter (S m) round P) (Nat.iter m round P)
                 = false).
Proof.
  induction fuel as [|fuel IH]; intros P R; [discriminate|].
  rewrite refine_loop_step.
  destruct (partitions_eqb (round P) P) eqn:E.
  - intros H. injection H as <-. exists 0. simpl.
    split; [lia|]. split; [reflexivity|]. split; [exact E|].
    intros m Hm. lia.
  - intros H. destruct (IH _ _ H) as (n & Hn & HR & Hfix & Hmin).
    assert (Hshift : forall k, Nat.iter k round (round P) = Nat.iter (S k) round P)
      by (intros k; symmetry; apply Nat.iter_succ_r).
    rewrite (Hshift (S n)) in HR, Hfix. rewrite (Hshift n) in Hfix.
    exists (S n). split; [lia|].
    split; [exact HR|]. split; [exact Hfix|].
    intros [|m] Hm; [exact E|].
    rewrite <- (Hshift (S m)), <- (Hshift m). apply Hmin. lia.
Qed.

(** Once the list is settled, the loop stops before its length has grown
    past any bound that every round respects. *)
Lemma refine_loop_terminates (I : list Block -> Prop) (bound : nat) :
  (forall P, I P -> I (round P)) ->
  (forall P, I P -> length P <= bound) ->
  forall k P,
    I P -> settled P -> bound - length P <= k ->
    exists R, loop (S k) P (round P) = Some R.
Proof.
  intros Hround Hbound. induction k as [|k IH]; intros P HI Hs Hk;
    rewrite refine_loop_step.
  - destruct (round_fixed_or_grows h symbols P Hs) as [E|Hlt].
    + rewrite E. eauto.
    + pose proof (Hbound _ (Hround _ HI)). pose proof (Hbound _ HI). lia.
  - destruct (round_fixed_or_grows h symbols P Hs) as [E|Hlt].
    + rewrite E. eauto.
    + destruct (partitions_eqb (round P) P); eauto.
      apply IH; auto.
      * apply round_settled.
      * lia.
Qed.

Lemma length_blocks_le P : length (blocks P) <= length (all_members P).
Proof.
  unfold blocks, all_members. induction P as [|b P IH]; simpl; auto.
  rewrite length_app. destruct (members b); simpl; lia.
Qed.

Lemma length_blocks_empty P :
  length P = length (blocks P) + length (empty_entries P).
Proof.
  unfold blocks, empty_entries. induction P as [|b P IH]; simpl; auto.
  destruct (is_nil (members b)); simpl; lia.
Qed.

Lemma round_blocks_length P : length (blocks P) <= length (blocks (round P)).
Proof.
  pose proof (round_length h symbols P) as Hl.
  rewrite (length_blocks_empty P), (length_blocks_empty (round P)) in Hl.
  rewrite round_empty_entries in Hl. lia.
Qed.

Lemma partition_of_blocks_le sts P :
  partition_of sts P -> length (blocks P) <= length sts.
Proof.
  intros [Hnd Hin]. etransitivity; [apply length_blocks_le|].
  apply NoDup_incl_length; auto. intros x Hx. now apply Hin.
Qed.

Lemma round_partition_of sts P : partition_of sts P -> partition_of sts (round P).
Proof.
  intros [Hnd Hin]. pose proof (round_members h symbols P) as Hp. split.
  - eapply Permutation_NoDup; [symmetry; exact Hp|exact Hnd].
  - intros x. rewrite <- Hin. split; apply Permutation_in; auto.
    now symmetry.
Qed.

Lemma round_uniform {A} (f : ref -> A) P :
  (forall b, In b P -> uniform f b) ->
  forall b, In b (round P) -> uniform f b.
Proof.
  intros HU b' Hin. apply round_blocks in Hin.
  destruct Hin as [b [Hb [[E ->]|[l [-> [_ [Hsub _]]]]]]]; auto.
  intros x y Hx Hy. simpl in *. apply (HU b Hb); auto.
Qed.
End Loop.

(* ------------------------------------------------------------------ *)
(** ** The partition lists of [minimize_dfa] *)

Lemma insertion_order_In l x : In x (insertion_order l) <-> In x l.
Proof.
  unfold insertion_order. rewrite <- in_rev, nodup_In, <- in_rev. reflexivity.
Qed.

Lemma insertion_order_NoDup l : NoDup (insertion_order l).
Proof. unfold insertion_order. apply NoDup_rev, NoDup_nodup. Qed.

Section Partitions.
Variable set_iter : list ref -> list ref.
Hypothesis set_iter_In : forall l x, In x (set_iter l) <-> In x l.
Hypothesis set_iter_NoDup : forall l, NoDup (set_iter l).
Variable v : DFAVisualizer.

Local Abbreviation h := (objs v).
Local Abbreviation symbols := (sorted (alphabet v)).
Local Abbreviation P0 := (initial_partitions set_iter v).
Local Abbreviation round := (refine_round (objs v) (sorted (alphabet v))).
Local Abbreviation Inv := (refinement_invariant set_iter v).

Lemma initial_partition_of : partition_of (state_refs v) P0.
Proof.
  unfold partition_of, initial_partitions, all_members. simpl.
  rewrite app_nil_r. split.
  - apply NoDup_app; auto.
    intros x Hx Hy. apply set_iter_In, filter_In in Hx.
    apply set_iter_In, filter_In in Hy.
    destruct Hx as [_ Hx], Hy as [_ Hy]. rewrite Hy in Hx. discriminate.
  - intros x. rewrite in_app_iff, !set_iter_In, !filter_In.
    unfold state_refs. destruct (is_accepting (deref h x)); simpl; intuition.
Qed.

Lemma initial_uniform :
  forall b, In b P0 -> uniform (fun s => is_accepting (deref h s)) b.
Proof.
  intros b [<-|[<-|[]]] x y Hx Hy; simpl in *;
    apply set_iter_In, filter_In in Hx; apply set_iter_In, filter_In in Hy;
    destruct Hx as [_ Hx], Hy as [_ Hy].
  - apply negb_true_iff in Hx, Hy. congruence.
  - congruence.
Qed.

Lemma initial_invariant : Inv P0.
Proof.
  split; [apply initial_partition_of|]. split; [apply initial_uniform|reflexivity].
Qed.

Lemma round_invariant P : Inv P -> Inv (round P).
Proof.
  intros (Hp & Hu & He). split; [now apply round_partition_of|].
  split; [now apply round_uniform|]. now rewrite round_empty_entries.
Qed.

Lemma iter_invariant n : Inv (Nat.iter n round P0).
Proof.
  induction n as [|n IH]; simpl; [apply initial_invariant|now apply round_invariant].
Qed.

Lemma invariant_length P : Inv P -> length P <= length (state_refs v) + 2.
Proof.
  intros (Hp & _ & He). rewrite length_blocks_empty, He.
  pose proof (partition_of_blocks_le _ _ Hp).
  assert (length (empty_entries P0) <= 2); [|lia].
  unfold empty_entries. etransitivity; [apply filter_length_le|]. simpl. lia.
Qed.

(** The loop returns the outcome of a round that changed nothing. *)
Lemma final_partitions_fixed fuel R :
  final_partitions set_iter fuel v = Some R ->
  exists P, Inv P /\ R = round P /\ partitions_eqb R P = true.
Proof.
  unfold final_partitions. destruct fuel as [|fuel]; [discriminate|].
  unfold initial_partitions at 1. rewrite refine_loop_start.
  apply (refine_loop_result (objs v) (sorted (alphabet v)) Inv);
    [apply round_invariant|apply initial_invariant].
Qed.

(** The loop stops, within a number of tests the number of states fixes. *)
Lemma final_partitions_total :
  exists R, forall fuel,
      length (state_refs v) + 4 <= fuel ->
      final_partitions set_iter fuel v = Some R.
Proof.
  assert (H : exists R, final_partitions set_iter (length (state_refs v) + 4) v = Some R).
  { unfold final_partitions.
    replace (length (state_refs v) + 4) with (S (S (S (S (length (state_refs v))))))
      by lia.
    unfold initial_partitions at 1. rewrite refine_loop_start.
    fold (initial_partitions set_iter v).
    rewrite refine_loop_step.
    destruct (partitions_eqb (round P0) P0); eauto.
    apply (refine_loop_terminates (objs v) (sorted (alphabet v)) Inv
             (length (state_refs v) + 2)).
    - apply round_invariant.
    - apply invariant_length.
    - apply round_invariant, initial_invariant.
    - apply round_settled.
    - pose proof (round_length (objs v) (sorted (alphabet v)) P0) as Hl.
      simpl in Hl. simpl. lia. }
  destruct H as [R H]. exists R. intros fuel Hle.
  eapply refine_loop_more_fuel; eauto.
Qed.

(** The list the loop returns, as an iterate of the round on the initial
    partition list. *)
Lemma final_partitions_iterate fuel R :
  final_partitions set_iter fuel v = Some R ->
  exists n,
    n + 2 <= fuel /\
    R = Nat.iter (S n) round P0 /\
    partitions_eqb (Nat.iter (S n) round P0) (Nat.iter n round P0) = true /\
    (forall m, m < n ->
               partitions_eqb (Nat.iter (S m) round P0) (Nat.iter m round P0)
               = false).
Proof.
  unfold final_partitions. destruct fuel as [|fuel]; [discriminate|].
  unfold initial_partitions at 1. rewrite refine_loop_start.
  fold (initial_partitions set_iter v). intros H.
  destruct (refine_loop_iterate (objs v) (sorted (alphabet v)) fuel _ _ H)
    as (n & Hn & HR & Hfix & Hmin).
  exists n. split; [lia|]. auto.
Qed.

(** C9: the partition-refinement loop of [minimize_dfa] stops: from
    [len(self.states) + 4] loop tests on, the fuel is never exhausted and the
    partition list the loop leaves behind is the same.  What it leaves
    behind is the initial partition list [[non_accepting, accepting]] taken
    through [n + 1] refinement rounds, where round [n + 1] is the first one
    that changes nothing (every earlier round changed the list), and
    [n + 1] is at most [len(self.states) + 3]; the list keeps the
    invariant of the refinement (a partition of the states into entries
    uniform in acceptance).  It stops because a round never lowers the
    number of blocks (the non-empty entries of the partition list) nor the
    length of the list, and the number of blocks after any number of rounds
    is at most the number of states. *)
Theorem C9_refinement_loop_terminates :
  (exists R, forall fuel,
      length (state_refs v) + 4 <= fuel ->
      final_partitions set_iter fuel v = Some R) /\
  (forall fuel R,
      final_partitions set_iter fuel v = Some R ->
      exists n,
        n + 2 <= fuel /\ n <= length (state_refs v) + 2 /\
        R = Nat.iter (S n) round P0 /\
        partitions_eqb (Nat.iter (S n) round P0) (Nat.iter n round P0) = true /\
        (forall m, m < n ->
                   partitions_eqb (Nat.iter (S m) round P0) (Nat.iter m round P0)
                   = false) /\
        Inv R) /\
  (forall P, length (blocks P) <= length (blocks (round P)) /\
             length P <= length (round P)) /\
  (forall n, length (blocks (Nat.iter n round P0)) <= length (state_refs v)).
Proof.
  split; [apply final_partitions_total|].
  split.
  { intros fuel R HR.
    destruct (final_partitions_iterate fuel R HR) as (n & Hn & HRn & Hfix & Hmin).
    exists n. split; [exact Hn|]. split.
    - destruct final_partitions_total as [R' HR'].
      destruct (final_partitions_iterate _ R' (HR' _ (Nat.le_refl _)))
        as (n' & Hn' & _ & Hfix' & Hmin').
      destruct (Nat.lt_trichotomy n n') as [Hlt|[->|Hgt]]; [|lia|].
      + rewrite (Hmin' n Hlt) in Hfix. discriminate.
      + rewrite (Hmin n' Hgt) in Hfix'. discriminate.
    - split; [exact HRn|]. split; [exact Hfix|]. split; [exact Hmin|].
      rewrite HRn. apply (iter_invariant (S n)). }
  split; [intros P; split; [apply round_blocks_length|apply round_length]|].
  intros n. destruct (iter_invariant n) as (Hp & _).
  now apply partition_of_blocks_le.
Qed.
End Partitions.

Lemma C9_refinement_loop_terminates_witness :
  (exists R, forall fuel,
      length (state_refs scenario_A) + 4 <= fuel ->
      final_partitions insertion_order fuel scenario_A = Some R) /\
  (forall fuel R,
      final_partitions insertion_order fuel scenario_A = Some R ->
      exists n,
        n + 2 <= fuel /\ n <= length (state_refs scenario_A) + 2 /\
        R = Nat.iter (S n)
              (refine_round (objs scenario_A) (sorted (alphabet scenario_A)))
              (initial_partitions insertion_order scenario_A) /\
        partitions_eqb
          (Nat.iter (S n)
             (refine_round (objs scenario_A) (sorted (alphabet scenario_A)))
             (initial_partitions insertion_order scenario_A))
          (Nat.iter n
             (refine_round (objs scenario_A) (sorted (alphabet scenario_A)))
             (initial_partitions insertion_order scenario_A)) = true /\
        (forall m, m < n ->
           partitions_eqb
             (Nat.iter (S m)
                (refine_round (objs scenario_A) (sorted (alphabet scenario_A)))
                (initial_partitions insertion_order scenario_A))
             (Nat.iter m
                (refine_round (objs scenario_A) (sorted (alphabet scenario_A)))
                (initial_partitions insertion_order scenario_A)) = false) /\
        refinement_invariant insertion_order scenario_A R) /\
  (forall P, length (blocks P)
             <= length (blocks (refine_round (objs scenario_A)
                                  (sorted (alphabet scenario_A)) P)) /\
             length P
             <= length (refine_round (objs scenario_A)
                          (sorted (alphabet scenario_A)) P)) /\
  (forall n, length (blocks (Nat.iter n
                               (refine_round (objs scenario_A)
                                  (sorted (alphabet scenario_A)))
                               (initial_partitions insertion_order scenario_A)))
             <= length (state_refs scenario_A)).
Proof.
  apply (C9_refinement_loop_terminates insertion_order
           insertion_order_In insertion_order_NoDup scenario_A).
Defined.

(** C8, as the code has it: the initial partition list always has two
    entries, the set of non-accepting states and the set of accepting
    states, and an empty one is kept.  A round carries every empty entry
    over and adds none, so the list the loop returns has exactly the empty
    entries of the initial list. *)
Theorem C8_empty_entries_are_kept (set_iter : list ref -> list ref)
    (v : DFAVisualizer) :
  initial_partitions set_iter v
  = [ BSet (set_iter (filter (fun s => negb (is_accepting (deref (objs v) s)))
                        (state_refs v)));
      BSet (set_iter (filter (fun s => is_accepting (deref (objs v) s))
                        (state_refs v))) ] /\
  (forall P, empty_entries (refine_round (objs v) (sorted (alphabet v)) P)
             = empty_entries P) /\
  (forall fuel R,
      final_partitions set_iter fuel v = Some R ->
      empty_entries R = empty_entries (initial_partitions set_iter v)).
Proof.
  split; [reflexivity|]. split; [apply round_empty_entries|].
  intros fuel R. unfold final_partitions.
  destruct fuel as [|fuel]; [discriminate|].
  unfold initial_partitions at 1. rewrite refine_loop_start.
  fold (initial_partitions set_iter v). intros H.
  apply (refine_loop_result (objs v) (sorted (alphabet v))
           (fun P => empty_entries P = empty_entries (initial_partitions set_iter v)))
    in H.
  - destruct H as (P & HP & -> & _). now rewrite round_empty_entries.
  - intros P HP. now rewrite round_empty_entries.
  - reflexivity.
Qed.

Lemma C8_empty_entries_are_kept_witness :
  empty_entries [BList [0]; BSet []]
  = empty_entries (initial_partitions insertion_order initial_visualizer).
Proof.
  apply (C8_empty_entries_are_kept insertion_order initial_visualizer) with (fuel := 3).
  reflexivity.
Defined.

(** C8 fails as stated: for the visualizer as [__init__] leaves it (the
    non-accepting state "START" alone), the initial partition list holds
    the empty set of accepting states, and so does the list the loop
    returns. *)
Lemma C8_counterexample :
  initial_partitions insertion_order initial_visualizer = [BSet [0]; BSet []] /\
  final_partitions insertion_order 3 initial_visualizer = Some [BList [0]; BSet []] /\
  In (BSet []) (initial_partitions insertion_order initial_visualizer) /\
  members (BSet []) = [].
Proof. vm_compute. repeat split; auto. Qed.

(* ------------------------------------------------------------------ *)
(** ** Creating the minimized states *)

Lemma create_minimized_skip b rest i acc :
  members b = [] ->
  create_minimized (b :: rest) i acc = create_minimized rest (S i) acc.
Proof. intros E. simpl. now rewrite E. Qed.

Lemma create_minimized_cons b rest i acc :
  members b <> [] ->
  create_minimized (b :: rest) i acc
  = create_minimized rest (S i) (create_one b i acc).
Proof.
  intros E. simpl. destruct (members b) eqn:Em; [congruence|]. simpl.
  unfold create_one, block_name, block_accepting, register. rewrite Em.
  reflexivity.
Qed.

Lemma get_register_in sts m o2m x :
  In x sts -> Dict.get Nat.eq_dec x (register sts m o2m) = Some m.
Proof.
  unfold register. revert o2m. induction sts as [|y sts IH]; intros o2m; simpl; [tauto|].
  intros [->|Hin]; auto.
  destruct (in_dec Nat.eq_dec x sts) as [Hin|Hnin]; auto.
  clear IH. revert o2m.
  assert (G : forall d, Dict.get Nat.eq_dec x d = Some m ->
                        Dict.get Nat.eq_dec x
                          (fold_left (fun d o => Dict.set Nat.eq_dec o m d) sts d)
                        = Some m).
  { induction sts as [|z sts IH]; intros d Hd; simpl; auto.
    apply IH; [intros H; apply Hnin; now right|].
    rewrite DictFacts.get_set. destruct (Nat.eq_dec z x); auto. }
  intros o2m. apply G. apply DictFacts.get_set_same.
Qed.

Lemma get_register_out sts m o2m x :
  ~ In x sts -> Dict.get Nat.eq_dec x (register sts m o2m) = Dict.get Nat.eq_dec x o2m.
Proof.
  unfold register. revert o2m. induction sts as [|y sts IH]; intros o2m Hnin; simpl; auto.
  rewrite IH by (intros H; apply Hnin; now right).
  apply DictFacts.get_set_other. intros ->. apply Hnin. now left.
Qed.

Section Creation.
(** The store [minimize_dfa] starts from. *)
Variable h0 : heap.

Lemma block_name_ext hp b :
  (exists news, hp = h0 ++ news) ->
  (forall x, In x (members b) -> x < length h0) ->
  block_name hp b = block_name h0 b.
Proof.
  intros [news ->] Hlt. unfold block_name. do 2 f_equal.
  apply map_ext_in. intros x Hx. now rewrite deref_app_old by auto.
Qed.

Lemma block_accepting_ext hp b :
  (exists news, hp = h0 ++ news) ->
  (forall x, In x (members b) -> x < length h0) ->
  block_accepting hp b = block_accepting h0 b.
Proof.
  intros [news ->] Hlt. unfold block_accepting.
  induction (members b) as [|x l IH]; simpl; auto.
  rewrite deref_app_old by (apply Hlt; now left).
  rewrite IH; auto. intros y Hy. apply Hlt. now right.
Qed.

Lemma create_minimized_objs Q i acc :
  exists news, m_objs (create_minimized Q i acc) = m_objs acc ++ news.
Proof.
  revert i acc. induction Q as [|b Q IH]; intros i acc.
  - exists []. simpl. now rewrite app_nil_r.
  - destruct (members b) as [|x r] eqn:E.
    + rewrite create_minimized_skip by assumption. apply IH.
    + rewrite create_minimized_cons by congruence.
      destruct (IH (S i) (create_one b i acc)) as [news ->]. simpl.
      rewrite <- app_assoc. eauto.
Qed.

Lemma create_minimized_keys_unique Q i acc :
  NoDup (Dict.keys (minimized_states acc)) ->
  NoDup (Dict.keys (minimized_states (create_minimized Q i acc))).
Proof.
  revert i acc. induction Q as [|b Q IH]; intros i acc Hnd; auto.
  destruct (members b) as [|x r] eqn:E.
  - rewrite create_minimized_skip by assumption. now apply IH.
  - rewrite create_minimized_cons by congruence. apply IH. simpl.
    now apply DictFacts.NoDup_keys_set.
Qed.

Lemma create_minimized_p2s_before Q i acc k :
  k < i ->
  Dict.get Nat.eq_dec k (partition_to_state (create_minimized Q i acc))
  = Dict.get Nat.eq_dec k (partition_to_state acc).
Proof.
  revert i acc. induction Q as [|b Q IH]; intros i acc Hk; auto.
  destruct (members b) as [|x r] eqn:E.
  - rewrite create_minimized_skip by assumption. apply IH. lia.
  - rewrite create_minimized_cons by congruence. rewrite IH by lia. simpl.
    apply DictFacts.get_set_other. lia.
Qed.

Lemma create_minimized_o2m_out Q i acc x :
  ~ In x (all_members Q) ->
  Dict.get Nat.eq_dec x (original_to_minimized (create_minimized Q i acc))
  = Dict.get Nat.eq_dec x (original_to_minimized acc).
Proof.
  revert i acc. induction Q as [|b Q IH]; intros i acc Hx; auto.
  unfold all_members in Hx. simpl in Hx. rewrite in_app_iff in Hx.
  destruct (members b) as [|y r] eqn:E.
  - rewrite create_minimized_skip by assumption. apply IH. tauto.
  - rewrite create_minimized_cons by congruence.
    rewrite IH by (unfold all_members; tauto). simpl.
    rewrite E. apply get_register_out. tauto.
Qed.

Lemma keys_set_mono (d : list (string * ref)) k m k' :
  In k' (Dict.keys d) -> In k' (Dict.keys (Dict.set string_dec k m d)).
Proof.
  rewrite DictFacts.keys_set. destruct (Dict.mem string_dec k d); auto.
  intros H. apply in_or_app. now left.
Qed.

Lemma create_minimized_keys_mono Q i acc k :
  In k (Dict.keys (minimized_states acc)) ->
  In k (Dict.keys (minimized_states (create_minimized Q i acc))).
Proof.
  revert i acc. induction Q as [|b Q IH]; intros i acc Hk; auto.
  destruct (members b) as [|x r] eqn:E.
  - rewrite create_minimized_skip by assumption. now apply IH.
  - rewrite create_minimized_cons by congruence. apply IH. simpl.
    now apply keys_set_mono.
Qed.
End Creation.

Lemma NoDup_app_disjoint {A} (l l' : list A) x :
  NoDup (l ++ l') -> In x l -> ~ In x l'.
Proof.
  induction l as [|a l IH]; simpl; [tauto|].
  intros Hnd [->|Hin] Hin'.
  - inversion Hnd as [|? ? Hn _]; subst. apply Hn. apply in_or_app. now right.
  - inversion Hnd; subst. now apply IH.
Qed.

Lemma all_members_cons b Q : all_members (b :: Q) = members b ++ all_members Q.
Proof. reflexivity. Qed.

Section CreatedBlocks.
Variable h0 : heap.

Lemma create_one_objs b i acc :
  (exists news, m_objs acc = h0 ++ news) ->
  exists news, m_objs (create_one b i acc) = h0 ++ news.
Proof.
  intros [news Hh]. simpl. rewrite Hh. rewrite <- app_assoc. eauto.
Qed.

(** The minimized state of a non-empty entry: a new object, registered
    under the entry's index and for every state of the entry. *)
Lemma create_minimized_block Q :
  forall i acc j b,
    NoDup (all_members Q) ->
    (forall x, In x (all_members Q) -> x < length h0) ->
    (exists news, m_objs acc = h0 ++ news) ->
    nth_error Q j = Some b -> members b <> [] ->
    exists m,
      Dict.get Nat.eq_dec (i + j) (partition_to_state (create_minimized Q i acc))
      = Some m /\
      length (m_objs acc) <= m /\
      m < length (m_objs (create_minimized Q i acc)) /\
      deref (m_objs (create_minimized Q i acc)) m
      = mkDFAState (block_name h0 b) (block_accepting h0 b) [] /\
      In (block_name h0 b)
         (Dict.keys (minimized_states (create_minimized Q i acc))) /\
      (forall x, In x (members b) ->
                 Dict.get Nat.eq_dec x
                   (original_to_minimized (create_minimized Q i acc)) = Some m).
Proof.
  induction Q as [|b0 Q IH]; intros i acc j b Hnd Hlt Hh Hj Hb.
  - destruct j; discriminate.
  - rewrite all_members_cons in Hnd, Hlt.
    assert (HndQ : NoDup (all_members Q)) by (eapply NoDup_app_remove_l; eauto).
    assert (HltQ : forall x, In x (all_members Q) -> x < length h0)
      by (intros; apply Hlt, in_or_app; now right).
    destruct (list_eq_dec Nat.eq_dec (members b0) []) as [E|Hne].
    + rewrite create_minimized_skip by assumption.
      destruct j as [|j]; simpl in Hj; [injection Hj as Hj; subst; contradiction|].
      replace (i + S j) with (S i + j) by lia. now apply IH.
    + rewrite create_minimized_cons by assumption.
      pose proof (create_one_objs b0 i acc Hh) as Hh1.
      destruct j as [|j]; simpl in Hj.
      * injection Hj as <-. exists (length (m_objs acc)).
        destruct (create_minimized_objs Q (S i) (create_one b0 i acc)) as [news Hobjs].
        rewrite Hobjs.
        assert (Hlt0 : forall x, In x (members b0) -> x < length h0)
          by (intros x Hx; apply Hlt, in_or_app; now left).
        pose proof (block_name_ext h0 (m_objs acc) b0 Hh Hlt0) as Hbn.
        pose proof (block_accepting_ext h0 (m_objs acc) b0 Hh Hlt0) as Hba.
        split; [|split; [|split; [|split; [|split]]]].
        -- rewrite create_minimized_p2s_before by lia. simpl.
           rewrite Nat.add_0_r. apply DictFacts.get_set_same.
        -- lia.
        -- simpl. rewrite !length_app. simpl. lia.
        -- simpl. rewrite deref_app_old by (rewrite length_app; simpl; lia).
           rewrite deref_alloc_new. now rewrite Hbn, Hba.
        -- apply create_minimized_keys_mono. simpl. rewrite Hbn.
           eapply DictFacts.get_Some_key. apply DictFacts.get_set_same.
        -- intros x Hx. rewrite create_minimized_o2m_out
             by (eapply NoDup_app_disjoint; eauto).
           simpl. now apply get_register_in.
      * replace (i + S j) with (S i + j) by lia.
        destruct (IH (S i) (create_one b0 i acc) j b HndQ HltQ Hh1 Hj Hb)
          as (m & H1 & H2 & H3). exists m. split; auto. split; auto.
        simpl in H2. rewrite length_app in H2. simpl in H2. lia.
Qed.

(** Every entry of [minimized_states] is the minimized state of a
    non-empty entry of the partition list, stored under the name computed
    for it. *)
Lemma create_minimized_entries Q :
  forall i acc k m,
    (forall x, In x (all_members Q) -> x < length h0) ->
    (exists news, m_objs acc = h0 ++ news) ->
    In (k, m) (minimized_states (create_minimized Q i acc)) ->
    In (k, m) (minimized_states acc) \/
    exists j b, nth_error Q j = Some b /\ members b <> [] /\
                k = block_name h0 b /\
                Dict.get Nat.eq_dec (i + j)
                  (partition_to_state (create_minimized Q i acc)) = Some m.
Proof.
  induction Q as [|b0 Q IH]; intros i acc k m Hlt Hh Hin; auto.
  rewrite all_members_cons in Hlt.
  assert (HltQ : forall x, In x (all_members Q) -> x < length h0)
    by (intros; apply Hlt, in_or_app; now right).
  destruct (list_eq_dec Nat.eq_dec (members b0) []) as [E|Hne].
  - rewrite create_minimized_skip in * by assumption.
    destruct (IH (S i) acc k m HltQ Hh Hin) as [?|(j & b & Hj & Hb & Hk & Hg)]; auto.
    right. exists (S j), b. replace (i + S j) with (S i + j) by lia. auto.
  - rewrite create_minimized_cons in * by assumption.
    pose proof (create_one_objs b0 i acc Hh) as Hh1.
    destruct (IH (S i) (create_one b0 i acc) k m HltQ Hh1 Hin)
      as [Hin1|(j & b & Hj & Hb & Hk & Hg)].
    + simpl in Hin1. apply DictFacts.In_set in Hin1.
      destruct Hin1 as [[-> ->]|?]; auto.
      right. exists 0, b0. simpl. repeat split; auto.
      * apply (block_name_ext h0 (m_objs acc) b0); auto. intros x Hx. apply Hlt, in_or_app; now left.
      * rewrite create_minimized_p2s_before by lia. simpl.
        rewrite Nat.add_0_r. apply DictFacts.get_set_same.
    + right. exists (S j), b. replace (i + S j) with (S i + j) by lia. auto.
Qed.

(** Later entries get later objects. *)
Lemma create_minimized_increasing Q :
  forall i acc j j' b b' m m',
    NoDup (all_members Q) ->
    (forall x, In x (all_members Q) -> x < length h0) ->
    (exists news, m_objs acc = h0 ++ news) ->
    j < j' ->
    nth_error Q j = Some b -> members b <> [] ->
    nth_error Q j' = Some b' -> members b' <> [] ->
    Dict.get Nat.eq_dec (i + j) (partition_to_state (create_minimized Q i acc)) = Some m ->
    Dict.get Nat.eq_dec (i + j') (partition_to_state (create_minimized Q i acc)) = Some m' ->
    m < m'.
Proof.
  induction Q as [|b0 Q IH]; intros i acc j j' b b' m m' Hnd Hlt Hh Hjj Hj Hb Hj' Hb' Hm Hm'.
  - destruct j; discriminate.
  - rewrite all_members_cons in Hnd, Hlt.
    assert (HndQ : NoDup (all_members Q)) by (eapply NoDup_app_remove_l; eauto).
    assert (HltQ : forall x, In x (all_members Q) -> x < length h0)
      by (intros; apply Hlt, in_or_app; now right).
    destruct j' as [|j']; [lia|]. simpl in Hj'.
    replace (i + S j') with (S i + j') in Hm' by lia.
    destruct (list_eq_dec Nat.eq_dec (members b0) []) as [E|Hne].
    + rewrite create_minimized_skip in * by assumption.
      destruct j as [|j]; simpl in Hj; [injection Hj as Hj; subst; contradiction|].
      replace (i + S j) with (S i + j) in Hm by lia.
      eapply (IH (S i) acc j j'); eauto. lia.
    + rewrite create_minimized_cons in * by assumption.
      pose proof (create_one_objs b0 i acc Hh) as Hh1.
      destruct j as [|j]; simpl in Hj.
      * rewrite create_minimized_p2s_before in Hm by lia. simpl in Hm.
        rewrite Nat.add_0_r, DictFacts.get_set_same in Hm. injection Hm as <-.
        destruct (create_minimized_block Q (S i) (create_one b0 i acc) j' b'
                    HndQ HltQ Hh1 Hj' Hb') as (m'' & H1 & H2 & _).
        rewrite H1 in Hm'. injection Hm' as <-.
        simpl in H2. rewrite length_app in H2. simpl in H2. lia.
      * replace (i + S j) with (S i + j) in Hm by lia.
        eapply (IH (S i) (create_one b0 i acc) j j'); eauto. lia.
Qed.
End CreatedBlocks.

(* ------------------------------------------------------------------ *)
(** ** Defining the transitions of the minimized states *)

Lemma get_mapped o2m items :
  NoDup (Dict.keys items) ->
  forall d symbol,
    Dict.get string_dec symbol (mapped o2m items d)
    = match Dict.get string_dec symbol items with
      | Some t =>
          match Dict.get Nat.eq_dec t o2m with
          | Some m => Some m
          | None => Dict.get string_dec symbol d
          end
      | None => Dict.get string_dec symbol d
      end.
Proof.
  induction items as [|[a0 t0] rest IH]; intros Hnd d symbol; simpl; auto.
  inversion Hnd as [|? ? Hn Hnd']; subst.
  assert (Hrest : Dict.get string_dec a0 rest = None)
    by (now apply DictFacts.get_None).
  destruct (Dict.get Nat.eq_dec t0 o2m) as [m0|] eqn:E0;
    rewrite IH by assumption;
    destruct (string_dec symbol a0) as [->|Hne]; rewrite ?E0.
  - rewrite Hrest. apply DictFacts.get_set_same.
  - rewrite DictFacts.get_set_other by congruence. reflexivity.
  - now rewrite Hrest.
  - reflexivity.
Qed.

(** [copy_transitions] rewrites the transitions of the one object [m]. *)
Lemma copy_transitions_spec o2m m items :
  forall hp,
    m < length hp ->
    length (copy_transitions items m o2m hp) = length hp /\
    (forall r, r <> m -> deref (copy_transitions items m o2m hp) r = deref hp r) /\
    deref (copy_transitions items m o2m hp) m
    = set_transitions (mapped o2m items (transitions (deref hp m))) (deref hp m).
Proof.
  induction items as [|[a t] rest IH]; intros hp Hm; simpl.
  - repeat split; auto. destruct (deref hp m); reflexivity.
  - destruct (Dict.get Nat.eq_dec t o2m) as [nm|] eqn:E; [|now apply IH].
    destruct (IH (update hp m (add_transition a nm))) as (Hl & Hf & Hs);
      [now rewrite length_update|].
    rewrite length_update in Hl. split; [exact Hl|]. split.
    + intros r Hr. rewrite Hf by assumption. now apply deref_update_other.
    + rewrite Hs, deref_update_same by assumption. reflexivity.
Qed.

Section Transitions.
Variable n0 : nat.
Variable p2s : list (nat * ref).
Variable o2m : list (ref * ref).

Lemma define_transitions_skip b rest i hp :
  members b = [] ->
  define_transitions (b :: rest) i p2s o2m hp = define_transitions rest (S i) p2s o2m hp.
Proof. intros E. simpl. now rewrite E. Qed.

Lemma define_transitions_cons b rest i hp m :
  members b <> [] ->
  Dict.get Nat.eq_dec i p2s = Some m ->
  define_transitions (b :: rest) i p2s o2m hp
  = define_transitions rest (S i) p2s o2m
      (copy_transitions (transitions (deref hp (hd 0 (members b)))) m o2m hp).
Proof.
  intros E Hm. simpl. destruct (members b) eqn:Em; [congruence|]. now rewrite Hm.
Qed.

Lemma define_transitions_spec Q :
  forall i hp,
    n0 <= length hp ->
    (forall x, In x (all_members Q) -> x < n0) ->
    (forall j b, nth_error Q j = Some b -> members b <> [] ->
                 exists m, Dict.get Nat.eq_dec (i + j) p2s = Some m /\
                           n0 <= m /\ m < length hp) ->
    (forall j j' b b' m,
        nth_error Q j = Some b -> members b <> [] ->
        nth_error Q j' = Some b' -> members b' <> [] ->
        Dict.get Nat.eq_dec (i + j) p2s = Some m ->
        Dict.get Nat.eq_dec (i + j') p2s = Some m -> j = j') ->
    exists hp',
      define_transitions Q i p2s o2m hp = Some hp' /\
      length hp' = length hp /\
      (forall r,
          (forall j b, nth_error Q j = Some b -> members b <> [] ->
                       Dict.get Nat.eq_dec (i + j) p2s <> Some r) ->
          deref hp' r = deref hp r) /\
      (forall j b m,
          nth_error Q j = Some b -> members b <> [] ->
          Dict.get Nat.eq_dec (i + j) p2s = Some m ->
          deref hp' m
          = set_transitions
              (mapped o2m (transitions (deref hp (hd 0 (members b))))
                 (transitions (deref hp m)))
              (deref hp m)).
Proof.
  induction Q as [|b0 Q IH]; intros i hp Hn Hlt Hm Hinj.
  - exists hp. simpl. repeat split; auto.
    intros j b m Hj. destruct j; discriminate.
  - rewrite all_members_cons in Hlt.
    assert (HltQ : forall x, In x (all_members Q) -> x < n0)
      by (intros; apply Hlt, in_or_app; now right).
    assert (HmQ : forall hp1 : heap, length hp1 = length hp ->
               forall j b, nth_error Q j = Some b -> members b <> [] ->
                 exists m, Dict.get Nat.eq_dec (S i + j) p2s = Some m /\
                           n0 <= m /\ m < length hp1).
    { intros hp1 El j b Hj Hb. rewrite El.
      replace (S i + j) with (i + S j) by lia. now apply (Hm (S j) b). }
    assert (HinjQ : forall j j' b b' m,
               nth_error Q j = Some b -> members b <> [] ->
               nth_error Q j' = Some b' -> members b' <> [] ->
               Dict.get Nat.eq_dec (S i + j) p2s = Some m ->
               Dict.get Nat.eq_dec (S i + j') p2s = Some m -> j = j').
    { intros j j' b b' m Hj Hb Hj' Hb' H1 H2.
      replace (S i + j) with (i + S j) in H1 by lia.
      replace (S i + j') with (i + S j') in H2 by lia.
      pose proof (Hinj (S j) (S j') b b' m Hj Hb Hj' Hb' H1 H2). lia. }
    destruct (list_eq_dec Nat.eq_dec (members b0) []) as [E|Hne].
    + rewrite define_transitions_skip by assumption.
      destruct (IH (S i) hp Hn HltQ (HmQ hp eq_refl) HinjQ) as (hp' & Hd & Hl & Hf & Hb).
      exists hp'. split; [exact Hd|]. split; [exact Hl|]. split.
      * intros r Hr. apply Hf. intros j b Hj Hbne.
        replace (S i + j) with (i + S j) by lia. now apply (Hr (S j) b).
      * intros j b m Hj Hbne Hg.
        destruct j as [|j]; simpl in Hj; [injection Hj as Hj; subst; contradiction|].
        apply (Hb j b m); auto. now replace (S i + j) with (i + S j) by lia.
    + destruct (Hm 0 b0 eq_refl Hne) as (m0 & Hm0 & Hm0n & Hm0l).
      rewrite Nat.add_0_r in Hm0.
      rewrite (define_transitions_cons b0 Q i hp m0 Hne Hm0).
      set (items := transitions (deref hp (hd 0 (members b0)))).
      destruct (copy_transitions_spec o2m m0 items hp Hm0l) as (Hcl & Hcf & Hcs).
      set (hp1 := copy_transitions items m0 o2m hp) in *.
      destruct (IH (S i) hp1 ltac:(lia) HltQ (HmQ hp1 Hcl) HinjQ)
        as (hp' & Hd & Hl & Hf & Hb).
      exists hp'. split; [exact Hd|]. split; [lia|]. split.
      * intros r Hr. rewrite Hf.
        -- apply Hcf. intros ->. apply (Hr 0 b0 eq_refl Hne).
           now rewrite Nat.add_0_r.
        -- intros j b Hj Hbne.
           replace (S i + j) with (i + S j) by lia. now apply (Hr (S j) b).
      * intros j b m Hj Hbne Hg. destruct j as [|j]; simpl in Hj.
        -- injection Hj as <-. rewrite Nat.add_0_r, Hm0 in Hg. injection Hg as <-.
           rewrite Hf; [exact Hcs|].
           intros j b Hj Hbne' Hg.
           replace (S i + j) with (i + S j) in Hg by lia.
           pose proof (Hinj 0 (S j) b0 b m0 eq_refl Hne Hj Hbne') as Hc.
           rewrite Nat.add_0_r in Hc. specialize (Hc Hm0 Hg). discriminate.
        -- replace (i + S j) with (S i + j) in Hg by lia.
           rewrite (Hb j b m Hj Hbne Hg).
           assert (Hmm : m <> m0).
           { intros ->. replace (S i + j) with (i + S j) in Hg by lia.
             pose proof (Hinj 0 (S j) b0 b m0 eq_refl Hne Hj Hbne) as Hc.
             rewrite Nat.add_0_r in Hc. specialize (Hc Hm0 Hg). discriminate. }
           assert (Hrep : hd 0 (members b) <> m0).
           { assert (In (hd 0 (members b)) (all_members Q)).
             { unfold all_members. apply in_flat_map. exists b.
               split; [eapply nth_error_In; eauto|].
               destruct (members b); [congruence|now left]. }
             apply HltQ in H. lia. }
           rewrite !Hcf by assumption. reflexivity.
Qed.
End Transitions.

(* ------------------------------------------------------------------ *)
(** ** The construction as a whole *)

Lemma build_minimized_spec v P :
  (forall r, In r (state_refs v) -> r < length (objs v)) ->
  partition_of (state_refs v) P ->
  exists b, build_minimized v P = Some b /\ minimized_for v P b.
Proof.
  intros Hrefs [Hnd Hin].
  assert (Hlt : forall x, In x (all_members P) -> x < length (objs v))
    by (intros x Hx; apply Hrefs, Hin, Hx).
  set (init := mkMinimized (objs v) [] [] []).
  assert (Hinit : exists news, m_objs init = objs v ++ news)
    by (exists []; simpl; now rewrite app_nil_r).
  set (acc := create_minimized P 0 init).
  destruct (create_minimized_objs P 0 init) as [news Hobjs]. fold acc in Hobjs.
  simpl in Hobjs.
  pose proof (create_minimized_block (objs v) P 0 init) as Hblock.
  pose proof (create_minimized_increasing (objs v) P 0 init) as Hincr.
  pose proof (create_minimized_entries (objs v) P 0 init) as Hentries.
  fold acc in Hblock, Hincr, Hentries. simpl in Hblock, Hincr, Hentries.
  assert (Hinj : forall j j' blk blk' m,
             nth_error P j = Some blk -> members blk <> [] ->
             nth_error P j' = Some blk' -> members blk' <> [] ->
             Dict.get Nat.eq_dec j (partition_to_state acc) = Some m ->
             Dict.get Nat.eq_dec j' (partition_to_state acc) = Some m -> j = j').
  { intros j j' blk blk' m Hj Hb Hj' Hb' Hm Hm'.
    destruct (Nat.lt_trichotomy j j') as [Hl|[?|Hl]]; auto.
    - pose proof (Hincr j j' blk blk' m m Hnd Hlt Hinit Hl Hj Hb Hj' Hb' Hm Hm'). lia.
    - pose proof (Hincr j' j blk' blk m m Hnd Hlt Hinit Hl Hj' Hb' Hj Hb Hm' Hm). lia. }
  destruct (define_transitions_spec (length (objs v)) (partition_to_state acc)
              (original_to_minimized acc) P 0 (m_objs acc))
    as (hp' & Hd & Hl & Hf & Hb).
  { rewrite Hobjs, length_app. lia. }
  { exact Hlt. }
  { intros j blk Hj Hbne.
    destruct (Hblock j blk Hnd Hlt Hinit Hj Hbne) as (m & H1 & H2 & H3 & _).
    exists m. auto. }
  { exact Hinj. }
  unfold build_minimized. fold init. fold acc. rewrite Hd.
  eexists. split; [reflexivity|].
  unfold minimized_for. simpl.
  split; [rewrite Hl, Hobjs, length_app; lia|].
  split.
  { intros r Hr. rewrite Hf.
    - rewrite Hobjs. now apply deref_app_old.
    - intros j blk Hj Hbne Hg.
      destruct (Hblock j blk Hnd Hlt Hinit Hj Hbne) as (m & H1 & H2 & _).
      simpl in Hg. rewrite H1 in Hg. injection Hg as <-. lia. }
  split; [apply create_minimized_keys_unique; constructor|].
  split.
  { intros j blk Hj Hbne.
    destruct (Hblock j blk Hnd Hlt Hinit Hj Hbne) as (m & H1 & H2 & H3 & H4 & H5 & H6).
    exists m. split; [exact H1|]. split; [exact H2|]. split; [lia|].
    split; [|split; [exact H5|exact H6]].
    rewrite (Hb j blk m Hj Hbne H1). rewrite H4. unfold set_transitions. simpl.
    f_equal. f_equal. f_equal.
    rewrite Hobjs. apply deref_app_old. apply Hlt.
    unfold all_members. apply in_flat_map. exists blk.
    split; [eapply nth_error_In; eauto|].
    destruct (members blk); [congruence|now left]. }
  split; [exact Hinj|].
  intros k m Hkm. destruct (Hentries k m Hlt Hinit Hkm) as [[]|H]. exact H.
Qed.

(* ------------------------------------------------------------------ *)
(** ** What the final partition list says about transitions *)

Lemma insert_sorted_In s l x : In x (insert_sorted s l) <-> x = s \/ In x l.
Proof.
  induction l as [|y l IH]; simpl.
  - intuition.
  - destruct (String.leb s y); simpl; [intuition|]. rewrite IH. intuition.
Qed.

Lemma sorted_In l x : In x (sorted l) <-> In x l.
Proof.
  unfold sorted. induction l as [|y l IH]; simpl; [tauto|].
  rewrite insert_sorted_In, IH. intuition.
Qed.

Lemma insert_sorted_length s l : length (insert_sorted s l) = S (length l).
Proof.
  induction l as [|y l IH]; simpl; auto.
  destruct (String.leb s y); simpl; auto.
Qed.

Lemma sorted_length l : length (sorted l) = length l.
Proof.
  unfold sorted. induction l as [|y l IH]; simpl; auto.
  now rewrite insert_sorted_length, IH.
Qed.

Lemma alphabet_In v r symbol :
  In r (state_refs v) ->
  In symbol (Dict.keys (transitions (deref (objs v) r))) ->
  In symbol (sorted (alphabet v)).
Proof.
  intros Hr Hs. apply sorted_In. unfold alphabet. apply nodup_In.
  apply in_flat_map. exists r. auto.
Qed.

Lemma subset_memb a b t : subset a b = true -> memb t a = true -> memb t b = true.
Proof.
  unfold subset. rewrite forallb_forall. intros H Ht.
  apply H. now apply memb_In.
Qed.

Lemma block_eqb_memb a b t :
  block_eqb a b = true -> memb t (members a) = memb t (members b).
Proof.
  destruct a as [x|x], b as [y|y]; simpl; try discriminate.
  - intros H. apply andb_true_iff in H. destruct H as [H1 H2].
    destruct (memb t x) eqn:Ex, (memb t y) eqn:Ey; auto.
    + apply (subset_memb _ _ _ H1) in Ex. congruence.
    + apply (subset_memb _ _ _ H2) in Ey. congruence.
  - destruct (list_eq_dec Nat.eq_dec x y); [now subst|discriminate].
Qed.

Lemma partition_index_eqb A B :
  partitions_eqb A B = true ->
  forall t i, partition_index t A i = partition_index t B i.
Proof.
  revert B. induction A as [|a A IH]; intros [|b B]; simpl; try discriminate; auto.
  intros H t i. apply andb_true_iff in H. destruct H as [H1 H2].
  rewrite (block_eqb_memb _ _ t H1). destruct (memb t (members b)); auto.
Qed.

Lemma transition_key_eqb h symbols A B x :
  partitions_eqb A B = true ->
  transition_key h symbols A x = transition_key h symbols B x.
Proof.
  intros H. unfold transition_key. apply map_ext. intros a.
  destruct (Dict.get string_dec a (transitions (deref h x))); auto.
  now apply partition_index_eqb.
Qed.

Lemma partition_index_range t Q :
  forall i, (0 <= i)%Z ->
    partition_index t Q i = (-1)%Z \/ (i <= partition_index t Q i)%Z.
Proof.
  induction Q as [|p Q IH]; intros i Hi; simpl; auto.
  destruct (memb t (members p)); [right; lia|].
  destruct (IH (i + 1)%Z ltac:(lia)); [auto|right; lia].
Qed.

Lemma partition_index_found t Q :
  In t (all_members Q) ->
  forall i, (0 <= i)%Z -> (i <= partition_index t Q i)%Z.
Proof.
  induction Q as [|p Q IH]; intros Hin i Hi; simpl; [contradiction|].
  rewrite all_members_cons in Hin.
  destruct (memb t (members p)) eqn:E; [lia|].
  apply memb_false in E. apply in_app_or in Hin. destruct Hin as [?|Hin]; [tauto|].
  specialize (IH Hin (i + 1)%Z ltac:(lia)). lia.
Qed.

(** Two states with the same index are in the same entry. *)
Lemma partition_index_same_block t t' Q :
  In t (all_members Q) ->
  forall i, (0 <= i)%Z ->
    partition_index t Q i = partition_index t' Q i ->
    exists j b, nth_error Q j = Some b /\ In t (members b) /\ In t' (members b).
Proof.
  induction Q as [|p Q IH]; intros Hin i Hi; simpl; [contradiction|].
  rewrite all_members_cons in Hin.
  destruct (memb t (members p)) eqn:E, (memb t' (members p)) eqn:E'.
  - intros _. exists 0, p. simpl. apply memb_In in E, E'. auto.
  - intros H. destruct (partition_index_range t' Q (i + 1)%Z ltac:(lia)); lia.
  - apply memb_false in E. apply in_app_or in Hin. destruct Hin as [?|Hin]; [tauto|].
    pose proof (partition_index_found t Q Hin (i + 1)%Z ltac:(lia)). lia.
  - apply memb_false in E. apply in_app_or in Hin. destruct Hin as [?|Hin]; [tauto|].
    intros H. destruct (IH Hin (i + 1)%Z ltac:(lia) H) as (j & b & Hj & Hb).
    exists (S j), b. auto.
Qed.

Lemma map_eq_pointwise {A B} (f g : A -> B) l :
  map f l = map g l -> forall a, In a l -> f a = g a.
Proof.
  induction l as [|y l IH]; simpl; [tauto|].
  intros H a [->|Hin]; injection H; auto.
Qed.

Section Stable.
Variable v : DFAVisualizer.
Variable P : list Block.
Hypothesis Hpart : partition_of (state_refs v) P.
Hypothesis Hstable :
  forall b, In b P -> uniform (transition_key (objs v) (sorted (alphabet v)) P) b.
Hypothesis Hclosed : no_dangling v.

(** Two states of one entry of a stable partition list have transitions on
    the same symbols, into the same entries. *)
Lemma stable_delta b x y symbol :
  In b P -> In x (members b) -> In y (members b) ->
  match delta (objs v) x symbol, delta (objs v) y symbol with
  | None, None => True
  | Some t, Some t' =>
      exists j blk, nth_error P j = Some blk /\
                    In t (members blk) /\ In t' (members blk)
  | _, _ => False
  end.
Proof.
  intros Hb Hx Hy. destruct Hpart as [Hnd Hin].
  assert (HxS : In x (state_refs v)).
  { apply Hin. unfold all_members. apply in_flat_map. eauto. }
  assert (HyS : In y (state_refs v)).
  { apply Hin. unfold all_members. apply in_flat_map. eauto. }
  assert (Htarget : forall r t, In r (state_refs v) ->
             delta (objs v) r symbol = Some t -> In t (all_members P)).
  { intros r t Hr Hd. apply Hin. apply (Hclosed r symbol t Hr).
    now apply DictFacts.get_In in Hd. }
  destruct (in_dec string_dec symbol (sorted (alphabet v))) as [Hs|Hs].
  - pose proof (Hstable b Hb x y Hx Hy) as Hk. unfold transition_key in Hk.
    pose proof (map_eq_pointwise _ _ _ Hk symbol Hs) as Hk'. simpl in Hk'.
    unfold delta.
    destruct (Dict.get string_dec symbol (transitions (deref (objs v) x))) as [t|] eqn:Ex,
             (Dict.get string_dec symbol (transitions (deref (objs v) y))) as [t'|] eqn:Ey;
      auto.
    + apply (partition_index_same_block t t' P (Htarget x t HxS Ex) 0%Z);
        [lia|exact Hk'].
    + pose proof (partition_index_found t P (Htarget x t HxS Ex) 0%Z ltac:(lia)). lia.
    + pose proof (partition_index_found t' P (Htarget y t' HyS Ey) 0%Z ltac:(lia)). lia.
  - assert (Hnone : forall r, In r (state_refs v) -> delta (objs v) r symbol = None).
    { intros r Hr. unfold delta. apply DictFacts.get_None. intros Hk.
      apply Hs. eapply alphabet_In; eauto. }
    now rewrite (Hnone x HxS), (Hnone y HyS).
Qed.
End Stable.

(* ------------------------------------------------------------------ *)
(** ** The minimized automaton accepts what the original accepts *)

Lemma all_members_block P x :
  In x (all_members P) <->
  exists j blk, nth_error P j = Some blk /\ In x (members blk).
Proof.
  unfold all_members. rewrite in_flat_map. split.
  - intros [blk [Hb Hx]]. apply In_nth_error in Hb. destruct Hb as [j Hj]. eauto.
  - intros (j & blk & Hj & Hx). exists blk. split; auto.
    eapply nth_error_In; eauto.
Qed.

Lemma block_unique P :
  NoDup (all_members P) ->
  forall j j' blk blk' x,
    nth_error P j = Some blk -> In x (members blk) ->
    nth_error P j' = Some blk' -> In x (members blk') -> j = j'.
Proof.
  induction P as [|p P IH]; intros Hnd j j' blk blk' x Hj Hx Hj' Hx'.
  - destruct j; discriminate.
  - rewrite all_members_cons in Hnd.
    assert (Hrest : forall k bk, nth_error P k = Some bk -> In x (members bk) ->
                                 In x (all_members P))
      by (intros k bk Hk Hxk; apply all_members_block; eauto).
    destruct j as [|j], j' as [|j']; simpl in Hj, Hj'; auto.
    + injection Hj as <-. exfalso.
      apply (NoDup_app_disjoint _ _ x Hnd Hx). eauto.
    + injection Hj' as <-. exfalso.
      apply (NoDup_app_disjoint _ _ x Hnd Hx'). eauto.
    + f_equal. apply (IH (NoDup_app_remove_l _ _ Hnd) j j' blk blk' x); auto.
Qed.

Lemma existsb_uniform (f : ref -> bool) blk x :
  uniform f blk -> In x (members blk) -> existsb f (members blk) = f x.
Proof.
  intros Hu Hx. destruct (f x) eqn:E.
  - apply existsb_exists. eauto.
  - destruct (existsb f (members blk)) eqn:E'; auto.
    apply existsb_exists in E'. destruct E' as [y [Hy Hfy]].
    rewrite (Hu y x Hy Hx) in Hfy. congruence.
Qed.

Lemma accepts_ext h h' :
  (forall r, transitions (deref h' r) = transitions (deref h r) /\
             is_accepting (deref h' r) = is_accepting (deref h r)) ->
  forall w r, accepts h' r w = accepts h r w.
Proof.
  intros Hext. induction w as [|a w IH]; intros r; simpl.
  - apply Hext.
  - unfold delta. destruct (Hext r) as [-> _].
    destruct (Dict.get string_dec a (transitions (deref h r))); auto.
Qed.

Section Bisimulation.
Variable v : DFAVisualizer.
Variable P : list Block.
Variable b : Minimized.
Hypothesis Hpart : partition_of (state_refs v) P.
Hypothesis Haccepting :
  forall blk, In blk P -> uniform (fun s => is_accepting (deref (objs v) s)) blk.
Hypothesis Hstable :
  forall blk, In blk P ->
              uniform (transition_key (objs v) (sorted (alphabet v)) P) blk.
Hypothesis Hclosed : no_dangling v.
Hypothesis Hkeys :
  forall r, In r (state_refs v) ->
            NoDup (Dict.keys (transitions (deref (objs v) r))).
Hypothesis Hmin : minimized_for v P b.

Local Abbreviation o2m := (original_to_minimized b).

Lemma state_block x :
  In x (state_refs v) ->
  exists j blk, nth_error P j = Some blk /\ In x (members blk).
Proof. intros Hx. apply all_members_block. now apply Hpart. Qed.

Lemma block_state j blk x :
  nth_error P j = Some blk -> In x (members blk) -> In x (state_refs v).
Proof. intros Hj Hx. apply Hpart. apply all_members_block. eauto. Qed.

(** The minimized state of the entry a state is in. *)
Lemma minimized_of_block j blk x :
  nth_error P j = Some blk -> In x (members blk) ->
  exists m,
    Dict.get Nat.eq_dec x o2m = Some m /\
    Dict.get Nat.eq_dec j (partition_to_state b) = Some m /\
    length (objs v) <= m /\ m < length (m_objs b) /\
    deref (m_objs b) m
    = mkDFAState (block_name (objs v) blk) (block_accepting (objs v) blk)
        (mapped o2m (transitions (deref (objs v) (hd 0 (members blk)))) []).
Proof.
  intros Hj Hx. destruct Hmin as (_ & _ & _ & Hblk & _).
  destruct (Hblk j blk Hj) as (m & H1 & H2 & H3 & H4 & _ & H6).
  { intros E. rewrite E in Hx. contradiction. }
  exists m. auto 6.
Qed.

Lemma minimized_total x :
  In x (state_refs v) -> exists m, Dict.get Nat.eq_dec x o2m = Some m.
Proof.
  intros Hx. destruct (state_block x Hx) as (j & blk & Hj & Hin).
  destruct (minimized_of_block j blk x Hj Hin) as (m & H & _). eauto.
Qed.

Lemma minimized_same_block j blk x y :
  nth_error P j = Some blk -> In x (members blk) -> In y (members blk) ->
  Dict.get Nat.eq_dec x o2m = Dict.get Nat.eq_dec y o2m.
Proof.
  intros Hj Hx Hy.
  destruct (minimized_of_block j blk x Hj Hx) as (m & H1 & H2 & _).
  destruct (minimized_of_block j blk y Hj Hy) as (m' & H1' & H2' & _).
  congruence.
Qed.

Lemma minimized_accepting x m :
  In x (state_refs v) -> Dict.get Nat.eq_dec x o2m = Some m ->
  is_accepting (deref (m_objs b) m) = is_accepting (deref (objs v) x).
Proof.
  intros Hx Hm. destruct (state_block x Hx) as (j & blk & Hj & Hin).
  destruct (minimized_of_block j blk x Hj Hin) as (m' & H1 & _ & _ & _ & Hd).
  assert (m' = m) by congruence. subst m'. rewrite Hd. simpl.
  unfold block_accepting.
  apply (existsb_uniform (fun s => is_accepting (deref (objs v) s)) blk x); auto.
  apply Haccepting. eapply nth_error_In; eauto.
Qed.

Lemma minimized_delta x m symbol :
  In x (state_refs v) -> Dict.get Nat.eq_dec x o2m = Some m ->
  delta (m_objs b) m symbol
  = match delta (objs v) x symbol with
    | Some t => Dict.get Nat.eq_dec t o2m
    | None => None
    end.
Proof.
  intros Hx Hm. destruct (state_block x Hx) as (j & blk & Hj & Hin).
  destruct (minimized_of_block j blk x Hj Hin) as (m' & H1 & _ & _ & _ & Hd).
  assert (m' = m) by congruence. subst m'.
  assert (Hblk : In blk P) by (eapply nth_error_In; eauto).
  set (rep := hd 0 (members blk)) in *.
  assert (Hrep : In rep (members blk)).
  { unfold rep. destruct (members blk); [contradiction|now left]. }
  assert (HrepS : In rep (state_refs v)) by (eapply block_state; eauto).
  unfold delta at 1. rewrite Hd. simpl.
  rewrite get_mapped by (now apply Hkeys). simpl.
  pose proof (stable_delta v P Hpart Hstable Hclosed blk rep x symbol Hblk Hrep Hin)
    as Hs.
  unfold delta in *.
  destruct (Dict.get string_dec symbol (transitions (deref (objs v) rep))) as [t|],
           (Dict.get string_dec symbol (transitions (deref (objs v) x))) as [t'|];
    try contradiction; auto.
  destruct Hs as (j' & blk' & Hj' & Ht & Ht').
  rewrite (minimized_same_block j' blk' t t' Hj' Ht Ht').
  destruct (Dict.get Nat.eq_dec t' o2m); reflexivity.
Qed.

(** From corresponding states, the minimized automaton and the original
    accept the same symbol sequences. *)
Lemma minimized_accepts w :
  forall x m,
    In x (state_refs v) -> Dict.get Nat.eq_dec x o2m = Some m ->
    accepts (m_objs b) m w = accepts (objs v) x w.
Proof.
  induction w as [|symbol w IH]; intros x m Hx Hm; simpl.
  - now apply minimized_accepting.
  - rewrite (minimized_delta x m symbol Hx Hm).
    destruct (delta (objs v) x symbol) as [t|] eqn:Ed; auto.
    assert (Ht : In t (state_refs v)).
    { apply (Hclosed x symbol t Hx). now apply DictFacts.get_In in Ed. }
    destruct (minimized_total t Ht) as [m' Hm']. rewrite Hm'. now apply IH.
Qed.
End Bisimulation.

(* ------------------------------------------------------------------ *)
(** ** Relabelling and finding the start state *)

Lemma has_comma_app a b : has_comma (a ++ b) = has_comma a || has_comma b.
Proof.
  induction a as [|c a IH]; simpl; auto. rewrite IH. now rewrite orb_assoc.
Qed.

Lemma concat_START l : String.concat ", " l = "START" -> l = ["START"].
Proof.
  destruct l as [|x [|y l]]; simpl.
  - discriminate.
  - now intros ->.
  - intros H. assert (Hc : has_comma "START" = true).
    { rewrite <- H. rewrite has_comma_app. simpl. apply orb_true_r. }
    discriminate Hc.
Qed.

Lemma sorted_singleton l y : sorted l = [y] -> l = [y].
Proof.
  intros H. pose proof (sorted_length l) as Hl. rewrite H in Hl.
  destruct l as [|z [|? ?]]; simpl in Hl; try discriminate.
  simpl in H. exact H.
Qed.

Lemma block_name_START h blk :
  block_name h blk = "START" ->
  exists x, members blk = [x] /\ name (deref h x) = "START".
Proof.
  unfold block_name. intros H. apply concat_START, sorted_singleton in H.
  destruct (members blk) as [|x [|? ?]]; simpl in H; try discriminate.
  injection H as H. eauto.
Qed.

Lemma find_start_unique hp (ms : list (string * ref)) ns :
  In ns (Dict.values ms) ->
  name (deref hp ns) = "START" ->
  (forall m, In m (Dict.values ms) -> name (deref hp m) = "START" -> m = ns) ->
  find (fun state => String.eqb (name (deref hp state)) "START") (Dict.values ms)
  = Some ns /\
  find_start hp ms = Some ns.
Proof.
  intros Hin Hname Huniq. unfold find_start.
  destruct (find (fun state => String.eqb (name (deref hp state)) "START")
              (Dict.values ms)) as [m|] eqn:E.
  - apply find_some in E. destruct E as [Hm Hn]. apply String.eqb_eq in Hn.
    rewrite (Huniq m Hm Hn). auto.
  - eapply find_none in E; eauto. simpl in E. rewrite Hname in E. discriminate.
Qed.

Lemma update_set_name_fields hp ns r :
  transitions (deref (update hp ns (set_name "START")) r) = transitions (deref hp r) /\
  is_accepting (deref (update hp ns (set_name "START")) r) = is_accepting (deref hp r).
Proof.
  destruct (Nat.eq_dec ns r) as [->|Hne].
  - destruct (Nat.lt_ge_cases r (length hp)).
    + rewrite deref_update_same by assumption. auto.
    + rewrite update_out_of_range by assumption. auto.
  - rewrite deref_update_other by assumption. auto.
Qed.

Section StartState.
Variable v : DFAVisualizer.
Variable P : list Block.
Variable b : Minimized.
Variable s : ref.
Hypothesis Hpart : partition_of (state_refs v) P.
Hypothesis Hmin : minimized_for v P b.
Hypothesis Hs : In s (state_refs v).
Hypothesis Hunique :
  forall x y, In x (state_refs v) -> In y (state_refs v) ->
              name (deref (objs v) x) = "START" ->
              name (deref (objs v) y) = "START" -> x = y.

Local Abbreviation hb := (m_objs b).
Local Abbreviation ms := (minimized_states b).
Local Abbreviation o2m := (original_to_minimized b).

Lemma find_new_start_spec :
  exists ns, find_new_start (Some s) P o2m = Some (Some ns) /\
             Dict.get Nat.eq_dec s o2m = Some ns.
Proof.
  assert (Hin : In s (all_members P)) by now apply Hpart.
  apply all_members_block in Hin. destruct Hin as (j & blk & Hj & Hx).
  destruct Hmin as (_ & _ & _ & Hblk & _).
  destruct (Hblk j blk Hj) as (m & _ & _ & _ & _ & _ & H6).
  { intros E. rewrite E in Hx. contradiction. }
  exists m. unfold find_new_start.
  assert (E : existsb (fun p => memb s (members p)) P = true).
  { apply existsb_exists. exists blk. split; [eapply nth_error_In; eauto|].
    now apply memb_In. }
  rewrite E, (H6 s Hx). auto.
Qed.

(** An entry of the returned dict is a new object that carries its key as
    its name. *)
Lemma minimized_states_entry k m :
  In (k, m) ms ->
  name (deref hb m) = k /\ m < length hb /\
  exists j blk, nth_error P j = Some blk /\ members blk <> [] /\
                k = block_name (objs v) blk /\
                Dict.get Nat.eq_dec j (partition_to_state b) = Some m.
Proof.
  intros Hin. destruct Hmin as (_ & _ & _ & Hblk & _ & Hent).
  destruct (Hent k m Hin) as (j & blk & Hj & Hne & Hk & Hg).
  destruct (Hblk j blk Hj Hne) as (m' & H1 & _ & H3 & H4 & _).
  assert (m' = m) by congruence. subst m'.
  split; [rewrite H4, Hk; reflexivity|]. split; [exact H3|].
  exists j, blk. auto.
Qed.

Lemma relabel_start_spec ns :
  Dict.get Nat.eq_dec s o2m = Some ns ->
  exists h' ms',
    relabel_start (Some ns) hb ms = Some (h', ms') /\
    (forall r, transitions (deref h' r) = transitions (deref hb r) /\
               is_accepting (deref h' r) = is_accepting (deref hb r)) /\
    Dict.get string_dec "START" ms' = Some ns /\
    name (deref h' ns) = "START" /\
    find (fun state => String.eqb (name (deref h' state)) "START") (Dict.values ms')
    = Some ns /\
    find_start h' ms' = Some ns /\
    exists blk, In blk P /\ In s (members blk) /\
                name (deref hb ns) = block_name (objs v) blk.
Proof.
  intros Hns.
  assert (Hin : In s (all_members P)) by now apply Hpart.
  apply all_members_block in Hin. destruct Hin as (js & blks & Hjs & Hxs).
  pose proof Hmin as (_ & _ & Hnd & Hblk & Hinj & _).
  destruct (Hblk js blks Hjs) as (m & Hp2s & _ & Hlen & Hderef & Hkey & Ho2m).
  { intros E. rewrite E in Hxs. contradiction. }
  assert (m = ns) by (rewrite (Ho2m s Hxs) in Hns; congruence). subst m.
  assert (Hname : name (deref hb ns) = block_name (objs v) blks)
    by (rewrite Hderef; reflexivity).
  assert (Hblock : exists blk, In blk P /\ In s (members blk) /\
                               name (deref hb ns) = block_name (objs v) blk).
  { exists blks. split; [eapply nth_error_In; eauto|]. auto. }
  (* the entry stored under "START", if any, is the start state's own *)
  assert (Hstart_key : forall m0,
             Dict.get string_dec "START" ms = Some m0 ->
             name (deref hb ns) = "START" -> m0 = ns).
  { intros m0 Hm0 Hn. apply DictFacts.get_In in Hm0.
    destruct (minimized_states_entry "START" m0 Hm0)
      as (_ & _ & j & blk & Hj & Hne & Hk & Hg).
    symmetry in Hk. apply block_name_START in Hk. destruct Hk as (x & Hx & Hxn).
    rewrite Hname in Hn. apply block_name_START in Hn.
    destruct Hn as (x' & Hx' & Hxn').
    assert (x' = s) by (rewrite Hx' in Hxs; destruct Hxs as [?|[]]; auto). subst x'.
    assert (HxS : In x (state_refs v)).
    { apply Hpart. apply all_members_block. exists j, blk. rewrite Hx. simpl. auto. }
    assert (x = s) by (apply Hunique; auto). subst x.
    assert (j = js).
    { destruct Hpart as [Hnodup _].
      apply (block_unique P Hnodup j js blk blks s); auto. rewrite Hx. now left. }
    subst j. congruence. }
  (* entries other than the start state's keep their key as their name *)
  assert (Hothers : forall h' k m,
             (forall r, r <> ns -> name (deref h' r) = name (deref hb r)) ->
             In (k, m) ms -> m <> ns -> name (deref h' m) = k).
  { intros h' k m Hh' Hkm Hne. rewrite Hh' by assumption.
    now destruct (minimized_states_entry k m Hkm). }
  assert (Hrename : forall r, r <> ns ->
             name (deref (update hb ns (set_name "START")) r) = name (deref hb r))
    by (intros r Hr; now rewrite deref_update_other by congruence).
  assert (Hrenamed : name (deref (update hb ns (set_name "START")) ns) = "START")
    by (now rewrite deref_update_same by assumption).
  unfold relabel_start.
  destruct (Dict.get string_dec "START" ms) as [m0|] eqn:E0.
  - destruct (Nat.eqb m0 ns) eqn:Em; simpl.
    + (* already stored under "START" *)
      apply Nat.eqb_eq in Em. subst m0.
      pose proof E0 as Hin0. apply DictFacts.get_In in Hin0.
      destruct (minimized_states_entry "START" ns Hin0) as (Hn & _).
      exists hb, ms. split; [reflexivity|]. split; [auto|].
      split; [exact E0|]. split; [exact Hn|].
      rewrite <- and_assoc. split; [|exact Hblock].
      apply find_start_unique; auto.
      * apply DictFacts.In_values. eauto.
      * intros m Hm Hmn. apply DictFacts.In_values in Hm. destruct Hm as [k Hm].
        destruct (minimized_states_entry k m Hm) as (Hk & _).
        assert (Hk' : k = "START") by congruence. rewrite Hk' in Hm.
        apply (DictFacts.In_get string_dec) in Hm; auto. congruence.
    + (* another state is stored under "START" *)
      apply Nat.eqb_neq in Em.
      assert (Hon : name (deref hb ns) <> "START").
      { intros Hn. apply Em. now apply Hstart_key. }
      set (ms1 := Dict.set string_dec "START" ns ms).
      assert (Hmem : Dict.mem string_dec (name (deref hb ns)) ms1 = true).
      { unfold Dict.mem.
        destruct (Dict.get string_dec (name (deref hb ns)) ms1) eqn:Eg; auto.
        apply DictFacts.get_None in Eg. exfalso. apply Eg. unfold ms1.
        apply keys_set_mono. now rewrite Hname. }
      unfold Dict.del. fold ms1. rewrite Hmem.
      assert (Hnd1 : NoDup (Dict.keys ms1))
        by (now apply DictFacts.NoDup_keys_set).
      assert (Hin1 : In ("START", ns)
                        (Dict.remove string_dec (name (deref hb ns)) ms1)).
      { apply DictFacts.In_remove_other; [apply DictFacts.In_set_new|congruence]. }
      eexists _, _. split; [reflexivity|].
      split; [intros r; apply update_set_name_fields|].
      split; [apply DictFacts.In_get; auto; now apply DictFacts.NoDup_keys_remove|].
      split; [exact Hrenamed|].
      rewrite <- and_assoc. split; [|exact Hblock].
      apply find_start_unique; auto.
      * apply DictFacts.In_values. eauto.
      * intros m Hm Hmn. destruct (Nat.eq_dec m ns) as [|Hne]; auto. exfalso.
        apply DictFacts.In_values in Hm. destruct Hm as [k Hm].
        apply DictFacts.In_remove in Hm.
        pose proof Hm as Hm1. unfold ms1 in Hm. apply DictFacts.In_set in Hm.
        destruct Hm as [[_ ?]|Hm]; [contradiction|].
        pose proof (Hothers _ k m Hrename Hm Hne) as Hk.
        assert (Hk' : k = "START") by congruence. rewrite Hk' in Hm1.
        apply (DictFacts.In_get string_dec) in Hm1; auto.
        unfold ms1 in Hm1. rewrite DictFacts.get_set_same in Hm1. congruence.
  - (* no state is stored under "START" *)
    eexists _, _. split; [reflexivity|].
    split; [intros r; apply update_set_name_fields|].
    split; [apply DictFacts.get_set_same|].
    split; [exact Hrenamed|].
    rewrite <- and_assoc. split; [|exact Hblock].
    apply find_start_unique; auto.
    * apply DictFacts.In_values. exists "START". apply DictFacts.In_set_new.
    * intros m Hm Hmn. destruct (Nat.eq_dec m ns) as [|Hne]; auto. exfalso.
      apply DictFacts.In_values in Hm. destruct Hm as [k Hm].
      apply DictFacts.In_set in Hm. destruct Hm as [[_ ?]|Hm]; [contradiction|].
      pose proof (Hothers _ k m Hrename Hm Hne) as Hk.
      assert (Hk' : k = "START") by congruence. rewrite Hk' in Hm.
      apply DictFacts.get_None in E0. apply E0.
      unfold Dict.keys. change "START" with (fst ("START", m)). now apply in_map.
Qed.
End StartState.

(* ------------------------------------------------------------------ *)
(** ** A run of the simulator decides acceptance *)

Lemma simulate_unarmed v w :
  tokens v = [] \/ w = [] -> simulate v w = None.
Proof.
  intros H. unfold simulate.
  assert (Hstep : forall u, animation_sequence u = w -> tokens u = tokens v ->
                            step_animation u = (u, None)).
  { intros u Hu Ht. apply step_animation_unarmed.
    destruct H as [H|H]; [right; congruence|left; congruence]. }
  generalize (reset_animation (with_sequence w v))
             (eq_refl : animation_sequence (reset_animation (with_sequence w v)) = w)
             (eq_refl : tokens (reset_animation (with_sequence w v)) = tokens v).
  induction (length w) as [|n IH]; intros u Hu Ht; simpl; auto.
  rewrite (Hstep u Hu Ht). now apply IH.
Qed.

Lemma run_accepts suf :
  forall pre u c,
    animation_sequence u = pre ++ suf ->
    animation_step u = length pre ->
    current_state u = Some c ->
    tokens u <> [] -> suf <> [] ->
    run (length suf) u = Some (accepts (objs u) c suf).
Proof.
  induction suf as [|a suf IH]; intros pre u c Hseq Hstep Hcur Htok Hne;
    [congruence|].
  simpl run. unfold step_animation. rewrite Hseq, Hstep, Hcur.
  destruct (tokens u) as [|tk tks] eqn:Et; [congruence|].
  assert (Enil : is_nil (pre ++ a :: suf) = false) by (destruct pre; reflexivity).
  rewrite Enil. cbn [orb is_nil].
  assert (Elt : (length (pre ++ a :: suf) <=? length pre)%nat = false).
  { apply Nat.leb_gt. rewrite length_app. simpl. lia. }
  rewrite Elt.
  assert (Enth : nth (length pre) (pre ++ a :: suf) "" = a).
  { rewrite app_nth2, Nat.sub_diag by lia. reflexivity. }
  rewrite Enth. simpl accepts. unfold delta.
  destruct (Dict.get string_dec a (transitions (deref (objs u) c))) as [t|] eqn:Ed.
  - destruct suf as [|a' suf'].
    + assert (Ele : (length (pre ++ [a]) <=? S (length pre))%nat = true).
      { apply Nat.leb_le. rewrite length_app. simpl. lia. }
      rewrite Ele. reflexivity.
    + assert (Egt : (length (pre ++ a :: a' :: suf') <=? S (length pre))%nat = false).
      { apply Nat.leb_gt. rewrite length_app. simpl. lia. }
      rewrite Egt. cbn [orb is_none].
      match goal with
      | |- run _ ?u' = _ => apply (IH (pre ++ [a]) u' t)
      end; simpl; auto; try discriminate.
      * now rewrite <- app_assoc.
      * rewrite length_app. simpl. lia.
  - rewrite orb_true_r. reflexivity.
Qed.

Lemma simulate_accepts v w s :
  tokens v <> [] -> w <> [] -> start_state v = Some s ->
  simulate v w = Some (accepts (objs v) s w).
Proof.
  intros Ht Hw Hs. unfold simulate.
  apply (run_accepts w [] (reset_animation (with_sequence w v)) s); auto.
Qed.

(* ------------------------------------------------------------------ *)
(** ** [minimize_dfa] on a well-formed automaton *)

Section Minimized.
Variable set_iter : list ref -> list ref.
Hypothesis set_iter_In : forall l x, In x (set_iter l) <-> In x l.
Hypothesis set_iter_NoDup : forall l, NoDup (set_iter l).
Variable v : DFAVisualizer.
Hypothesis Hwf : well_formed v.

(** The partition list the loop returns is a partition of the states whose
    entries are uniform in acceptance and in their transition keys. *)
Lemma final_partitions_stable fuel R :
  final_partitions set_iter fuel v = Some R ->
  partition_of (state_refs v) R /\
  (forall blk, In blk R ->
               uniform (fun s => is_accepting (deref (objs v) s)) blk) /\
  (forall blk, In blk R ->
               uniform (transition_key (objs v) (sorted (alphabet v)) R) blk).
Proof.
  intros H.
  destruct (final_partitions_fixed set_iter set_iter_In set_iter_NoDup v fuel R H)
    as (P & HP & -> & Heq).
  destruct (round_invariant set_iter v P HP) as (Hp & Hu & _).
  split; [exact Hp|]. split; [exact Hu|].
  intros blk Hblk x y Hx Hy.
  rewrite !(transition_key_eqb _ _ _ P _ Heq).
  apply round_blocks in Hblk.
  destruct Hblk as [b0 [_ [[E ->]|[l [-> [_ [_ Hk]]]]]]].
  - rewrite E in Hx. contradiction.
  - now apply Hk.
Qed.

(** What [minimize_dfa] returns once the loop has stopped: it raises no
    [KeyError]; the minimized state [ns] of the entry that holds the start
    state was created under the comma-joined names of that entry and now has
    the name "START"; it is stored under the key "START"; it is the first
    state named "START" in the returned dict; and from it the returned
    automaton accepts what the original accepts from its start state. *)
Lemma minimize_dfa_spec fuel R :
  final_partitions set_iter fuel v = Some R ->
  exists s b ns h' ms',
    start_state v = Some s /\
    build_minimized v R = Some b /\
    find_new_start (start_state v) R (original_to_minimized b) = Some (Some ns) /\
    minimize_dfa set_iter fuel v = Returns (h', ms') /\
    length (objs v) <= ns /\
    (exists blk, In blk R /\ In s (members blk) /\
                 name (deref (m_objs b) ns) = block_name (objs v) blk) /\
    Dict.get string_dec "START" ms' = Some ns /\
    name (deref h' ns) = "START" /\
    find (fun state => String.eqb (name (deref h' state)) "START") (Dict.values ms')
    = Some ns /\
    find_start h' ms' = Some ns /\
    forall w, accepts h' ns w = accepts (objs v) s w.
Proof.
  intros HR.
  destruct Hwf as (Hrefs & Hkeys & (s & Hstart & Hs) & Hclosed & Hnames).
  destruct (final_partitions_stable fuel R HR) as (Hpart & Hacc & Hstab).
  destruct (build_minimized_spec v R Hrefs Hpart) as (b & Hb & Hmin).
  destruct (find_new_start_spec v R b s Hpart Hmin Hs) as (ns & Hfind & Hns).
  assert (Hunique : forall x y, In x (state_refs v) -> In y (state_refs v) ->
                                name (deref (objs v) x) = "START" ->
                                name (deref (objs v) y) = "START" -> x = y)
    by (intros x y Hx Hy Ex Ey; apply Hnames; congruence).
  destruct (relabel_start_spec v R b s Hpart Hmin Hs Hunique ns Hns)
    as (h' & ms' & Hrel & Hext & Hget & Hname & Hfd & Hfs & Hblk).
  exists s, b, ns, h', ms'.
  split; [exact Hstart|]. split; [exact Hb|].
  split; [now rewrite Hstart|].
  split; [unfold minimize_dfa; now rewrite HR, Hb, Hstart, Hfind, Hrel|].
  split.
  { destruct (state_block v R Hpart s Hs) as (j & blk & Hj & Hin).
    destruct (minimized_of_block v R b Hmin j blk s Hj Hin) as (m & H1 & _ & H3 & _).
    congruence. }
  split; [exact Hblk|]. split; [exact Hget|]. split; [exact Hname|].
  split; [exact Hfd|]. split; [exact Hfs|].
  intros w. rewrite (accepts_ext (m_objs b) h' Hext).
  now apply (minimized_accepts v R b Hpart Hacc Hstab Hclosed Hkeys Hmin).
Qed.

Lemma on_minimize_button_click_spec fuel R :
  final_partitions set_iter fuel v = Some R ->
  exists v', _on_minimize_button_click set_iter fuel v = Returns v' /\
             forall w, simulate v' w = simulate v w.
Proof.
  intros HR.
  destruct (minimize_dfa_spec fuel R HR)
    as (s & b & ns & h' & ms' & Hstart & _ & _ & Hmin & _ & _ & _ & _ & _ & Hfs & Hacc).
  unfold _on_minimize_button_click. rewrite Hmin.
  eexists. split; [reflexivity|]. intros w.
  destruct (tokens v) as [|tk tks] eqn:Et.
  - rewrite !simulate_unarmed; auto.
  - destruct w as [|a w].
    + rewrite !simulate_unarmed; auto.
    + assert (H1 : simulate v (a :: w) = Some (accepts (objs v) s (a :: w))).
      { apply simulate_accepts; [rewrite Et; discriminate|discriminate|exact Hstart]. }
      rewrite H1. rewrite <- Hacc.
      apply simulate_accepts; [simpl; discriminate|discriminate|exact Hfs].
Qed.

(** C1: for a well-formed automaton, "Minimize DFA" returns (from
    [len(self.states) + 4] loop tests on it does not run out of fuel, and it
    never raises), and whenever it returns, a run of the simulator on the
    minimized automaton gives, for every symbol sequence, the verdict the
    run on the original automaton gives.  With tokens loaded, every
    non-empty sequence does get a verdict. *)
Theorem C1_minimized_accepts_the_same :
  (exists v', forall fuel,
      length (state_refs v) + 4 <= fuel ->
      _on_minimize_button_click set_iter fuel v = Returns v') /\
  (forall fuel, _on_minimize_button_click set_iter fuel v <> Raises_KeyError) /\
  (forall fuel v',
      _on_minimize_button_click set_iter fuel v = Returns v' ->
      forall w, simulate v' w = simulate v w) /\
  (forall w, tokens v <> [] -> w <> [] ->
             exists verdict, simulate v w = Some verdict).
Proof.
  split; [|split; [|split]].
  - destruct (final_partitions_total set_iter set_iter_In set_iter_NoDup v) as [R HR].
    destruct (on_minimize_button_click_spec _ R (HR _ (Nat.le_refl _))) as (v' & Hv' & _).
    exists v'. intros fuel Hfuel.
    destruct (on_minimize_button_click_spec fuel R (HR fuel Hfuel)) as (v'' & Hv'' & _).
    rewrite Hv''. f_equal.
    unfold _on_minimize_button_click, minimize_dfa in Hv', Hv''.
    rewrite (HR _ (Nat.le_refl _)) in Hv'. rewrite (HR fuel Hfuel) in Hv''.
    congruence.
  - intros fuel.
    destruct (final_partitions set_iter fuel v) as [R|] eqn:HR.
    + destruct (on_minimize_button_click_spec fuel R HR) as (v' & -> & _).
      discriminate.
    + unfold _on_minimize_button_click, minimize_dfa. rewrite HR. discriminate.
  - intros fuel v' Hv'.
    destruct (final_partitions set_iter fuel v) as [R|] eqn:HR.
    + destruct (on_minimize_button_click_spec fuel R HR) as (v'' & Hv'' & Hsim).
      assert (v'' = v') by congruence. subst v''. exact Hsim.
    + unfold _on_minimize_button_click, minimize_dfa in Hv'. rewrite HR in Hv'.
      discriminate.
  - intros w Ht Hw. destruct Hwf as (_ & _ & (s & Hstart & _) & _).
    rewrite (simulate_accepts v w s Ht Hw Hstart). eauto.
Qed.

(** C6, as the code has it: [minimize_dfa] does rename.  Whenever it
    returns for a well-formed automaton, the minimized state [ns] of the
    entry that holds the start state, created under the comma-joined names
    of the states of that entry, ends up with the name "START" and under
    the key "START" of the returned dict; and the caller's start state is
    the first state of the returned dict whose name is "START", which is
    [ns]. *)
Theorem C6_start_state_goes_by_name :
  forall fuel h' ms',
    minimize_dfa set_iter fuel v = Returns (h', ms') ->
    exists s R b ns,
      start_state v = Some s /\
      final_partitions set_iter fuel v = Some R /\
      build_minimized v R = Some b /\
      find_new_start (start_state v) R (original_to_minimized b) = Some (Some ns) /\
      (exists blk, In blk R /\ In s (members blk) /\
                   name (deref (m_objs b) ns) = block_name (objs v) blk) /\
      name (deref h' ns) = "START" /\
      Dict.get string_dec "START" ms' = Some ns /\
      find (fun state => String.eqb (name (deref h' state)) "START") (Dict.values ms')
      = Some ns /\
      find_start h' ms' = Some ns.
Proof.
  intros fuel h' ms' Hmin.
  destruct (final_partitions set_iter fuel v) as [R|] eqn:HR.
  - destruct (minimize_dfa_spec fuel R HR)
      as (s & b & ns & h'' & ms'' & Hstart & Hb & Hfind & Hmin' & _ & Hblk & Hget
          & Hname & Hfd & Hfs & _).
    assert (E : (h'', ms'') = (h', ms')) by congruence.
    injection E as -> ->.
    exists s, R, b, ns. auto 10.
  - unfold minimize_dfa in Hmin. rewrite HR in Hmin. discriminate.
Qed.
End Minimized.

(* ------------------------------------------------------------------ *)
(** ** The claims on concrete automata *)

(** Scenario A of the specification, run through the simulator. *)
Example scenario_A_verdicts :
  simulate scenario_A ["a"] = Some true /\
  simulate scenario_A ["b"] = Some true /\
  simulate scenario_A ["c"] = Some false /\
  simulate scenario_A ["a"; "a"] = Some false.
Proof. vm_compute. repeat split. Qed.

(** On Scenario A the loop stops at its third test, with [A] and [B] in
    one block. *)
Example scenario_A_partitions :
  final_partitions insertion_order 2 scenario_A = None /\
  final_partitions insertion_order 3 scenario_A = Some [BList [0]; BList [1; 2]].
Proof. vm_compute. split; reflexivity. Qed.

(** [update_dfa] on the tokens [kw id kw]: one accepting state per token
    type, reached from the new start state. *)
Example update_dfa_example :
  let v := update_dfa (fun l => nodup string_dec l) initial_visualizer
             [mkToken "kw" "if" 1 1; mkToken "id" "x" 1 4; mkToken "kw" "if" 2 1] in
  states v = [("START", 1); ("id", 2); ("kw", 3)] /\
  transitions (deref (objs v) 1) = [("id", 2); ("kw", 3)] /\
  current_state v = Some 1 /\ animation_step v = 0.
Proof. vm_compute. repeat split. Qed.

Lemma scenario_A_well_formed : well_formed scenario_A.
Proof.
  unfold well_formed. split; [|split; [|split; [|split]]].
  - intros r [<-|[<-|[<-|[]]]]; simpl; lia.
  - intros r [<-|[<-|[<-|[]]]]; simpl; distinct_keys.
  - exists 0. split; [reflexivity|]. simpl. auto.
  - apply no_danglingb_sound. reflexivity.
  - intros x y [<-|[<-|[<-|[]]]] [<-|[<-|[<-|[]]]]; simpl; intros H;
      try reflexivity; discriminate.
Qed.

Lemma start_and_X_well_formed : well_formed start_and_X.
Proof.
  unfold well_formed. split; [|split; [|split; [|split]]].
  - intros r [<-|[<-|[]]]; simpl; lia.
  - intros r [<-|[<-|[]]]; simpl; distinct_keys.
  - exists 0. split; [reflexivity|]. simpl. auto.
  - apply no_danglingb_sound. reflexivity.
  - intros x y [<-|[<-|[]]] [<-|[<-|[]]]; simpl; intros H;
      try reflexivity; discriminate.
Qed.

Lemma C1_minimized_accepts_the_same_witness :
  (exists v', forall fuel,
      length (state_refs scenario_A) + 4 <= fuel ->
      _on_minimize_button_click insertion_order fuel scenario_A = Returns v') /\
  (forall fuel,
      _on_minimize_button_click insertion_order fuel scenario_A <> Raises_KeyError) /\
  (forall fuel v',
      _on_minimize_button_click insertion_order fuel scenario_A = Returns v' ->
      forall w, simulate v' w = simulate scenario_A w) /\
  (forall w, tokens scenario_A <> [] -> w <> [] ->
             exists verdict, simulate scenario_A w = Some verdict).
Proof.
  apply (C1_minimized_accepts_the_same insertion_order
           insertion_order_In insertion_order_NoDup scenario_A
           scenario_A_well_formed).
Defined.

Lemma C6_start_state_goes_by_name_witness :
  exists s R b ns,
    start_state start_and_X = Some s /\
    final_partitions insertion_order 5 start_and_X = Some R /\
    build_minimized start_and_X R = Some b /\
    find_new_start (start_state start_and_X) R (original_to_minimized b)
    = Some (Some ns) /\
    (exists blk, In blk R /\ In s (members blk) /\
                 name (deref (m_objs b) ns) = block_name (objs start_and_X) blk) /\
    name (deref (objs start_and_X_minimized) ns) = "START" /\
    Dict.get string_dec "START" (states start_and_X_minimized) = Some ns /\
    find (fun state =>
            String.eqb (name (deref (objs start_and_X_minimized) state)) "START")
      (Dict.values (states start_and_X_minimized)) = Some ns /\
    find_start (objs start_and_X_minimized) (states start_and_X_minimized) = Some ns.
Proof.
  apply (C6_start_state_goes_by_name insertion_order
           insertion_order_In insertion_order_NoDup start_and_X
           start_and_X_well_formed 5).
  reflexivity.
Defined.

(** C6 fails as stated: on [start_and_X] the loop leaves the single block
    [START, X]; its minimized state (object 2) is created with the name
    "START, X"; [minimize_dfa] then replaces that name by "START" and
    returns the dict alone, in which the caller finds the start state by
    its name. *)
Lemma C6_counterexample :
  final_partitions insertion_order 5 start_and_X = Some [BList [0; 1]; BSet []] /\
  option_map (fun b => name (deref (m_objs b) 2))
    (build_minimized start_and_X [BList [0; 1]; BSet []]) = Some "START, X" /\
  minimize_dfa insertion_order 5 start_and_X
  = Returns (objs start_and_X_minimized, states start_and_X_minimized) /\
  name (deref (objs start_and_X_minimized) 2) = "START" /\
  find (fun state =>
          String.eqb (name (deref (objs start_and_X_minimized) state)) "START")
    (Dict.values (states start_and_X_minimized)) = Some 2 /\
  _on_minimize_button_click insertion_order 5 start_and_X
  = Returns start_and_X_minimized.
Proof. vm_compute. repeat split. Qed.

(** C5 at the failing input: [start_and_X] is well formed; one click on
    "Minimize DFA" returns a dict with two keys, "START, X" and "START",
    for the one minimized state; a second click returns a dict with the
    single key "START". *)
Theorem C5_state_count_is_not_idempotent :
  well_formed start_and_X /\
  _on_minimize_button_click insertion_order 5 start_and_X
  = Returns start_and_X_minimized /\
  states start_and_X_minimized = [("START, X", 2); ("START", 2)] /\
  length (states start_and_X_minimized) = 2 /\
  _on_minimize_button_click insertion_order 5 start_and_X_minimized
  = Returns start_and_X_minimized_twice /\
  states start_and_X_minimized_twice = [("START", 3)] /\
  length (states start_and_X_minimized_twice) = 1.
Proof.
  split; [apply start_and_X_well_formed|]. vm_compute. repeat split.
Qed.

(* ------------------------------------------------------------------ *)
(** ** Editing on the canvas *)

Lemma keyed_names_unique v :
  NoDup (Dict.keys (states v)) -> keyed_by_name v ->
  forall x y, In x (state_refs v) -> In y (state_refs v) ->
              name (deref (objs v) x) = name (deref (objs v) y) -> x = y.
Proof.
  intros Hnd Hk x y Hx Hy E. unfold state_refs in *.
  apply DictFacts.In_values in Hx, Hy. destruct Hx as [kx Hx], Hy as [ky Hy].
  pose proof (Hk _ _ Hx) as Ex. pose proof (Hk _ _ Hy) as Ey.
  assert (kx = ky) by congruence. subst ky.
  apply (DictFacts.In_get string_dec) in Hx, Hy; auto. congruence.
Qed.

Lemma editable_selected_stored v s :
  editable v -> selected_state v = Some s ->
  Dict.get string_dec (name (deref (objs v) s)) (states v) = Some s.
Proof.
  intros (_ & Hnd & Hk & Hsel) Hs. specialize (Hsel s Hs). unfold state_refs in Hsel.
  apply DictFacts.In_values in Hsel. destruct Hsel as [k Hin].
  rewrite (Hk _ _ Hin). now apply DictFacts.In_get.
Qed.

(** Changing objects without touching the names of the states, with
    transitions that stay dicts and stay inside the automaton, keeps the
    canvas editable. *)
Lemma editable_with_objs v h' :
  editable v ->
  length (objs v) <= length h' ->
  (forall r, In r (state_refs v) -> name (deref h' r) = name (deref (objs v) r)) ->
  (forall r, In r (state_refs v) -> NoDup (Dict.keys (transitions (deref h' r)))) ->
  (forall r label t, In r (state_refs v) ->
                     In (label, t) (transitions (deref h' r)) -> In t (state_refs v)) ->
  editable (with_objs h' v).
Proof.
  intros ((Hrefs & Hkeys & Hstart & Hdang & Hnames) & Hnd & Hk & Hsel) Hlen Hn Hd Ht.
  assert (Hk' : keyed_by_name (with_objs h' v)).
  { intros k r Hin. simpl in *. rewrite Hn; [now apply Hk|].
    unfold state_refs. apply DictFacts.In_values. eauto. }
  split; [|split; [exact Hnd|split; [exact Hk'|exact Hsel]]].
  split; [|split; [|split; [|split]]]; simpl.
  - intros r Hr. specialize (Hrefs r Hr). lia.
  - exact Hd.
  - exact Hstart.
  - exact Ht.
  - apply (keyed_names_unique (with_objs h' v)); assumption.
Qed.

Lemma transitions_update_add h src label target r :
  r < length h ->
  transitions (deref (update h src (add_transition label target)) r)
  = if Nat.eq_dec src r
    then Dict.set string_dec label target (transitions (deref h r))
    else transitions (deref h r).
Proof.
  intros Hr. destruct (Nat.eq_dec src r) as [->|Hne].
  - now rewrite deref_update_same.
  - now rewrite deref_update_other.
Qed.

Lemma keys_filter_NoDup {V} (p : string * V -> bool) (d : list (string * V)) :
  NoDup (Dict.keys d) -> NoDup (Dict.keys (filter p d)).
Proof.
  unfold Dict.keys. induction d as [|[k x] d IH]; simpl; intros Hnd; auto.
  inversion Hnd as [|? ? Hn Hnd']; subst.
  destruct (p (k, x)); simpl; auto. constructor; auto.
  intros Hin. apply Hn. apply in_map_iff in Hin.
  destruct Hin as [[k' x'] [E Hin]]. simpl in E. subst k'.
  apply filter_In in Hin. destruct Hin as [Hin _].
  change k with (fst (k, x')). now apply in_map.
Qed.

Lemma drop_loop_length sel sts v :
  length (objs (drop_loop sel sts v)) = length (objs v).
Proof.
  revert v. induction sts as [|a sts IH]; intros v; simpl; auto.
  rewrite IH. simpl. apply length_update.
Qed.

Lemma values_set_new (d : list (string * ref)) k x :
  ~ In k (Dict.keys d) ->
  Dict.set string_dec k x d = d ++ [(k, x)].
Proof.
  induction d as [|[k0 x0] d IH]; simpl; intros Hk; auto.
  destruct (string_dec k k0) as [->|Hne]; [tauto|]. f_equal. apply IH. tauto.
Qed.

Lemma mem_In (d : list (string * ref)) k :
  Dict.mem string_dec k d = true <-> In k (Dict.keys d).
Proof.
  unfold Dict.mem. destruct (Dict.get string_dec k d) eqn:E.
  - split; auto. intros _. eapply DictFacts.get_Some_key; eauto.
  - apply DictFacts.get_None in E. split; [discriminate|tauto].
Qed.

Lemma get_state_name_Some v answer name0 :
  _get_state_name v answer = Some name0 <->
  answer = Some name0 /\ name0 <> "" /\ ~ In name0 (Dict.keys (states v)).
Proof.
  unfold _get_state_name. destruct answer as [n|]; [|split; [discriminate|intros [? _]; discriminate]].
  destruct (truthy n) eqn:Et; simpl.
  - destruct (Dict.mem string_dec n (states v)) eqn:Em; simpl.
    + apply mem_In in Em. split; [discriminate|].
      intros (E & _ & Hn). injection E as ->. contradiction.
    + split.
      * intros E. injection E as ->. split; auto. split.
        -- intros ->. discriminate.
        -- intros Hin. apply mem_In in Hin. congruence.
      * intros (E & _). congruence.
  - split; [discriminate|]. intros (E & Hne & _). injection E as ->.
    destruct name0; [congruence|discriminate].
Qed.

Lemma add_state_refused c answer :
  answer = None \/ answer = Some "" \/
  (exists n, answer = Some n /\ In n (Dict.keys (states (canvas c)))) ->
  _add_state c answer = c.
Proof.
  intros H. unfold _add_state.
  destruct (_get_state_name (canvas c) answer) as [n|] eqn:E; auto.
  apply get_state_name_Some in E. destruct E as (-> & Hne & Hnin).
  destruct H as [H|[H|(n' & H & Hin)]]; try discriminate.
  - injection H as ->. congruence.
  - injection H as ->. contradiction.
Qed.

Lemma add_state_accepted c n :
  n <> "" -> ~ In n (Dict.keys (states (canvas c))) ->
  _add_state c (Some n)
  = with_canvas
      (with_states (objs (canvas c) ++ [mkDFAState n false []])
         (states (canvas c) ++ [(n, length (objs (canvas c)))]) (canvas c)) c.
Proof.
  intros Hne Hnin. unfold _add_state.
  assert (E : _get_state_name (canvas c) (Some n) = Some n)
    by (apply get_state_name_Some; auto).
  rewrite E. unfold alloc. now rewrite values_set_new.
Qed.

(** X1: "Add State" does nothing when the dialog is cancelled, when the
    name is empty and when the name is already a key of [self.states].
    With any other name it creates one object of that name, not accepting
    and without transitions, and stores it under the name as the last item
    of [self.states]; the objects there were, the start state, the
    selection and the mode are as before. *)
Theorem add_state_spec c answer :
  (answer = None \/ answer = Some "" \/
   (exists n, answer = Some n /\ In n (Dict.keys (states (canvas c)))) ->
   _add_state c answer = c) /\
  (forall n, answer = Some n -> n <> "" ->
             ~ In n (Dict.keys (states (canvas c))) ->
             _add_state c answer
             = with_canvas
                 (with_states (objs (canvas c) ++ [mkDFAState n false []])
                    (states (canvas c) ++ [(n, length (objs (canvas c)))])
                    (canvas c)) c).
Proof.
  split; [apply add_state_refused|].
  intros n -> Hne Hnin. now apply add_state_accepted.
Qed.

Lemma add_state_editable c answer :
  editable (canvas c) -> editable (canvas (_add_state c answer)).
Proof.
  intros He. unfold _add_state.
  destruct (_get_state_name (canvas c) answer) as [n|] eqn:E; auto.
  apply get_state_name_Some in E. destruct E as (_ & Hne & Hnin).
  unfold alloc. rewrite values_set_new by assumption. simpl.
  remember (canvas c) as v eqn:Ev. clear Ev.
  destruct He as ((Hrefs & Hkeys & (s & Hs & Hsin) & Hdang & Hnames) & Hnd & Hk & Hsel).
  set (o := mkDFAState n false []).
  assert (Hrefs' : forall r, In r (Dict.values (states v ++ [(n, length (objs v))])) ->
                             r < length (objs v) \/ r = length (objs v)).
  { intros r Hr. unfold Dict.values in Hr. rewrite map_app in Hr.
    apply in_app_or in Hr. destruct Hr as [Hr|[<-|[]]]; auto. }
  assert (Hold : forall r, In r (state_refs v) ->
                           deref (objs v ++ [o]) r = deref (objs v) r)
    by (intros r Hr; apply deref_app_old; auto).
  assert (Hsub : forall r, In r (state_refs v) ->
                           In r (Dict.values (states v ++ [(n, length (objs v))]))).
  { intros r Hr. unfold Dict.values. rewrite map_app. apply in_or_app. now left. }
  assert (Hnd' : NoDup (Dict.keys (states v ++ [(n, length (objs v))]))).
  { unfold Dict.keys. rewrite map_app. apply NoDup_app; auto.
    - constructor; [simpl; tauto|constructor].
    - intros x Hx [<-|[]]. contradiction. }
  assert (Hk' : keyed_by_name
                  (with_states (objs v ++ [o]) (states v ++ [(n, length (objs v))]) v)).
  { intros k r Hin. simpl in *. apply in_app_or in Hin.
    destruct Hin as [Hin|[E|[]]].
    - rewrite Hold; [now apply Hk|]. unfold state_refs.
      apply DictFacts.In_values. eauto.
    - injection E as <- <-. now rewrite deref_alloc_new. }
  split; [|split; [exact Hnd'|split; [exact Hk'|]]].
  - split; [|split; [|split; [|split]]]; simpl; unfold state_refs; simpl.
    + intros r Hr. rewrite length_app. simpl.
      destruct (Hrefs' r Hr); lia.
    + intros r Hr. destruct (Hrefs' r Hr) as [Hlt| ->].
      * unfold Dict.values in Hr. rewrite map_app in Hr. apply in_app_or in Hr.
        destruct Hr as [Hr|[E|[]]]; [|simpl in E; lia].
        rewrite Hold by assumption. now apply Hkeys.
      * rewrite deref_alloc_new. simpl. constructor.
    + exists s. split; auto.
    + intros r label t Hr Hin.
      unfold state_refs, with_states in Hr, Hin. cbn [states objs] in Hr, Hin.
      destruct (Hrefs' r Hr) as [Hlt| ->].
      * unfold Dict.values in Hr. rewrite map_app in Hr. apply in_app_or in Hr.
        destruct Hr as [Hr|[E|[]]]; [|simpl in E; lia].
        rewrite Hold in Hin by assumption. apply Hsub. eapply Hdang; eauto.
      * rewrite deref_alloc_new in Hin. contradiction.
    + apply (keyed_names_unique
               (with_states (objs v ++ [o]) (states v ++ [(n, length (objs v))]) v));
        assumption.
  - simpl. intros s0 Hs0. apply Hsub. now apply Hsel.
Qed.

Lemma update_update (h : heap) r f g :
  update (update h r f) r g = update h r (fun o => g (f o)).
Proof.
  revert r; induction h as [|o h IH]; intros [|r]; simpl; auto. now rewrite IH.
Qed.

Lemma update_same (h : heap) r f :
  f (deref h r) = deref h r -> update h r f = h.
Proof.
  unfold deref. revert r; induction h as [|o h IH]; intros [|r]; simpl; auto.
  - now intros ->.
  - intros E. f_equal. auto.
Qed.

Lemma get_remove_other (d : list (string * ref)) k k' :
  k' <> k ->
  Dict.get string_dec k' (Dict.remove string_dec k d) = Dict.get string_dec k' d.
Proof.
  intros Hne. induction d as [|[k0 x0] d IH]; simpl; auto.
  destruct (string_dec k k0) as [->|Hk]; simpl.
  - destruct (string_dec k' k0); congruence.
  - destruct (string_dec k' k0); auto.
Qed.

Lemma remove_set_new (d : list (string * ref)) k x :
  ~ In k (Dict.keys d) ->
  Dict.remove string_dec k (Dict.set string_dec k x d) = d.
Proof.
  induction d as [|[k0 x0] d IH]; simpl; intros Hk.
  - destruct (string_dec k k); congruence.
  - destruct (string_dec k k0) as [->|Hne]; [tauto|]. simpl.
    destruct (string_dec k k0); [congruence|]. f_equal. apply IH. tauto.
Qed.

Lemma truthy_spec s : truthy s = true <-> s <> "".
Proof. destruct s; simpl; split; congruence. Qed.

(** Acceptance from the states of the automaton depends on the objects
    of those states only. *)
Lemma accepts_frame v h' :
  no_dangling v ->
  (forall r, In r (state_refs v) ->
             transitions (deref h' r) = transitions (deref (objs v) r) /\
             is_accepting (deref h' r) = is_accepting (deref (objs v) r)) ->
  forall w r, In r (state_refs v) -> accepts h' r w = accepts (objs v) r w.
Proof.
  intros Hdang Hsame. induction w as [|a w IH]; intros r Hr; simpl.
  - now apply Hsame.
  - unfold delta. destruct (Hsame r Hr) as [-> _].
    destruct (Dict.get string_dec a (transitions (deref (objs v) r))) as [t|] eqn:E; auto.
    apply IH. apply (Hdang r a t Hr). now apply DictFacts.get_In in E.
Qed.

Lemma simulate_same v v' :
  tokens v' = tokens v ->
  start_state v' = start_state v ->
  (forall s w, start_state v = Some s -> accepts (objs v') s w = accepts (objs v) s w) ->
  (exists s, start_state v = Some s) ->
  forall w, simulate v' w = simulate v w.
Proof.
  intros Ht Hs Hacc [s Hstart] w.
  destruct (tokens v) as [|tk tks] eqn:Et.
  - rewrite !simulate_unarmed; auto; left; congruence.
  - destruct w as [|a w].
    + rewrite !simulate_unarmed; auto.
    + rewrite (simulate_accepts v (a :: w) s), (simulate_accepts v' (a :: w) s);
        try congruence; try discriminate.
      f_equal. now apply Hacc.
Qed.

(** X2: on an editable canvas, "Add State" keeps the canvas editable and
    changes no verdict of the simulator. *)
Theorem add_state_keeps_verdicts c answer :
  editable (canvas c) ->
  editable (canvas (_add_state c answer)) /\
  forall w, simulate (canvas (_add_state c answer)) w = simulate (canvas c) w.
Proof.
  intros He. split; [now apply add_state_editable|].
  unfold _add_state.
  destruct (_get_state_name (canvas c) answer) as [n|] eqn:E; auto.
  unfold alloc. simpl.
  destruct He as ((Hrefs & _ & (s & Hs & Hsin) & Hdang & _) & _).
  apply simulate_same; simpl; auto; [|eauto].
  intros s0 w Hs0. assert (s0 = s) by congruence. subst s0.
  apply (accepts_frame (canvas c)); auto.
  intros r Hr. rewrite deref_app_old by auto. auto.
Qed.

(** X3: "Toggle Accepting" twice leaves everything as it was; once, it
    flips the accepting flag of the selected state and changes nothing
    else in the store. *)
Theorem toggle_accepting_involution c :
  _toggle_accepting (_toggle_accepting c) = c /\
  (forall s, selected_state (canvas c) = Some s -> s < length (objs (canvas c)) ->
     is_accepting (deref (objs (canvas (_toggle_accepting c))) s)
     = negb (is_accepting (deref (objs (canvas c)) s)) /\
     (forall r, transitions (deref (objs (canvas (_toggle_accepting c))) r)
                = transitions (deref (objs (canvas c)) r) /\
                name (deref (objs (canvas (_toggle_accepting c))) r)
                = name (deref (objs (canvas c)) r)) /\
     (forall r, r <> s -> deref (objs (canvas (_toggle_accepting c))) r
                          = deref (objs (canvas c)) r)).
Proof.
  split.
  - destruct c as [[h sts st cur step seq toks [s|]] m cr ts]; [|reflexivity].
    unfold _toggle_accepting. cbn. unfold with_canvas, with_objs. cbn.
    rewrite update_update. rewrite update_same; auto.
    destruct (deref h s) as [n a t]. unfold set_is_accepting. cbn.
    now rewrite negb_involutive.
  - intros s Hs Hlt. unfold _toggle_accepting. rewrite Hs.
    unfold with_canvas, with_objs. cbn [canvas objs].
    split; [now rewrite deref_update_same|]. split.
    + intros r. split.
      * destruct (Nat.eq_dec s r) as [->|Hne];
          [rewrite deref_update_same by assumption|rewrite deref_update_other by assumption];
          reflexivity.
      * now apply name_update_transitions.
    + intros r Hr. apply deref_update_other. congruence.
Qed.

Lemma toggle_accepting_editable c :
  editable (canvas c) -> editable (canvas (_toggle_accepting c)).
Proof.
  intros He. unfold _toggle_accepting.
  destruct (selected_state (canvas c)) as [s|] eqn:Hs; auto. cbn.
  pose proof He as ((Hrefs & Hkeys & _ & Hdang & _) & _).
  assert (Ht : forall r, transitions (deref (update (objs (canvas c)) s
                            (fun o => set_is_accepting (negb (is_accepting o)) o)) r)
                         = transitions (deref (objs (canvas c)) r)).
  { intros r. destruct (Nat.eq_dec s r) as [->|Hne].
    - destruct (Nat.lt_ge_cases r (length (objs (canvas c)))).
      + now rewrite deref_update_same.
      + now rewrite update_out_of_range.
    - now rewrite deref_update_other. }
  apply editable_with_objs; auto.
  - rewrite length_update. lia.
  - intros r _. now apply name_update_transitions.
  - intros r Hr. rewrite Ht. now apply Hkeys.
  - intros r label t Hr Hin. rewrite Ht in Hin. eapply Hdang; eauto.
Qed.

(** X4: what "Add Transition" followed by a click does.  The two creation
    fields are always cleared.  When a transition is being created from
    [source] and a non-empty label is entered, [source] gets the transition
    [label -> end_state], replacing the one it had on [label]; its other
    transitions, its name and flag, and all other objects are unchanged.
    In every other case the store is unchanged. *)
Theorem complete_transition_spec c end_state answer :
  creating_transition (_complete_transition c end_state answer) = false /\
  transition_start (_complete_transition c end_state answer) = None /\
  (forall source label,
      creating_transition c = true -> transition_start c = Some source ->
      answer = Some label -> label <> "" -> source < length (objs (canvas c)) ->
      let h' := objs (canvas (_complete_transition c end_state answer)) in
      delta h' source label = Some end_state /\
      (forall l, l <> label -> delta h' source l = delta (objs (canvas c)) source l) /\
      name (deref h' source) = name (deref (objs (canvas c)) source) /\
      is_accepting (deref h' source) = is_accepting (deref (objs (canvas c)) source) /\
      (forall r, r <> source -> deref h' r = deref (objs (canvas c)) r)) /\
  (creating_transition c = false \/ transition_start c = None \/
   answer = None \/ answer = Some "" ->
   canvas (_complete_transition c end_state answer) = canvas c).
Proof.
  split; [reflexivity|]. split; [reflexivity|]. split.
  - intros source label Hc Hs Ha Hl Hlt. cbv zeta.
    unfold _complete_transition. rewrite Hc, Hs, Ha.
    apply truthy_spec in Hl. rewrite Hl.
    unfold with_objs. cbn [canvas objs].
    assert (E : deref (update (objs (canvas c)) source (add_transition label end_state))
                  source
                = add_transition label end_state (deref (objs (canvas c)) source))
      by now apply deref_update_same.
    unfold delta. rewrite E.
    split; [apply DictFacts.get_set_same|].
    split; [intros l Hne; apply DictFacts.get_set_other; congruence|].
    split; [reflexivity|]. split; [reflexivity|].
    intros r Hr. apply deref_update_other. congruence.
  - intros H. unfold _complete_transition.
    destruct (creating_transition c); [|reflexivity].
    destruct (transition_start c); [|reflexivity].
    destruct answer as [label|]; [|reflexivity].
    destruct H as [H|[H|[H|H]]]; try discriminate.
    injection H as ->. reflexivity.
Qed.

Lemma complete_transition_editable c end_state answer :
  editable (canvas c) -> In end_state (state_refs (canvas c)) ->
  editable (canvas (_complete_transition c end_state answer)).
Proof.
  intros He Hend. unfold _complete_transition.
  destruct (creating_transition c); auto.
  destruct (transition_start c) as [source|]; auto.
  destruct answer as [label|]; auto.
  destruct (truthy label); auto. cbn.
  pose proof He as ((Hrefs & Hkeys & _ & Hdang & _) & _).
  apply editable_with_objs; auto.
  - rewrite length_update. lia.
  - intros r _. now apply name_update_transitions.
  - intros r Hr. rewrite transitions_update_add by auto.
    destruct (Nat.eq_dec source r); [apply DictFacts.NoDup_keys_set|]; auto.
  - intros r l t Hr Hin. rewrite transitions_update_add in Hin by auto.
    destruct (Nat.eq_dec source r).
    + apply DictFacts.In_set in Hin. destruct Hin as [[_ ->]|Hin]; auto.
      eapply Hdang; eauto.
    + eapply Hdang; eauto.
Qed.

(** X5: "Delete Transition".  With a state selected and the label of one
    of its transitions entered, that transition is gone and the other
    transitions of the state are as before; with no state selected, the
    dialog cancelled, an empty label or a label the state has no
    transition on, nothing changes. *)
Theorem delete_transition_spec c answer :
  (forall s label,
      selected_state (canvas c) = Some s -> answer = Some label -> label <> "" ->
      s < length (objs (canvas c)) ->
      NoDup (Dict.keys (transitions (deref (objs (canvas c)) s))) ->
      delta (objs (canvas c)) s label <> None ->
      let h' := objs (canvas (_delete_transition c answer)) in
      delta h' s label = None /\
      (forall l, l <> label -> delta h' s l = delta (objs (canvas c)) s l) /\
      (forall r, r <> s -> deref h' r = deref (objs (canvas c)) r)) /\
  (selected_state (canvas c) = None \/ answer = None \/ answer = Some "" \/
   (exists s label, selected_state (canvas c) = Some s /\ answer = Some label /\
                    delta (objs (canvas c)) s label = None) ->
   _delete_transition c answer = c).
Proof.
  split.
  - intros s label Hs Ha Hl Hlt Hnd Hd. cbv zeta.
    unfold _delete_transition. rewrite Hs, Ha.
    apply truthy_spec in Hl. rewrite Hl.
    assert (Hm : Dict.mem string_dec label (transitions (deref (objs (canvas c)) s)) = true).
    { unfold Dict.mem. unfold delta in Hd.
      destruct (Dict.get string_dec label (transitions (deref (objs (canvas c)) s)));
        congruence. }
    rewrite Hm. cbn [andb]. unfold with_canvas, with_objs. cbn [canvas objs].
    unfold delta. rewrite deref_update_same by assumption. cbn [transitions set_transitions].
    split; [now apply DictFacts.get_remove_same|].
    split; [intros l Hne; now apply get_remove_other|].
    intros r Hr. apply deref_update_other. congruence.
  - intros H. unfold _delete_transition.
    destruct (selected_state (canvas c)) as [s|] eqn:Hs; auto.
    destruct answer as [label|]; auto.
    destruct (truthy label) eqn:Et; auto. simpl.
    destruct H as [H|[H|[H|(s' & l' & H1 & H2 & H3)]]]; try discriminate.
    + injection H as ->. discriminate.
    + injection H1 as <-. injection H2 as <-. unfold delta in H3.
      unfold Dict.mem. now rewrite H3.
Qed.

Lemma delete_transition_editable c answer :
  editable (canvas c) -> editable (canvas (_delete_transition c answer)).
Proof.
  intros He. unfold _delete_transition.
  destruct (selected_state (canvas c)) as [s|] eqn:Hs; auto.
  destruct answer as [label|]; auto.
  destruct (truthy label && _); auto. cbn.
  pose proof He as ((Hrefs & Hkeys & _ & Hdang & _) & _).
  assert (Ht : forall r, r < length (objs (canvas c)) ->
             transitions (deref (update (objs (canvas c)) s
                (fun o => set_transitions (Dict.remove string_dec label (transitions o)) o)) r)
             = if Nat.eq_dec s r
               then Dict.remove string_dec label (transitions (deref (objs (canvas c)) r))
               else transitions (deref (objs (canvas c)) r)).
  { intros r Hr. destruct (Nat.eq_dec s r) as [->|Hne].
    - now rewrite deref_update_same.
    - now rewrite deref_update_other. }
  apply editable_with_objs; auto.
  - rewrite length_update. lia.
  - intros r _. now apply name_update_transitions.
  - intros r Hr. rewrite Ht by auto.
    destruct (Nat.eq_dec s r); [apply DictFacts.NoDup_keys_remove|]; auto.
  - intros r l t Hr Hin. rewrite Ht in Hin by auto.
    destruct (Nat.eq_dec s r).
    + apply DictFacts.In_remove in Hin. eapply Hdang; eauto.
    + eapply Hdang; eauto.
Qed.

(** X6: creating a transition on a label the selected state does not use
    yet and then deleting the transition on that label gives back the
    canvas as it was. *)
Theorem add_then_delete_transition c end_state label :
  label <> "" ->
  (exists s, selected_state (canvas c) = Some s /\
             delta (objs (canvas c)) s label = None) ->
  canvas (_delete_transition
            (_complete_transition (_start_transition c) end_state (Some label))
            (Some label))
  = canvas c.
Proof.
  intros Hl (s & Hs & Hd). apply truthy_spec in Hl.
  destruct c as [[h sts st cur step seq toks sel] m cr ts].
  cbn [canvas selected_state objs] in Hs, Hd. subst sel.
  unfold _start_transition. cbn [canvas selected_state].
  unfold _complete_transition.
  cbn [creating_transition transition_start canvas customization_mode].
  rewrite Hl. unfold _delete_transition, with_objs.
  cbn [canvas selected_state objs states start_state current_state animation_step
       animation_sequence tokens]. rewrite Hl.
  unfold delta in Hd.
  destruct (Nat.lt_ge_cases s (length h)) as [Hlt|Hge].
  - rewrite deref_update_same by assumption.
    assert (Hm : Dict.mem string_dec label
                   (transitions (add_transition label end_state (deref h s))) = true).
    { unfold Dict.mem, add_transition. cbn [transitions set_transitions].
      now rewrite DictFacts.get_set_same. }
    rewrite Hm. cbn [andb with_canvas canvas objs states start_state current_state
                     animation_step animation_sequence tokens selected_state].
    f_equal. rewrite update_update. apply update_same.
    unfold add_transition, set_transitions. cbn [transitions name is_accepting].
    apply DictFacts.get_None in Hd. rewrite remove_set_new by assumption.
    destruct (deref h s); reflexivity.
  - rewrite !update_out_of_range by assumption.
    unfold Dict.mem. rewrite Hd. reflexivity.
Qed.

Lemma delete_state_result v selected :
  selected_state v = Some selected ->
  start_state v <> Some selected ->
  Dict.get string_dec (name (deref (objs v) selected)) (states v) = Some selected ->
  _delete_state v
  = Some (mkVisualizer
            (objs (drop_loop selected (Dict.values (states v)) v))
            (Dict.remove string_dec (name (deref (objs v) selected)) (states v))
            (start_state v) (current_state v) (animation_step v)
            (animation_sequence v) (tokens v) None).
Proof.
  intros Hsel Hstart Hget.
  assert (Hneq : negb (option_ref_eqb (Some selected) (start_state v)) = true).
  { destruct (start_state v) as [s|]; simpl; auto.
    apply negb_true_iff, Nat.eqb_neq. congruence. }
  unfold _delete_state. rewrite Hsel, Hneq.
  destruct (drop_loop_fields selected (Dict.values (states v)) v) as (Hs1 & Hst1 & _).
  rewrite drop_loop_name, Hs1, Hst1.
  unfold Dict.del, Dict.mem. rewrite Hget.
  f_equal.
  generalize (Dict.values (states v)). intros l.
  assert (H : forall l u, current_state (drop_loop selected l u) = current_state u /\
                          animation_step (drop_loop selected l u) = animation_step u /\
                          animation_sequence (drop_loop selected l u) = animation_sequence u /\
                          tokens (drop_loop selected l u) = tokens u).
  { clear. induction l as [|a l IH]; intros u; simpl; auto.
    destruct (IH (with_objs (update (objs u) a (drop_transitions_to selected)) u))
      as (-> & -> & -> & ->). auto. }
  destruct (H l v) as (-> & -> & -> & ->). reflexivity.
Qed.

Lemma delete_state_editable v :
  editable v -> exists v', _delete_state v = Some v' /\ editable v' /\
                           start_state v' = start_state v.
Proof.
  intros He.
  destruct (selected_state v) as [sel|] eqn:Hsel.
  2:{ exists v. unfold _delete_state. rewrite Hsel. auto. }
  destruct (option_ref_eqb (Some sel) (start_state v)) eqn:Eq.
  { exists v. unfold _delete_state. rewrite Hsel, Eq. auto. }
  assert (Hstart : start_state v <> Some sel).
  { intros E. rewrite E in Eq. simpl in Eq. now rewrite Nat.eqb_refl in Eq. }
  pose proof (editable_selected_stored v sel He Hsel) as Hget.
  rewrite (delete_state_result v sel Hsel Hstart Hget).
  eexists. split; [reflexivity|]. split; [|reflexivity].
  destruct He as ((Hrefs & Hkeys & (s & Hs & Hsin) & Hdang & Hnames) & Hnd & Hk & Hselin).
  set (k := name (deref (objs v) sel)) in *.
  set (v1 := drop_loop sel (Dict.values (states v)) v).
  assert (Hsub : forall r, In r (Dict.values (Dict.remove string_dec k (states v))) ->
                           In r (state_refs v)).
  { intros r Hr. apply DictFacts.In_values in Hr. destruct Hr as [k' Hr].
    apply DictFacts.In_remove in Hr. apply DictFacts.In_values. eauto. }
  assert (Hkeep : forall r, In r (state_refs v) -> r <> sel ->
                            In r (Dict.values (Dict.remove string_dec k (states v)))).
  { intros r Hr Hne. unfold state_refs in Hr. apply DictFacts.In_values in Hr.
    destruct Hr as [k' Hr]. apply DictFacts.In_values. exists k'.
    apply DictFacts.In_remove_other; auto.
    intros ->. apply (DictFacts.In_get string_dec) in Hr; auto. congruence. }
  assert (Htr : forall r, In r (state_refs v) ->
             transitions (deref (objs v1) r)
             = filter (fun kv => negb (Nat.eqb (snd kv) sel))
                 (transitions (deref (objs v) r))).
  { intros r Hr. unfold v1. rewrite drop_loop_transitions.
    apply memb_In in Hr. unfold state_refs in Hr. now rewrite Hr. }
  assert (Hnd' : NoDup (Dict.keys (Dict.remove string_dec k (states v))))
    by now apply DictFacts.NoDup_keys_remove.
  assert (Hk' : forall k' r, In (k', r) (Dict.remove string_dec k (states v)) ->
                             name (deref (objs v1) r) = k').
  { intros k' r Hin. unfold v1. rewrite drop_loop_name. apply Hk.
    eapply DictFacts.In_remove; eauto. }
  split; [|split; [exact Hnd'|split; [exact Hk'|discriminate]]].
  split; [|split; [|split; [|split]]]; unfold state_refs; simpl.
  - intros r Hr. unfold v1. rewrite drop_loop_length. apply Hrefs, Hsub, Hr.
  - intros r Hr. rewrite Htr by (apply Hsub, Hr). apply keys_filter_NoDup.
    apply Hkeys, Hsub, Hr.
  - exists s. split; auto. apply Hkeep; auto. congruence.
  - intros r label t Hr Hin. unfold state_refs in Hr. simpl in Hr.
    pose proof (Hsub r Hr) as Hr0.
    rewrite Htr in Hin by exact Hr0. apply filter_In in Hin. destruct Hin as [Hin Hne].
    simpl in Hne. apply negb_true_iff, Nat.eqb_neq in Hne.
    apply Hkeep; auto. eapply Hdang; eauto.
  - apply (keyed_names_unique
             (mkVisualizer (objs v1) (Dict.remove string_dec k (states v))
                (start_state v) (current_state v) (animation_step v)
                (animation_sequence v) (tokens v) None)); assumption.
Qed.

Lemma clicked_state_In sts tags state :
  clicked_state sts tags = Some state -> In state (Dict.values sts).
Proof.
  induction tags as [|tag rest IH]; simpl; [discriminate|].
  destruct (Dict.get string_dec tag sts) as [x|] eqn:E; auto.
  intros H. injection H as <-. apply DictFacts.get_In in E.
  apply DictFacts.In_values. eauto.
Qed.

Lemma editable_with_selected v sel :
  editable v -> (forall s, sel = Some s -> In s (state_refs v)) ->
  editable (with_selected sel v).
Proof. intros (Hwf & Hnd & Hk & _) Hs. repeat split; auto; apply Hwf. Qed.

(** X7: a click on the canvas does nothing outside customization mode;
    in customization mode, with no transition being created, it selects the
    state stored under the first clicked tag that is a key of
    [self.states], and changes nothing when there is no such tag. *)
Theorem on_click_spec c clicked answer :
  (customization_mode c = false -> _on_click c clicked answer = c) /\
  (customization_mode c = true -> creating_transition c = false ->
   forall tags, clicked = Some tags ->
     match clicked_state (states (canvas c)) tags with
     | Some state =>
         selected_state (canvas (_on_click c clicked answer)) = Some state /\
         In state (state_refs (canvas c)) /\
         (exists tag, In tag tags /\
                      Dict.get string_dec tag (states (canvas c)) = Some state) /\
         objs (canvas (_on_click c clicked answer)) = objs (canvas c) /\
         states (canvas (_on_click c clicked answer)) = states (canvas c)
     | None => _on_click c clicked answer = c
     end).
Proof.
  split.
  - intros Hm. unfold _on_click. now rewrite Hm.
  - intros Hm Hc tags ->. unfold _on_click. rewrite Hm, Hc. simpl.
    destruct (clicked_state (states (canvas c)) tags) as [state|] eqn:E; auto.
    split; [reflexivity|]. split; [eapply clicked_state_In; eauto|].
    split; [|split; reflexivity].
    clear -E. induction tags as [|tag rest IH]; simpl in E; [discriminate|].
    destruct (Dict.get string_dec tag (states (canvas c))) as [x|] eqn:Eg.
    + injection E as <-. exists tag. split; [now left|auto].
    + destruct (IH E) as (t & Ht & Hg). exists t. split; [now right|auto].
Qed.

Lemma on_click_editable c clicked answer :
  editable (canvas c) -> editable (canvas (_on_click c clicked answer)).
Proof.
  intros He. unfold _on_click.
  destruct (customization_mode c); simpl; auto.
  destruct clicked as [tags|]; auto.
  destruct (clicked_state (states (canvas c)) tags) as [state|] eqn:E; auto.
  apply clicked_state_In in E.
  destruct (creating_transition c) eqn:Ec.
  - now apply complete_transition_editable.
  - simpl. apply editable_with_selected; auto.
    intros s Hs. injection Hs as <-. exact E.
Qed.

Lemma toggle_customization_mode_editable c var :
  editable (canvas c) -> editable (canvas (_toggle_customization_mode c var)).
Proof.
  intros He. unfold _toggle_customization_mode. destruct var; simpl; auto.
  apply editable_with_selected; auto. discriminate.
Qed.

Lemma start_transition_canvas c : canvas (_start_transition c) = canvas c.
Proof. unfold _start_transition. destruct (selected_state (canvas c)); reflexivity. Qed.

Lemma complete_transition_start c end_state answer :
  start_state (canvas (_complete_transition c end_state answer))
  = start_state (canvas c).
Proof.
  unfold _complete_transition. cbn [canvas].
  destruct (creating_transition c); auto.
  destruct (transition_start c); auto. destruct answer as [l|]; auto.
  destruct (truthy l); auto.
Qed.

Lemma on_click_start c clicked answer :
  start_state (canvas (_on_click c clicked answer)) = start_state (canvas c).
Proof.
  unfold _on_click. destruct (customization_mode c); simpl; auto.
  destruct clicked as [tags|]; auto.
  destruct (clicked_state _ _); auto.
  destruct (creating_transition c); auto.
  apply complete_transition_start.
Qed.

Lemma apply_edit_editable e c :
  editable (canvas c) ->
  exists c', apply_edit e c = Some c' /\ editable (canvas c') /\
             start_state (canvas c') = start_state (canvas c).
Proof.
  intros He. destruct e as [clicked answer|answer| | | |answer|var]; simpl.
  - eexists. split; [reflexivity|]. split; [now apply on_click_editable|].
    apply on_click_start.
  - eexists. split; [reflexivity|]. split; [now apply add_state_editable|].
    unfold _add_state. destruct (_get_state_name _ _); auto.
  - destruct (delete_state_editable (canvas c) He) as (v' & -> & Hv' & Hs).
    eexists. split; [reflexivity|]. auto.
  - eexists. split; [reflexivity|]. split; [now apply toggle_accepting_editable|].
    unfold _toggle_accepting. destruct (selected_state _); auto.
  - eexists. split; [reflexivity|]. now rewrite start_transition_canvas.
  - eexists. split; [reflexivity|]. split; [now apply delete_transition_editable|].
    unfold _delete_transition. destruct (selected_state _); auto.
    destruct answer as [l|]; auto. destruct (_ && _); auto.
  - eexists. split; [reflexivity|].
    split; [now apply toggle_customization_mode_editable|].
    unfold _toggle_customization_mode. destruct var; auto.
Qed.

Lemma init_editable : editable (canvas init).
Proof.
  unfold init. cbn [canvas]. split; [|split; [|split]].
  - unfold well_formed. split; [|split; [|split; [|split]]].
    + intros r [<-|[]]; simpl; lia.
    + intros r [<-|[]]; simpl; constructor.
    + exists 0. split; [reflexivity|]. simpl. auto.
    + apply no_danglingb_sound. reflexivity.
    + intros x y [<-|[]] [<-|[]]; reflexivity.
  - simpl. distinct_keys.
  - intros k r [E|[]]. injection E as <- <-. reflexivity.
  - discriminate.
Qed.

(** X8: whatever the user does on the customization panel and the canvas
    (clicks, "Add State", "Delete State", "Toggle Accepting", "Add
    Transition", "Delete Transition", the mode switch, with any dialog
    answers), starting from an editable canvas no callback raises a
    [KeyError], the
    canvas stays editable (a well-formed automaton, so no transition ever
    dangles, stored under distinct keys that are the states' names, with a
    selection that is one of the states) and the start state stays the
    same object. *)
Theorem edits_keep_editable es :
  forall c,
    editable (canvas c) ->
    exists c', apply_edits es c = Some c' /\ editable (canvas c') /\
               no_dangling (canvas c') /\
               start_state (canvas c') = start_state (canvas c).
Proof.
  induction es as [|e es IH]; intros c He; simpl.
  - exists c. split; [reflexivity|]. split; [exact He|].
    split; [apply He|reflexivity].
  - destruct (apply_edit_editable e c He) as (c1 & -> & He1 & Hs1).
    destruct (IH c1 He1) as (c' & Hc' & He' & Hd' & Hs').
    exists c'. split; [exact Hc'|]. split; [exact He'|].
    split; [exact Hd'|congruence].
Qed.

(* ------------------------------------------------------------------ *)
(** ** The automaton [update_dfa] builds *)

Lemma In_set_NoDup (d : list (string * ref)) k x k' x' :
  NoDup (Dict.keys d) ->
  In (k', x') (Dict.set string_dec k x d) ->
  (k' = k /\ x' = x) \/ (k' <> k /\ In (k', x') d).
Proof.
  intros Hnd Hin. destruct (string_dec k' k) as [->|Hne].
  - left. split; auto.
    apply (DictFacts.In_get string_dec) in Hin; [|now apply DictFacts.NoDup_keys_set].
    rewrite DictFacts.get_set_same in Hin. congruence.
  - right. split; auto. apply DictFacts.In_set in Hin.
    destruct Hin as [[? _]|?]; [contradiction|auto].
Qed.

Lemma In_keys_set (d : list (string * ref)) k x k' :
  In k' (Dict.keys (Dict.set string_dec k x d)) <-> k' = k \/ In k' (Dict.keys d).
Proof.
  rewrite DictFacts.keys_set. destruct (Dict.mem string_dec k d) eqn:E.
  - apply mem_In in E. split; [auto|]. intros [->|?]; auto.
  - rewrite in_app_iff. simpl. intuition.
Qed.

Lemma token_states_step n h sts seen t :
  token_states_ok n h sts seen ->
  token_states_ok n
    (update (h ++ [mkDFAState t true []]) n (add_transition t (length h)))
    (Dict.set string_dec t (length h) sts)
    (fun x => x = t \/ seen x).
Proof.
  intros (Hn & Hname & Hacc & Hnd & Hnds & Hkeys & Htr & Hsts).
  set (h1 := h ++ [mkDFAState t true []]).
  assert (Hn1 : n < length h1) by (unfold h1; rewrite length_app; simpl; lia).
  assert (Hstart : deref (update h1 n (add_transition t (length h))) n
                   = add_transition t (length h) (deref h n)).
  { rewrite deref_update_same by assumption. unfold h1.
    now rewrite deref_app_old. }
  assert (Hother : forall r, r <> n -> r < length h ->
             deref (update h1 n (add_transition t (length h))) r = deref h r).
  { intros r Hr Hlt. rewrite deref_update_other by congruence.
    unfold h1. now apply deref_app_old. }
  assert (Hnew : deref (update h1 n (add_transition t (length h))) (length h)
                 = mkDFAState t true []).
  { rewrite deref_update_other by lia. unfold h1. apply deref_alloc_new. }
  unfold token_states_ok. rewrite Hstart, length_update.
  unfold add_transition at 1 2 3 4 5 6. cbn [name is_accepting transitions set_transitions].
  split; [exact Hn1|]. split; [exact Hname|]. split; [exact Hacc|].
  split; [now apply DictFacts.NoDup_keys_set|].
  split; [now apply DictFacts.NoDup_keys_set|].
  split; [intros x; rewrite In_keys_set, Hkeys; reflexivity|].
  split.
  - intros t' r Hin. apply In_set_NoDup in Hin; auto.
    destruct Hin as [[-> ->]|[Hne Hin]].
    + split; [lia|]. split; [unfold h1; rewrite length_app; simpl; lia|].
      split; [exact Hnew|]. apply DictFacts.get_set_same.
    + destruct (Htr t' r Hin) as (H1 & H2 & H3 & H4).
      split; [exact H1|]. split; [unfold h1; rewrite length_app; simpl; lia|].
      split; [rewrite Hother by lia; exact H3|].
      rewrite DictFacts.get_set_other by congruence. exact H4.
  - intros k r Hin. apply In_set_NoDup in Hin; auto.
    destruct Hin as [[-> ->]|[Hne Hin]].
    + right. apply DictFacts.In_set_new.
    + destruct (Hsts k r Hin) as [(-> & -> & Hs)|Hin'].
      * left. split; auto. split; auto. intros [E|E]; [congruence|contradiction].
      * right. now apply DictFacts.In_set_old.
Qed.

Lemma add_token_states_ok token_types :
  forall n h sts seen h' sts',
    token_states_ok n h sts seen ->
    add_token_states token_types n h sts = (h', sts') ->
    token_states_ok n h' sts' (fun x => In x token_types \/ seen x).
Proof.
  induction token_types as [|t rest IH]; intros n h sts seen h' sts' Hok E; simpl in E.
  - injection E as <- <-.
    destruct Hok as (H1 & H2 & H3 & H4 & H5 & H6 & H7 & H8).
    repeat (split; [assumption|]). split; [|split; [exact H7|]].
    + intros t. rewrite H6. simpl. tauto.
    + intros k r Hin. destruct (H8 k r Hin) as [(-> & -> & Hs)|?]; auto.
      left. simpl. tauto.
  - apply (IH _ _ _ _ _ _ (token_states_step n h sts seen t Hok)) in E.
    destruct E as (H1 & H2 & H3 & H4 & H5 & H6 & H7 & H8).
    repeat (split; [assumption|]). split; [|split; [exact H7|]].
    + intros x. rewrite H6. simpl. intuition.
    + intros k r Hin. destruct (H8 k r Hin) as [(-> & -> & Hs)|?]; auto.
      left. split; auto. split; auto. simpl. intros [[E|E]|E]; apply Hs; auto.
Qed.

Section UpdateDfa.
Variable str_set_iter : list string -> list string.
Hypothesis str_set_iter_In : forall l x, In x (str_set_iter l) <-> In x l.
Variable v : DFAVisualizer.
Variable toks : list Token.

Local Abbreviation v' := (update_dfa str_set_iter v toks).
Local Abbreviation n := (length (objs v)).

Lemma update_dfa_ok :
  start_state v' = Some n /\
  token_states_ok n (objs v') (states v') (fun t => In t (map type toks)).
Proof.
  unfold update_dfa, alloc.
  destruct (add_token_states _ _ _ _) as [h2 sts2] eqn:E. simpl.
  split; [reflexivity|].
  apply add_token_states_ok with (seen := fun _ => False) in E.
  - destruct E as (H1 & H2 & H3 & H4 & H5 & H6 & H7 & H8).
    repeat (split; [assumption|]). split; [|split; [exact H7|]].
    + intros t. rewrite H6, str_set_iter_In. tauto.
    + intros k r Hin. destruct (H8 k r Hin) as [(-> & -> & Hs)|?]; auto.
      left. split; auto. split; auto. intros Hin'. apply Hs. left.
      now apply str_set_iter_In.
  - unfold token_states_ok. rewrite deref_alloc_new, length_app. simpl.
    split; [lia|]. split; [reflexivity|]. split; [reflexivity|].
    split; [constructor|]. split; [constructor; [simpl; tauto|constructor]|].
    split; [tauto|]. split; [intros ? ? []|].
    intros k r [E'|[]]. injection E' as <- <-. left. tauto.
Qed.

Lemma update_dfa_accepts w :
  accepts (objs v') n w = true <-> exists tok, In tok toks /\ w = [type tok].
Proof.
  destruct update_dfa_ok as (_ & Hn & Hname & Hacc & Hnd & _ & Hkeys & Htr & _).
  destruct w as [|a w]; simpl.
  - rewrite Hacc. split; [discriminate|]. intros (tok & _ & H). discriminate.
  - unfold delta.
    destruct (Dict.get string_dec a (transitions (deref (objs v') n))) as [r|] eqn:E.
    + pose proof E as Hin. apply DictFacts.get_In in Hin.
      destruct (Htr a r Hin) as (_ & _ & Hr & _).
      assert (Ha : In a (map type toks)).
      { apply Hkeys. eapply DictFacts.get_Some_key; eauto. }
      apply in_map_iff in Ha. destruct Ha as (tok & Ht & Htok).
      destruct w as [|b w]; simpl.
      * rewrite Hr. simpl. split; auto. intros _. exists tok. now rewrite Ht.
      * unfold delta. rewrite Hr. simpl. split; [discriminate|].
        intros (tok' & _ & H). discriminate.
    + apply DictFacts.get_None in E. split; [discriminate|].
      intros (tok & Htok & H). injection H as -> ->. exfalso. apply E.
      apply Hkeys. now apply in_map.
Qed.

(** X9: the automaton [update_dfa] builds accepts, from its start state,
    exactly the one-symbol sequences made of the type of one of the
    tokens: never the empty sequence, never a sequence of two symbols, and
    never a symbol that is no token's type. *)
Theorem update_dfa_language w :
  start_state v' = Some n /\
  (accepts (objs v') n w = true <-> exists tok, In tok toks /\ w = [type tok]).
Proof.
  split; [exact (proj1 update_dfa_ok)|apply update_dfa_accepts].
Qed.

(** X10: the automaton [update_dfa] builds is well formed exactly when no
    token has the type "START" (a token of that type takes the start
    state's place in [self.states]).  When it is well formed, its states
    are stored under distinct keys that are their names, and the canvas is
    editable provided no state was selected before the call. *)
Theorem update_dfa_well_formed :
  (well_formed v' <-> ~ In "START" (map type toks)) /\
  (~ In "START" (map type toks) ->
   NoDup (Dict.keys (states v')) /\ keyed_by_name v' /\
   (selected_state v = None -> editable v')).
Proof.
  destruct update_dfa_ok as (Hstart & Hn & Hname & Hacc & Hnd & Hnds & Hkeys & Htr & Hsts).
  assert (Hrefs : forall r, In r (state_refs v') ->
                            r = n \/ exists t, In (t, r) (transitions (deref (objs v') n))).
  { intros r Hr. unfold state_refs in Hr. apply DictFacts.In_values in Hr.
    destruct Hr as [k Hr]. destruct (Hsts k r Hr) as [(_ & -> & _)|?]; eauto. }
  assert (Hneg : In "START" (map type toks) -> ~ In n (state_refs v')).
  { intros Hin Hr. unfold state_refs in Hr. apply DictFacts.In_values in Hr.
    destruct Hr as [k Hr]. destruct (Hsts k n Hr) as [(_ & _ & Hs)|Hin'].
    - contradiction.
    - destruct (Htr k n Hin') as (Hlt & _). lia. }
  assert (Hpos : ~ In "START" (map type toks) ->
                 well_formed v' /\ NoDup (Dict.keys (states v')) /\ keyed_by_name v').
  { intros Hno.
    assert (Hk : keyed_by_name v').
    { intros k r Hin. destruct (Hsts k r Hin) as [(-> & -> & _)|Hin']; auto.
      destruct (Htr k r Hin') as (_ & _ & -> & _). reflexivity. }
    split; [|split; assumption].
    split; [|split; [|split; [|split]]].
    - intros r Hr. destruct (Hrefs r Hr) as [->|[t Ht]]; auto.
      now destruct (Htr t r Ht) as (_ & ? & _).
    - intros r Hr. destruct (Hrefs r Hr) as [->|[t Ht]]; auto.
      destruct (Htr t r Ht) as (_ & _ & -> & _). constructor.
    - exists n. split; auto.
      destruct (in_dec Nat.eq_dec n (state_refs v')) as [?|Hnin]; auto. exfalso.
      (* the start state was stored under "START" and nothing replaced it *)
      revert Hnin. unfold update_dfa, alloc.
      destruct (add_token_states _ _ _ _) as [h2 sts2] eqn:E. simpl.
      intros Hnin. clear -E Hno Hnin str_set_iter_In.
      assert (G : forall tys h sts h2 sts2,
                 add_token_states tys n h sts = (h2, sts2) ->
                 ~ In "START" tys ->
                 Dict.get string_dec "START" sts = Some n ->
                 Dict.get string_dec "START" sts2 = Some n).
      { clear. induction tys as [|t tys IH]; intros h sts h2 sts2 E Hno Hg; simpl in E.
        - now injection E as <- <-.
        - apply (IH _ _ _ _ E); [intros Hin; apply Hno; now right|].
          rewrite DictFacts.get_set_other; [exact Hg|].
          intros ->. apply Hno. now left. }
      apply Hnin. unfold state_refs. simpl. apply DictFacts.In_values. exists "START".
      apply (DictFacts.get_In string_dec).
      apply (G _ _ _ _ _ E).
      + intros Hin. apply Hno. now apply str_set_iter_In.
      + apply DictFacts.get_set_same.
    - intros r label t Hr Hin. destruct (Hrefs r Hr) as [->|[t' Ht']].
      + destruct (Htr label t Hin) as (_ & _ & _ & Hg).
        unfold state_refs. apply DictFacts.In_values. exists label.
        now apply (DictFacts.get_In string_dec).
      + destruct (Htr t' r Ht') as (_ & _ & Hd & _). rewrite Hd in Hin. contradiction.
    - now apply keyed_names_unique. }
  split.
  - split.
    + intros (_ & _ & (s & Hs & Hin) & _) Hst. rewrite Hstart in Hs.
      injection Hs as <-. now apply Hneg.
    + intros Hno. now apply Hpos.
  - intros Hno. destruct (Hpos Hno) as (Hwf & Hnd' & Hk).
    split; [exact Hnd'|]. split; [exact Hk|].
    intros Hsel. split; [exact Hwf|]. split; [exact Hnd'|]. split; [exact Hk|].
    intros s Hs. unfold update_dfa, alloc in Hs.
    destruct (add_token_states _ _ _ _) in Hs. simpl in Hs. congruence.
Qed.
End UpdateDfa.

(* ------------------------------------------------------------------ *)
(** ** [on_editor_change] *)

Section EditorChange.
Variable tokenize : string -> list Token.
Variable str_set_iter : list string -> list string.
Hypothesis str_set_iter_In : forall l x, In x (str_set_iter l) <-> In x l.

Local Abbreviation changed := (on_editor_change tokenize str_set_iter).

Lemma str_set_iter_nil : str_set_iter [] = [].
Proof.
  destruct (str_set_iter []) as [|x l] eqn:E; auto.
  assert (H : In x (str_set_iter [])) by (rewrite E; now left).
  exact (match proj1 (str_set_iter_In [] x) H with end).
Qed.

Lemma update_dfa_fields v toks :
  tokens (update_dfa str_set_iter v toks) = toks /\
  animation_sequence (update_dfa str_set_iter v toks) = animation_sequence v /\
  animation_step (update_dfa str_set_iter v toks) = 0 /\
  current_state (update_dfa str_set_iter v toks) = Some (length (objs v)) /\
  start_state (update_dfa str_set_iter v toks) = Some (length (objs v)).
Proof.
  unfold update_dfa, alloc. destruct (add_token_states _ _ _ _). simpl. auto.
Qed.

(** X11: when the editor is emptied, the automaton is rebuilt with the
    start state alone and no tokens; the symbol sequence loaded before is
    left in place, and "Step" does nothing from then on. *)
Theorem editor_cleared_disarms_step app :
  let app' := changed "" app in
  app_tokens app' = [] /\
  tokens (dfa_visualizer app') = [] /\
  states (dfa_visualizer app') = [("START", length (objs (dfa_visualizer app)))] /\
  animation_sequence (dfa_visualizer app') = animation_sequence (dfa_visualizer app) /\
  step_animation (dfa_visualizer app') = (dfa_visualizer app', None) /\
  forall k, run k (dfa_visualizer app') = None.
Proof.
  cbv zeta. unfold on_editor_change. cbn [truthy negb app_tokens dfa_visualizer].
  destruct (update_dfa_fields (dfa_visualizer app) []) as (Ht & Hs & _).
  split; [reflexivity|]. split; [exact Ht|].
  split; [unfold update_dfa, alloc; cbn [map]; now rewrite str_set_iter_nil|].
  split; [exact Hs|].
  assert (Hstep : step_animation (update_dfa str_set_iter (dfa_visualizer app) [])
                  = (update_dfa str_set_iter (dfa_visualizer app) [], None))
    by (apply step_animation_unarmed; now right).
  split; [exact Hstep|].
  induction k as [|k IH]; simpl; auto. now rewrite Hstep.
Qed.

End EditorChange.

(* ------------------------------------------------------------------ *)
(** ** More on the simulator *)

Lemma step_animation_fields v :
  objs (fst (step_animation v)) = objs v /\
  states (fst (step_animation v)) = states v /\
  start_state (fst (step_animation v)) = start_state v /\
  animation_sequence (fst (step_animation v)) = animation_sequence v /\
  tokens (fst (step_animation v)) = tokens v /\
  selected_state (fst (step_animation v)) = selected_state v.
Proof.
  unfold step_animation.
  destruct (is_nil (animation_sequence v) || is_nil (tokens v)); [simpl; auto 6|].
  destruct (length (animation_sequence v) <=? animation_step v)%nat; [simpl; auto 6|].
  match goal with |- context [if ?b then _ else _] => destruct b end; simpl; auto 6.
Qed.

Lemma step_animation_cursor v :
  animation_step v <= length (animation_sequence v) ->
  animation_step (fst (step_animation v)) <= length (animation_sequence v) /\
  (snd (step_animation v) <> None ->
   animation_step v < length (animation_sequence v)).
Proof.
  intros Hle. unfold step_animation.
  destruct (is_nil (animation_sequence v) || is_nil (tokens v)); [simpl; split; [auto|congruence]|].
  destruct (length (animation_sequence v) <=? animation_step v)%nat eqn:E;
    [simpl; split; [lia|congruence]|].
  apply Nat.leb_gt in E.
  match goal with |- context [if ?b then _ else _] => destruct b end; simpl; split; auto.
Qed.

Lemma steps_fields k :
  forall v,
    animation_step v <= length (animation_sequence v) ->
    animation_step (steps k v) <= length (animation_sequence (steps k v)) /\
    objs (steps k v) = objs v /\
    states (steps k v) = states v /\
    start_state (steps k v) = start_state v /\
    animation_sequence (steps k v) = animation_sequence v /\
    tokens (steps k v) = tokens v /\
    selected_state (steps k v) = selected_state v.
Proof.
  induction k as [|k IH]; intros v Hle; simpl; [auto 8|].
  destruct (step_animation_fields v) as (H1 & H2 & H3 & H4 & H5 & H6).
  destruct (step_animation_cursor v Hle) as [Hc _].
  rewrite <- H4 in Hc.
  destruct (IH _ Hc) as (G0 & G1 & G2 & G3 & G4 & G5 & G6).
  repeat split; congruence.
Qed.

(** X13: the cursor never passes the end of the symbol sequence: if it is
    within the sequence (or just past its last symbol), it still is after
    any number of clicks on "Step"; and no click changes the automaton, the
    sequence, the tokens or the selection. *)
Theorem steps_keep_cursor_in_range k v :
  animation_step v <= length (animation_sequence v) ->
  animation_step (steps k v) <= length (animation_sequence (steps k v)) /\
  objs (steps k v) = objs v /\
  states (steps k v) = states v /\
  start_state (steps k v) = start_state v /\
  animation_sequence (steps k v) = animation_sequence v /\
  tokens (steps k v) = tokens v /\
  selected_state (steps k v) = selected_state v.
Proof. apply steps_fields. Qed.

Lemma steps_walk suf :
  forall pre u c t,
    animation_sequence u = pre ++ suf ->
    animation_step u = length pre ->
    current_state u = Some c ->
    tokens u <> [] ->
    walk (objs u) c suf = Some t ->
    animation_step (steps (length suf) u) = length (pre ++ suf) /\
    current_state (steps (length suf) u) = Some t /\
    with_sequence (pre ++ suf) (reset_animation (steps (length suf) u))
    = reset_animation u.
Proof.
  induction suf as [|a suf IH]; intros pre u c t Hseq Hstep Hcur Htok Hw.
  - simpl in *. injection Hw as <-. rewrite app_nil_r in *.
    split; [exact Hstep|]. split; [exact Hcur|].
    destruct u; simpl in *. subst. reflexivity.
  - simpl in Hw. destruct (delta (objs u) c a) as [r|] eqn:Ed; [|discriminate].
    simpl steps.
    assert (Hs : fst (step_animation u)
                 = mkVisualizer (objs u) (states u) (start_state u) (Some r)
                     (S (length pre)) (animation_sequence u) (tokens u)
                     (selected_state u)).
    { unfold step_animation. rewrite Hseq, Hstep, Hcur.
      destruct (tokens u) as [|tk tks] eqn:Et; [congruence|].
      assert (Enil : is_nil (pre ++ a :: suf) = false) by (destruct pre; reflexivity).
      rewrite Enil. cbn [orb is_nil].
      assert (Elt : (length (pre ++ a :: suf) <=? length pre)%nat = false).
      { apply Nat.leb_gt. rewrite length_app. simpl. lia. }
      rewrite Elt.
      assert (Enth : nth (length pre) (pre ++ a :: suf) "" = a).
      { rewrite app_nth2, Nat.sub_diag by lia. reflexivity. }
      rewrite Enth. unfold delta in Ed. rewrite Ed.
      match goal with |- context [if ?b then _ else _] => destruct b end; reflexivity. }
    rewrite Hs.
    match goal with
    | |- context [steps _ ?u'] =>
        destruct (IH (pre ++ [a]) u' r t) as (G1 & G2 & G3)
    end; simpl; auto.
    + rewrite Hseq. now rewrite <- app_assoc.
    + rewrite length_app. simpl. lia.
    + rewrite <- app_assoc in G1, G3. simpl in G1, G3.
      split; [exact G1|]. split; [exact G2|]. rewrite G3.
      unfold reset_animation. simpl. reflexivity.
Qed.

(** X14: the animation is periodic on a sequence the automaton can
    follow to its end.  With tokens loaded, a non-empty sequence [w] loaded
    and reset, if every symbol of [w] has a transition along the way from
    the start state, then [len(w)] clicks on "Step" bring the cursor to
    [len(w)] and the current state to the state [w] leads to, and one more
    click gives back the visualizer as it was after the reset. *)
Theorem animation_is_periodic v w s t :
  tokens v <> [] -> w <> [] -> start_state v = Some s ->
  walk (objs v) s w = Some t ->
  let v0 := reset_animation (with_sequence w v) in
  animation_step (steps (length w) v0) = length w /\
  current_state (steps (length w) v0) = Some t /\
  steps (S (length w)) v0 = v0.
Proof.
  intros Ht Hw Hs Hwalk. cbv zeta.
  set (v0 := reset_animation (with_sequence w v)).
  destruct (steps_walk w [] v0 s t) as (G1 & G2 & G3); auto.
  split; [exact G1|]. split; [exact G2|].
  replace (S (length w)) with (length w + 1) by lia.
  assert (Hplus : forall a b u, steps (a + b) u = steps b (steps a u)).
  { induction a as [|a IHa]; intros b u; simpl; auto. }
  rewrite Hplus. simpl steps.
  destruct (steps_fields (length w) v0) as (_ & F1 & F2 & F3 & F4 & F5 & F6);
    [simpl; lia|].
  rewrite step_animation_past_end.
  - simpl fst. clear G3 Hplus.
    unfold v0 in *. unfold reset_animation, with_sequence in *.
    destruct (steps (length w) _); simpl in *. subst. reflexivity.
  - rewrite F4. simpl. assumption.
  - rewrite F5. simpl. assumption.
  - rewrite G1, F4. simpl. lia.
Qed.

(** X21: a run of the simulator decides acceptance.  With tokens loaded
    and a non-empty symbol sequence [w], clicking "Step" after a reset
    prints its first verdict within [len(w)] clicks, and that verdict is
    "accepted" exactly when the automaton has a transition for every symbol
    of [w] in turn from the start state and ends in an accepting state;
    without a start state the verdict is "rejected". *)
Theorem simulator_decides_acceptance v w :
  tokens v <> [] -> w <> [] ->
  (forall s, start_state v = Some s ->
             simulate v w = Some (accepts (objs v) s w)) /\
  (start_state v = None -> simulate v w = Some false).
Proof.
  intros Ht Hw. split.
  - intros s Hs. now apply simulate_accepts.
  - intros Hs. unfold simulate. destruct w as [|a w]; [congruence|].
    simpl run. unfold step_animation. simpl.
    destruct (tokens v) as [|tk tks]; [congruence|]. simpl.
    rewrite Hs. simpl. now rewrite orb_true_r.
Qed.

(* ------------------------------------------------------------------ *)
(** ** [minimize_dfa] leaves the automaton it is given alone *)

Lemma relabel_start_frame ns hb (ms : list (string * ref)) h' ms' :
  relabel_start (Some ns) hb ms = Some (h', ms') ->
  length h' = length hb /\
  (forall r, r <> ns -> deref h' r = deref hb r) /\
  (forall k m, In (k, m) ms' -> In (k, m) ms \/ m = ns).
Proof.
  unfold relabel_start. intros H.
  destruct (Dict.get string_dec "START" ms) as [m0|] eqn:Eg.
  - destruct (negb (Nat.eqb m0 ns)).
    + unfold Dict.del in H.
      destruct (Dict.mem _ _ _); [|discriminate].
      injection H as <- <-.
      split; [apply length_update|]. split.
      * intros r Hr. apply deref_update_other. congruence.
      * intros k m Hin. apply DictFacts.In_remove in Hin.
        apply DictFacts.In_set in Hin. destruct Hin as [[_ ->]|Hin]; auto.
    + injection H as <- <-. auto.
  - injection H as <- <-.
    split; [apply length_update|]. split.
    + intros r Hr. apply deref_update_other. congruence.
    + intros k m Hin.
      apply DictFacts.In_set in Hin. destruct Hin as [[_ ->]|Hin]; auto.
Qed.

Section MinimizeFrame.
Variable set_iter : list ref -> list ref.
Hypothesis set_iter_In : forall l x, In x (set_iter l) <-> In x l.
Hypothesis set_iter_NoDup : forall l, NoDup (set_iter l).
Variable v : DFAVisualizer.
Hypothesis Hwf : well_formed v.

(** X15: [minimize_dfa] never touches the automaton it minimizes.  For a
    well-formed automaton, whenever it returns, every object that existed
    before is unchanged (name, accepting flag and transitions), and every
    state of the returned dict is an object created by the call.  So no state
    of the original is a state of the result, and after "Minimize DFA" the
    simulator's [current_state] and the editor's [selected_state], which the
    click leaves as they were, do not refer to a state of the automaton
    shown. *)
Theorem minimize_dfa_leaves_input fuel h' ms' :
  minimize_dfa set_iter fuel v = Returns (h', ms') ->
  length (objs v) <= length h' /\
  (forall r, r < length (objs v) -> deref h' r = deref (objs v) r) /\
  (forall m, In m (Dict.values ms') -> length (objs v) <= m < length h') /\
  (forall r, In r (state_refs v) -> ~ In r (Dict.values ms')) /\
  (forall v', _on_minimize_button_click set_iter fuel v = Returns v' ->
              current_state v' = current_state v /\
              selected_state v' = selected_state v /\
              animation_step v' = animation_step v /\
              forall r, In r (state_refs v) -> ~ In r (state_refs v')).
Proof.
  intros Hret.
  destruct (final_partitions set_iter fuel v) as [R|] eqn:HR;
    [|unfold minimize_dfa in Hret; rewrite HR in Hret; discriminate].
  pose proof Hwf as (Hrefs & Hkeys & (s & Hstart & Hs) & Hclosed & Hnames).
  destruct (final_partitions_stable set_iter set_iter_In set_iter_NoDup v fuel R HR)
    as (Hpart & _ & _).
  destruct (build_minimized_spec v R Hrefs Hpart) as (b & Hb & Hmin).
  destruct (find_new_start_spec v R b s Hpart Hmin Hs) as (ns & Hfind & Hns).
  unfold minimize_dfa in Hret. rewrite HR, Hb, Hstart, Hfind in Hret.
  destruct (relabel_start (Some ns) (m_objs b) (minimized_states b))
    as [[h1 ms1]|] eqn:Hrel; [|discriminate].
  injection Hret as <- <-.
  destruct (relabel_start_frame _ _ _ _ _ Hrel) as (Hlen & Hother & Hent).
  destruct (state_block v R Hpart s Hs) as (j & blk & Hj & Hin).
  destruct (minimized_of_block v R b Hmin j blk s Hj Hin) as (m & H1 & _ & H3 & H4 & _).
  assert (m = ns) by congruence. subst m.
  pose proof Hmin as (Hle & Hold & _).
  assert (Hnew : forall m, In m (Dict.values ms1) ->
                           length (objs v) <= m < length h1).
  { intros m Hm. apply DictFacts.In_values in Hm. destruct Hm as [k Hk].
    rewrite Hlen. destruct (Hent k m Hk) as [Hk'| ->]; [|lia].
    destruct (minimized_states_entry v R b Hmin k m Hk')
      as (_ & Hlt & j' & blk' & Hj' & Hne' & _ & Hg').
    destruct Hmin as (_ & _ & _ & Hblk & _).
    destruct (Hblk j' blk' Hj' Hne') as (m' & G1 & G2 & _).
    assert (m' = m) by congruence. subst m'. lia. }
  assert (Hfresh : forall r, In r (state_refs v) -> ~ In r (Dict.values ms1)).
  { intros r Hr Hm. apply Hnew in Hm. apply Hrefs in Hr. lia. }
  split; [lia|]. split.
  { intros r Hr. rewrite Hother by lia. now apply Hold. }
  split; [exact Hnew|]. split; [exact Hfresh|].
  intros v' Hv'. unfold _on_minimize_button_click, minimize_dfa in Hv'.
  rewrite HR, Hb, Hstart, Hfind, Hrel in Hv'. injection Hv' as <-.
  simpl. repeat split. exact Hfresh.
Qed.
End MinimizeFrame.

(* ------------------------------------------------------------------ *)
(** ** The tokenizer *)

Lemma get_in_range pos s :
  pos < String.length s -> exists c, String.get pos s = Some c.
Proof.
  revert pos. induction s as [|a s IH]; intros pos H; simpl in *; [lia|].
  destruct pos as [|pos]; [eauto|]. apply IH. lia.
Qed.

Lemma contains_rindex c s :
  contains c s = true -> exists i, rindex c s = Some i.
Proof.
  induction s as [|a s IH]; simpl; [discriminate|].
  intros H. destruct (rindex c s) as [i|]; [eauto|].
  destruct (Ascii.eqb a c); [eauto|]. simpl in H.
  destruct (IH H) as [i Hi]. discriminate.
Qed.

Lemma contains_slice_from c pos s :
  contains c s = false -> contains c (slice_from pos s) = false.
Proof.
  revert s. induction pos as [|pos IH]; intros s H; simpl; auto.
  destruct s as [|a s]; auto. simpl in H.
  apply orb_false_iff in H. apply IH, H.
Qed.

Lemma contains_prefix c v s :
  prefix v s = true -> contains c s = false -> contains c v = false.
Proof.
  revert s. induction v as [|a v IH]; intros s Hp Hc; simpl; auto.
  destruct s as [|b s]; simpl in Hp; [discriminate|].
  destruct (ascii_dec a b) as [->|]; [|discriminate].
  simpl in Hc. apply orb_false_iff in Hc. destruct Hc as [-> Hc].
  simpl. eapply IH; eauto.
Qed.

Lemma substring_slice_from v pos s :
  prefix v (slice_from pos s) = true ->
  substring pos (String.length v) s = v.
Proof.
  revert s. induction pos as [|pos IH]; intros s H; simpl in H.
  - now apply prefix_correct.
  - destruct s as [|a s].
    + destruct v; [reflexivity|discriminate].
    + simpl. now apply IH.
Qed.

Lemma substring_get pos s c :
  String.get pos s = Some c -> substring pos 1 s = String c EmptyString.
Proof.
  revert pos. induction s as [|a s IH]; intros pos H; simpl in H.
  - destruct pos; discriminate.
  - destruct pos as [|pos]; simpl.
    + injection H as ->. destruct s; reflexivity.
    + now apply IH.
Qed.

Section TokenizeFacts.
Variable re_match : string -> string -> option string.
Variable lx : Lexer.
Variable text : string.

Lemma first_match_In pats rest token_type value0 :
  first_match re_match pats rest = Some (token_type, value0) ->
  exists pattern, In (token_type, pattern) pats /\
                  re_match pattern rest = Some value0.
Proof.
  induction pats as [|[tt pat] pats IH]; simpl; [discriminate|].
  destruct (re_match pat rest) as [v0|] eqn:E.
  - intros H. injection H as <- <-. eauto.
  - intros H. destruct (IH H) as (pattern & Hin & Hm). eauto.
Qed.

Lemma on_match_spec token_type0 value0 l :
  exists l',
    on_match lx token_type0 value0 l = Finished l' /\
    l_pos l' = l_pos l + String.length value0 /\
    (l_tokens l' = l_tokens l \/
     (token_type0 <> "whitespace" /\ token_type0 <> "comment" /\
      l_tokens l'
      = l_tokens l ++ [mkToken (token_type_of lx token_type0 value0) value0
                         (l_line l) (l_column l)])) /\
    (contains newline value0 = false ->
     l_line l' = l_line l /\
     l_column l' = l_column l + String.length value0).
Proof.
  unfold on_match, token_type_of.
  destruct (String.eqb token_type0 "whitespace") eqn:Ew.
  - apply String.eqb_eq in Ew. subst token_type0. cbn [negb andb].
    change (String.eqb "whitespace" "whitespace") with true. cbn [andb].
    destruct (contains newline value0) eqn:Ec.
    + destruct (contains_rindex _ _ Ec) as [i ->].
      eexists. split; [reflexivity|]. simpl. split; [reflexivity|].
      split; [auto|discriminate].
    + eexists. split; [reflexivity|]. simpl. auto.
  - apply String.eqb_neq in Ew. cbn [negb andb].
    destruct (String.eqb token_type0 "comment") eqn:Ecm; cbn [negb andb].
    + apply String.eqb_neq in Ew. rewrite Ew. cbn [andb].
      eexists. split; [reflexivity|]. simpl. auto.
    + apply String.eqb_neq in Ecm.
      set (tt := if String.eqb token_type0 "identifier" then _ else _).
      assert (Ett : String.eqb tt "whitespace" = false).
      { apply String.eqb_neq. unfold tt.
        destruct (String.eqb token_type0 "identifier"); [|assumption].
        destruct (str_memb value0 (keywords lx)); [discriminate|].
        destruct (str_memb value0 (operators lx)); [discriminate|assumption]. }
      rewrite Ett. cbn [andb].
      eexists. split; [reflexivity|]. simpl. split; [reflexivity|].
      split; [right; auto|auto].
Qed.

Lemma on_no_match_spec l :
  l_pos l < String.length text ->
  exists c,
    String.get (l_pos l) text = Some c /\
    on_no_match lx text l
    = Finished (mkLocals
                  (l_tokens l ++
                   [mkToken (if str_memb (String c EmptyString) (operators lx)
                             then "operator" else "unknown")
                      (String c EmptyString) (l_line l) (l_column l)])
                  (l_line l) (l_column l + 1) (l_pos l + 1)).
Proof.
  intros H. destruct (get_in_range _ _ H) as [c Hc]. exists c.
  split; [exact Hc|]. unfold on_no_match. rewrite Hc.
  destruct (str_memb _ _); reflexivity.
Qed.

Lemma tokenize_body_finishes l :
  l_pos l < String.length text ->
  exists l', tokenize_body re_match lx text l = Finished l'.
Proof.
  intros H. unfold tokenize_body.
  destruct (first_match _ _ _) as [[tt v0]|].
  - destruct (on_match_spec tt v0 l) as (l' & Hl' & _). eauto.
  - destruct (on_no_match_spec l H) as (c & _ & Hl'). eauto.
Qed.

Lemma tokenize_loop_never_raises fuel :
  forall l e, tokenize_loop re_match fuel lx text l <> Raised e.
Proof.
  induction fuel as [|fuel IH]; intros l e; simpl; [discriminate|].
  destruct (l_pos l <? String.length text)%nat eqn:E; [|discriminate].
  apply Nat.ltb_lt in E.
  destruct (tokenize_body_finishes l E) as [l' ->]. apply IH.
Qed.

Lemma tokenize_loop_invariant (I : Locals -> Prop) :
  (forall l l', I l -> l_pos l < String.length text ->
                tokenize_body re_match lx text l = Finished l' -> I l') ->
  forall fuel l toks,
    I l -> tokenize_loop re_match fuel lx text l = Finished toks ->
    exists l', I l' /\ l_tokens l' = toks.
Proof.
  intros Hstep. induction fuel as [|fuel IH]; intros l toks Hl; simpl;
    [discriminate|].
  destruct (l_pos l <? String.length text)%nat eqn:E.
  - apply Nat.ltb_lt in E.
    destruct (tokenize_body re_match lx text l) as [l'| |] eqn:Eb;
      try discriminate.
    apply IH. eapply Hstep; eauto.
  - intros H. injection H as <-. eauto.
Qed.

Lemma tokenize_loop_more_fuel fuel :
  forall fuel' l toks,
    tokenize_loop re_match fuel lx text l = Finished toks -> fuel <= fuel' ->
    tokenize_loop re_match fuel' lx text l = Finished toks.
Proof.
  induction fuel as [|fuel IH]; intros fuel' l toks; simpl; [discriminate|].
  intros H Hle. destruct fuel' as [|fuel']; [lia|]. simpl.
  destruct (l_pos l <? String.length text)%nat; [|exact H].
  destruct (tokenize_body re_match lx text l) as [l'| |]; try discriminate.
  apply IH; [exact H|lia].
Qed.

(** X16: [tokenize] raises nothing, and of what it returns: no token has
    the type "whitespace" or "comment"; the type of a token is the name of
    one of the patterns, or "keyword", "operator" or "unknown"; and a token
    of type "identifier" is neither a keyword nor an operator of the
    language. *)
Theorem tokenize_token_types fuel :
  (forall e, tokenize re_match fuel lx text <> Raised e) /\
  (forall toks,
      tokenize re_match fuel lx text = Finished toks ->
      forall tok, In tok toks ->
        type tok <> "whitespace" /\ type tok <> "comment" /\
        (In (type tok) (Dict.keys (patterns lx)) \/
         In (type tok) ["keyword"; "operator"; "unknown"]) /\
        (type tok = "identifier" ->
         str_memb (value tok) (keywords lx) = false /\
         str_memb (value tok) (operators lx) = false)).
Proof.
  split; [intros e; apply tokenize_loop_never_raises|].
  intros toks H.
  set (P := fun tok =>
              type tok <> "whitespace" /\ type tok <> "comment" /\
              (In (type tok) (Dict.keys (patterns lx)) \/
               In (type tok) ["keyword"; "operator"; "unknown"]) /\
              (type tok = "identifier" ->
               str_memb (value tok) (keywords lx) = false /\
               str_memb (value tok) (operators lx) = false)).
  destruct (tokenize_loop_invariant (fun l => Forall P (l_tokens l)))
    with (fuel := fuel) (l := mkLocals [] 1 1 0) (toks := toks)
    as (l' & Hl' & <-); [|constructor|exact H|].
  - intros l l' Hl Hpos Hb. unfold tokenize_body in Hb.
    destruct (first_match _ _ _) as [[tt v0]|] eqn:Ef.
    + destruct (on_match_spec tt v0 l) as (l1 & E1 & _ & [Ht|(Hw & Hc & Ht)] & _);
        rewrite E1 in Hb; injection Hb as <-; rewrite Ht; [exact Hl|].
      apply Forall_app. split; [exact Hl|]. constructor; [|constructor].
      destruct (first_match_In _ _ _ _ Ef) as (pat & Hin & _).
      assert (Hk : In tt (Dict.keys (patterns lx)))
        by (unfold Dict.keys; apply in_map_iff; exists (tt, pat); auto).
      unfold P, token_type_of. simpl.
      destruct (String.eqb tt "identifier") eqn:Ei.
      * destruct (str_memb v0 (keywords lx)) eqn:Ek;
          [repeat split; try discriminate; simpl; auto|].
        destruct (str_memb v0 (operators lx)) eqn:Eo;
          [repeat split; try discriminate; simpl; auto|].
        repeat split; auto.
      * apply String.eqb_neq in Ei. repeat split; auto; contradiction.
    + destruct (on_no_match_spec l Hpos) as (c & _ & E1).
      rewrite E1 in Hb. injection Hb as <-. simpl.
      apply Forall_app. split; [exact Hl|]. constructor; [|constructor].
      unfold P. destruct (str_memb _ _); simpl;
        repeat split; try discriminate; auto.
  - intros tok Htok. exact (proj1 (Forall_forall _ _) Hl' tok Htok).
Qed.

(** X17: with rules none of whose patterns matches the empty string (the
    built-in rules of the three languages are such), [tokenize] returns:
    at most [len(text)] iterations of its loop do, whatever the text.  It
    returns at most [len(text)] tokens, none with an empty value. *)
Theorem tokenize_terminates :
  (forall token_type pattern rest,
      In (token_type, pattern) (patterns lx) ->
      re_match pattern rest <> Some EmptyString) ->
  exists toks,
    (forall fuel, String.length text < fuel ->
                  tokenize re_match fuel lx text = Finished toks) /\
    length toks <= String.length text /\
    (forall tok, In tok toks -> value tok <> EmptyString).
Proof.
  intros Hne.
  assert (Hbody : forall l l',
             l_pos l < String.length text ->
             tokenize_body re_match lx text l = Finished l' ->
             l_pos l < l_pos l' /\
             (l_tokens l' = l_tokens l \/
              exists tok, l_tokens l' = l_tokens l ++ [tok] /\
                          value tok <> EmptyString)).
  { intros l l' Hpos Hb. unfold tokenize_body in Hb.
    destruct (first_match _ _ _) as [[tt v0]|] eqn:Ef.
    - destruct (first_match_In _ _ _ _ Ef) as (pat & Hin & Hm).
      assert (Hv : v0 <> EmptyString)
        by (intros ->; exact (Hne _ _ _ Hin Hm)).
      destruct (on_match_spec tt v0 l) as (l1 & E1 & Hp & Ht & _).
      rewrite E1 in Hb. injection Hb as <-. split.
      + rewrite Hp. destruct v0; [congruence|simpl; lia].
      + destruct Ht as [Ht|(_ & _ & Ht)]; [auto|]. right. eexists. split; eauto.
    - destruct (on_no_match_spec l Hpos) as (c & _ & E1).
      rewrite E1 in Hb. injection Hb as <-. simpl. split; [lia|].
      right. eexists. split; [reflexivity|].
      destruct (str_memb _ _); simpl; discriminate. }
  assert (Hloop : forall fuel l,
             String.length text - l_pos l < fuel ->
             exists toks,
               tokenize_loop re_match fuel lx text l = Finished toks /\
               length toks
               <= length (l_tokens l) + (String.length text - l_pos l)).
  { induction fuel as [|fuel IH]; intros l Hf; [lia|]. simpl.
    destruct (l_pos l <? String.length text)%nat eqn:E.
    - apply Nat.ltb_lt in E.
      destruct (tokenize_body_finishes l E) as [l' Hl']. rewrite Hl'.
      destruct (Hbody l l' E Hl') as [Hp Ht].
      destruct (IH l') as (toks & Htoks & Hlen); [lia|].
      exists toks. split; [exact Htoks|].
      assert (length (l_tokens l') <= S (length (l_tokens l))).
      { destruct Ht as [->|(tok & -> & _)]; [lia|].
        rewrite length_app. simpl. lia. }
      lia.
    - eexists. split; [reflexivity|]. lia. }
  destruct (Hloop (S (String.length text)) (mkLocals [] 1 1 0)) as (toks & Htoks & Hlen);
    [simpl; lia|].
  exists toks. split; [|split].
  - intros fuel Hf. unfold tokenize.
    apply (tokenize_loop_more_fuel _ _ _ _ Htoks). lia.
  - simpl in Hlen. lia.
  - destruct (tokenize_loop_invariant
                (fun l => Forall (fun tok => value tok <> EmptyString) (l_tokens l)))
      with (fuel := S (String.length text)) (l := mkLocals [] 1 1 0) (toks := toks)
      as (l' & Hl' & <-); [|constructor|exact Htoks|].
    + intros l l' Hl Hpos Hb.
      destruct (Hbody l l' Hpos Hb) as [_ [->|(tok & -> & Hv)]]; [exact Hl|].
      apply Forall_app. split; [exact Hl|]. constructor; [exact Hv|constructor].
    + intros tok Htok. exact (proj1 (Forall_forall _ _) Hl' tok Htok).
Qed.

(** X18: [tokenize] does not return when the first pattern that matches
    at a position it reaches matches the empty string there ([pos += 0]):
    from then on every iteration finds the loop at the same position.
    [tokenize] starts the loop with no tokens at line 1, column 1 and
    position 0, so it cannot return on a text at whose start this
    happens. *)
Theorem tokenize_hangs_on_empty_match l token_type :
  l_pos l < String.length text ->
  first_match re_match (patterns lx) (slice_from (l_pos l) text)
  = Some (token_type, EmptyString) ->
  forall fuel, tokenize_loop re_match fuel lx text l = Unfinished.
Proof.
  intros Hpos Hm fuel. revert l Hpos Hm.
  induction fuel as [|fuel IH]; intros l Hpos Hm; simpl; [reflexivity|].
  assert (E : (l_pos l <? String.length text)%nat = true) by now apply Nat.ltb_lt.
  rewrite E. unfold tokenize_body. rewrite Hm.
  destruct (on_match_spec token_type EmptyString l) as (l' & -> & Hp & _).
  simpl in Hp. rewrite Nat.add_0_r in Hp.
  apply IH; rewrite Hp; assumption.
Qed.

(** X19: on a text of one line the tokens carry their positions.  When
    what a pattern matches is a prefix of the text it is matched against
    (as [match.group(0)] of [re.match] is) and the text has no newline,
    every token returned has line 1, and its value is the slice of the text
    that starts at its column (counted from 1) and has its length. *)
Theorem tokenize_positions fuel toks :
  (forall pattern rest value0,
      re_match pattern rest = Some value0 -> prefix value0 rest = true) ->
  contains newline text = false ->
  tokenize re_match fuel lx text = Finished toks ->
  forall tok, In tok toks ->
    line tok = 1 /\ 1 <= column tok /\
    substring (column tok - 1) (String.length (value tok)) text = value tok.
Proof.
  intros Hprefix Hnl H.
  set (Q := fun tok =>
              line tok = 1 /\ 1 <= column tok /\
              substring (column tok - 1) (String.length (value tok)) text
              = value tok).
  destruct (tokenize_loop_invariant
              (fun l => l_line l = 1 /\ l_column l = 1 + l_pos l /\
                        Forall Q (l_tokens l)))
    with (fuel := fuel) (l := mkLocals [] 1 1 0) (toks := toks)
    as (l' & (_ & _ & Hl') & <-); [|simpl; auto|exact H|].
  - intros l l' (Hline & Hcol & Hl) Hpos Hb. unfold tokenize_body in Hb.
    destruct (first_match _ _ _) as [[tt v0]|] eqn:Ef.
    + destruct (first_match_In _ _ _ _ Ef) as (pat & _ & Hm).
      apply Hprefix in Hm.
      assert (Hc : contains newline v0 = false).
      { eapply contains_prefix; [exact Hm|]. now apply contains_slice_from. }
      destruct (on_match_spec tt v0 l) as (l1 & E1 & Hp & Ht & Hlc).
      rewrite E1 in Hb. injection Hb as <-.
      destruct (Hlc Hc) as [Hl1 Hc1].
      split; [congruence|]. split; [lia|].
      destruct Ht as [->|(_ & _ & ->)]; [exact Hl|].
      apply Forall_app. split; [exact Hl|]. constructor; [|constructor].
      unfold Q. simpl. split; [exact Hline|]. split; [lia|].
      rewrite Hcol. replace (1 + l_pos l - 1) with (l_pos l) by lia.
      now apply substring_slice_from.
    + destruct (on_no_match_spec l Hpos) as (c & Hg & E1).
      rewrite E1 in Hb. injection Hb as <-. simpl.
      split; [exact Hline|]. split; [lia|].
      apply Forall_app. split; [exact Hl|]. constructor; [|constructor].
      unfold Q. destruct (str_memb _ _); simpl;
        (split; [exact Hline|]; split; [lia|]);
        rewrite Hcol; replace (1 + l_pos l - 1) with (l_pos l) by lia;
        now apply substring_get.
  - intros tok Htok. exact (proj1 (Forall_forall _ _) Hl' tok Htok).
Qed.
End TokenizeFacts.

(* ------------------------------------------------------------------ *)
(** ** Suggestions *)

Section SuggestionFacts.
Variable isalnum : ascii -> bool.

Lemma find_word_start_spec text :
  forall cursor_pos,
    cursor_pos <= String.length text ->
    exists word_start,
      find_word_start isalnum text cursor_pos = Some word_start /\
      word_start <= cursor_pos /\
      (forall i, word_start <= i < cursor_pos ->
                 exists c, String.get i text = Some c /\ isalnum c = true) /\
      (word_start = 0 \/
       exists c, String.get (word_start - 1) text = Some c /\ isalnum c = false).
Proof.
  induction cursor_pos as [|n IH]; intros Hle; simpl.
  - exists 0. split; [reflexivity|]. split; [lia|]. split; [intros i Hi; lia|auto].
  - destruct (get_in_range n text) as [c Hc]; [lia|]. rewrite Hc.
    destruct (isalnum c) eqn:Ea.
    + destruct IH as (ws & Hws & Hle' & Hall & Hbefore); [lia|].
      exists ws. split; [exact Hws|]. split; [lia|]. split; [|exact Hbefore].
      intros i Hi. destruct (Nat.eq_dec i n) as [->|Hne]; [eauto|].
      apply Hall. lia.
    + exists (S n). split; [reflexivity|]. split; [lia|].
      split; [intros i Hi; lia|]. right. exists c.
      simpl. rewrite Nat.sub_0_r. auto.
Qed.

(** X20: [get_suggestions] with the cursor inside the text raises no
    [IndexError] and returns exactly the keywords and operators that start
    with the word before the cursor: the longest run of alphanumeric
    characters that ends at the cursor.  A string that is both a keyword and
    an operator is returned twice. *)
Theorem get_suggestions_spec lx text cursor_pos :
  cursor_pos <= String.length text ->
  exists word_start suggestions,
    get_suggestions isalnum lx text cursor_pos = Some suggestions /\
    word_start <= cursor_pos /\
    (forall i, word_start <= i < cursor_pos ->
               exists c, String.get i text = Some c /\ isalnum c = true) /\
    (word_start = 0 \/
     exists c, String.get (word_start - 1) text = Some c /\ isalnum c = false) /\
    let current_word := substring word_start (cursor_pos - word_start) text in
    (forall s, In s suggestions <->
               (In s (keywords lx) \/ In s (operators lx)) /\
               prefix current_word s = true) /\
    length suggestions
    = length (filter (prefix current_word) (keywords lx))
      + length (filter (prefix current_word) (operators lx)).
Proof.
  intros Hle.
  destruct (find_word_start_spec text cursor_pos Hle)
    as (ws & Hws & Hle' & Hall & Hbefore).
  exists ws. unfold get_suggestions. rewrite Hws.
  eexists. split; [reflexivity|]. split; [exact Hle'|].
  split; [exact Hall|]. split; [exact Hbefore|]. cbv zeta. split.
  - intros s. rewrite sorted_In, in_app_iff, !filter_In. tauto.
  - rewrite sorted_length, length_app. reflexivity.
Qed.
End SuggestionFacts.

(* ------------------------------------------------------------------ *)
(** ** A selection that outlives its automaton *)

Lemma add_token_states_frame token_types :
  forall n h sts h' sts',
    add_token_states token_types n h sts = (h', sts') ->
    forall r, r < length h -> r <> n -> deref h' r = deref h r.
Proof.
  induction token_types as [|t rest IH]; intros n h sts h' sts' E r Hr Hne;
    simpl in E.
  - now injection E as <- <-.
  - rewrite (IH _ _ _ _ _ E r).
    + rewrite deref_update_other by congruence. now apply deref_app_old.
    + rewrite length_update, length_app. simpl. lia.
    + exact Hne.
Qed.

Lemma add_token_states_keeps_start token_types :
  forall n h sts h' sts',
    add_token_states token_types n h sts = (h', sts') ->
    ~ In "START" token_types ->
    Dict.get string_dec "START" sts = Some n ->
    Dict.get string_dec "START" sts' = Some n.
Proof.
  induction token_types as [|t rest IH]; intros n h sts h' sts' E Hno Hg;
    simpl in E.
  - now injection E as <- <-.
  - apply (IH _ _ _ _ _ E); [intros Hin; apply Hno; now right|].
    rewrite DictFacts.get_set_other; [exact Hg|].
    intros ->. apply Hno. now left.
Qed.

Lemma delete_state_stored v selected x :
  selected_state v = Some selected ->
  start_state v <> Some selected ->
  Dict.get string_dec (name (deref (objs v) selected)) (states v) = Some x ->
  exists v',
    _delete_state v = Some v' /\
    objs v' = objs (drop_loop selected (Dict.values (states v)) v) /\
    states v'
    = Dict.remove string_dec (name (deref (objs v) selected)) (states v) /\
    start_state v' = start_state v.
Proof.
  intros Hsel Hstart Hget.
  assert (Hneq : negb (option_ref_eqb (Some selected) (start_state v)) = true).
  { destruct (start_state v) as [s|]; simpl; auto.
    apply negb_true_iff, Nat.eqb_neq. congruence. }
  unfold _delete_state. rewrite Hsel, Hneq.
  destruct (drop_loop_fields selected (Dict.values (states v)) v) as (Hs1 & Hst1 & _).
  rewrite drop_loop_name, Hs1, Hst1.
  unfold Dict.del, Dict.mem. rewrite Hget.
  eexists. split; [reflexivity|]. simpl. auto.
Qed.

Section StaleSelection.
Variable str_set_iter : list string -> list string.
Hypothesis str_set_iter_In : forall l x, In x (str_set_iter l) <-> In x l.
Variable v : DFAVisualizer.
Variable toks : list Token.

Local Abbreviation v' := (update_dfa str_set_iter v toks).
Local Abbreviation n := (length (objs v)).

Lemma update_dfa_frame r :
  r < n -> deref (objs v') r = deref (objs v) r /\
           selected_state v' = selected_state v.
Proof.
  intros Hr. unfold update_dfa, alloc.
  destruct (add_token_states _ _ _ _) as [h2 sts2] eqn:E. simpl.
  split; [|reflexivity].
  rewrite (add_token_states_frame _ _ _ _ _ _ E r).
  - now apply deref_app_old.
  - rewrite length_app. simpl. lia.
  - lia.
Qed.

Lemma update_dfa_start_stored :
  ~ In "START" (map type toks) ->
  Dict.get string_dec "START" (states v') = Some n.
Proof.
  intros Hno. unfold update_dfa, alloc.
  destruct (add_token_states _ _ _ _) as [h2 sts2] eqn:E. simpl.
  apply (add_token_states_keeps_start _ _ _ _ _ _ E).
  - intros Hin. apply Hno. now apply str_set_iter_In.
  - apply DictFacts.get_set_same.
Qed.

(** X22: [update_dfa] leaves [selected_state] as it was.  A state that
    was selected on the canvas is then no state of the new automaton, and
    what "Delete State" does next goes by its name: when the name is
    neither "START" nor the type of a token, [del self.states[...]] raises
    [KeyError]; otherwise the state of the new automaton that has this name
    is taken out of [self.states] in its place, and the automaton left is
    not well formed (its start state is no longer among its states, or the
    start state keeps its transition into the state taken out). *)
Theorem stale_selection_after_update sel :
  selected_state v = Some sel -> sel < length (objs v) ->
  selected_state v' = Some sel /\
  ~ In sel (state_refs v') /\
  (~ In (name (deref (objs v) sel)) ("START" :: map type toks) ->
   _delete_state v' = None) /\
  (In (name (deref (objs v) sel)) ("START" :: map type toks) ->
   exists v'',
     _delete_state v' = Some v'' /\
     states v''
     = Dict.remove string_dec (name (deref (objs v) sel)) (states v') /\
     ~ well_formed v'').
Proof.
  intros Hsel Hlt.
  destruct (update_dfa_frame sel Hlt) as [Hold Hsel'].
  destruct (update_dfa_ok str_set_iter str_set_iter_In v toks)
    as (Hstart & Hn & Hname & Hacc & Hnd & Hnds & Hkeys & Htr & Hsts).
  set (k := name (deref (objs v) sel)) in *.
  assert (Hrefs : forall r, In r (state_refs v') -> n <= r).
  { intros r Hr. unfold state_refs in Hr. apply DictFacts.In_values in Hr.
    destruct Hr as [k' Hr]. destruct (Hsts k' r Hr) as [(_ & -> & _)|Hin]; [lia|].
    destruct (Htr k' r Hin) as (? & _). lia. }
  assert (Hsel2 : selected_state v' = Some sel) by congruence.
  assert (Hne : start_state v' <> Some sel).
  { rewrite Hstart. intros E. injection E as E. lia. }
  split; [exact Hsel2|]. split; [intros Hin; apply Hrefs in Hin; lia|].
  assert (Hkey : forall k', In k' (Dict.keys (states v')) ->
                            In k' ("START" :: map type toks)).
  { intros k' Hk. unfold Dict.keys in Hk. apply in_map_iff in Hk.
    destruct Hk as ([k0 r] & <- & Hin). simpl.
    destruct (Hsts k0 r Hin) as [(-> & _)|Hin']; [now left|].
    right. apply Hkeys. unfold Dict.keys. apply in_map_iff.
    exists (k0, r). auto. }
  split.
  - intros Hno. unfold _delete_state. rewrite Hsel2.
    assert (Hneq : negb (option_ref_eqb (Some sel) (start_state v')) = true).
    { rewrite Hstart. simpl. apply negb_true_iff, Nat.eqb_neq. lia. }
    rewrite Hneq.
    destruct (drop_loop_fields sel (Dict.values (states v')) v') as (Hs1 & _).
    rewrite drop_loop_name, Hs1, Hold. fold k.
    unfold Dict.del.
    destruct (Dict.mem string_dec k (states v')) eqn:Em; [|reflexivity].
    apply mem_In in Em. now apply Hkey in Em.
  - intros Hin.
    assert (Hstored : exists x, Dict.get string_dec k (states v') = Some x).
    { destruct (in_dec string_dec "START" (map type toks)) as [Hst|Hno].
      - assert (Hk : In k (map type toks)).
        { destruct Hin as [<-|?]; assumption. }
        apply Hkeys in Hk. unfold Dict.keys in Hk. apply in_map_iff in Hk.
        destruct Hk as ([k0 r] & E & Hk). simpl in E. subst k0.
        destruct (Htr k r Hk) as (_ & _ & _ & Hg). eauto.
      - destruct Hin as [<-|Hk].
        + exists n. now apply update_dfa_start_stored.
        + apply Hkeys in Hk. unfold Dict.keys in Hk. apply in_map_iff in Hk.
          destruct Hk as ([k0 r] & E & Hk). simpl in E. subst k0.
          destruct (Htr k r Hk) as (_ & _ & _ & Hg). eauto. }
    destruct Hstored as [x Hx].
    assert (Hx' : Dict.get string_dec (name (deref (objs v') sel)) (states v')
                  = Some x) by (rewrite Hold; exact Hx).
    destruct (delete_state_stored v' sel x Hsel2 Hne Hx')
      as (v'' & Hdel & Hobjs & Hsts'' & Hstart'').
    rewrite Hold in Hsts''. fold k in Hsts''.
    exists v''. split; [exact Hdel|]. split; [exact Hsts''|].
    intros (_ & _ & (s & Hs & Hsin) & Hdang & _).
    rewrite Hstart'', Hstart in Hs. injection Hs as <-.
    unfold state_refs in Hsin. rewrite Hsts'' in Hsin.
    apply DictFacts.In_values in Hsin. destruct Hsin as [k1 Hk1].
    pose proof (DictFacts.In_remove _ _ _ _ Hk1) as Hk1'.
    destruct (Hsts k1 n Hk1') as [(-> & _ & Hno)|Hbad];
      [|destruct (Htr k1 n Hbad) as (? & _); lia].
    assert (Hknot : ~ In k (Dict.keys (Dict.remove string_dec k (states v'))))
      by (apply DictFacts.keys_remove_notin; exact Hnds).
    assert (Hk : In k (map type toks)).
    { destruct Hin as [E|?]; [|assumption]. exfalso. apply Hknot.
      assert (H : In (fst ("START", n))
                    (Dict.keys (Dict.remove string_dec k (states v'))))
        by (unfold Dict.keys; now apply in_map).
      simpl in H. now rewrite E in H. }
    apply Hkeys in Hk. unfold Dict.keys in Hk. apply in_map_iff in Hk.
    destruct Hk as ([k0 r] & E & Hk). simpl in E. subst k0.
    destruct (Htr k r Hk) as (Hnr & _ & Hr & _).
    assert (Hin'' : In (k, r) (transitions (deref (objs v'') n))).
    { rewrite Hobjs, drop_loop_transitions.
      assert (Hf : In (k, r) (filter (fun kv => negb (Nat.eqb (snd kv) sel))
                                (transitions (deref (objs v') n)))).
      { apply filter_In. split; [exact Hk|]. simpl.
        apply negb_true_iff, Nat.eqb_neq. lia. }
      destruct (memb n (Dict.values (states v'))); [exact Hf|exact Hk]. }
    assert (Hn'' : In n (state_refs v'')).
    { unfold state_refs. rewrite Hsts''. apply DictFacts.In_values. eauto. }
    pose proof (Hdang n k r Hn'' Hin'') as Hr''.
    unfold state_refs in Hr''. rewrite Hsts'' in Hr''.
    apply DictFacts.In_values in Hr''. destruct Hr'' as [k2 Hk2].
    pose proof (DictFacts.In_remove _ _ _ _ Hk2) as Hk2'.
    destruct (Hsts k2 r Hk2') as [(_ & E & _)|Hk2t]; [lia|].
    destruct (Htr k2 r Hk2t) as (_ & _ & Hr2 & _).
    assert (k2 = k) by congruence. subst k2.
    apply Hknot. unfold Dict.keys. apply in_map_iff. exists (k, r). auto.
Qed.
End StaleSelection.

(* ------------------------------------------------------------------ *)
(** ** The further properties on concrete inputs *)

Lemma scenario_A_keyed : keyed_by_name scenario_A.
Proof.
  intros k r [E|[E|[E|[]]]]; injection E as <- <-; reflexivity.
Qed.

Lemma editing_A_editable : editable (canvas editing_A).
Proof.
  split; [exact scenario_A_well_formed|]. split; [simpl; distinct_keys|].
  split; [exact scenario_A_keyed|].
  intros s E. injection E as <-. simpl. auto.
Qed.

Lemma string_set_order_In l x : In x (string_set_order l) <-> In x l.
Proof. apply nodup_In. Qed.

Lemma take_while_prefix p s : prefix (take_while p s) s = true.
Proof.
  induction s as [|a s IH]; simpl; [reflexivity|].
  destruct (p a); simpl; [|reflexivity].
  destruct (ascii_dec a a); [exact IH|congruence].
Qed.

Lemma run_match_prefix allow_empty pattern rest value0 :
  run_match allow_empty pattern rest = Some value0 -> prefix value0 rest = true.
Proof.
  unfold run_match. intros H.
  pose proof (take_while_prefix (fun c => contains c pattern) rest) as Hp.
  destruct (take_while _ rest) as [|a s].
  - destruct allow_empty; [|discriminate]. injection H as <-.
    destruct rest; reflexivity.
  - injection H as <-. exact Hp.
Qed.

Lemma run_match_nonempty pattern rest :
  run_match false pattern rest <> Some EmptyString.
Proof.
  unfold run_match. destruct (take_while _ rest); discriminate.
Qed.

Lemma add_state_spec_witness :
  _add_state editing_A (Some "A") = editing_A /\
  _add_state editing_A (Some "C")
  = with_canvas
      (with_states (objs (canvas editing_A) ++ [mkDFAState "C" false []])
         (states (canvas editing_A) ++ [("C", length (objs (canvas editing_A)))])
         (canvas editing_A)) editing_A.
Proof.
  split.
  - apply (proj1 (add_state_spec editing_A (Some "A"))).
    right. right. exists "A". split; [reflexivity|]. simpl. auto.
  - apply (proj2 (add_state_spec editing_A (Some "C")) "C");
      [reflexivity|discriminate|]. simpl. intuition discriminate.
Defined.

Lemma add_state_keeps_verdicts_witness :
  editable (canvas (_add_state editing_A (Some "C"))) /\
  forall w, simulate (canvas (_add_state editing_A (Some "C"))) w
            = simulate (canvas editing_A) w.
Proof.
  apply (add_state_keeps_verdicts editing_A (Some "C")).
  exact editing_A_editable.
Defined.

Lemma toggle_accepting_involution_witness :
  _toggle_accepting (_toggle_accepting editing_A) = editing_A /\
  is_accepting (deref (objs (canvas (_toggle_accepting editing_A))) 1)
  = negb (is_accepting (deref (objs (canvas editing_A)) 1)).
Proof.
  split; [exact (proj1 (toggle_accepting_involution editing_A))|].
  destruct (proj2 (toggle_accepting_involution editing_A) 1) as [H _];
    [reflexivity|simpl; lia|exact H].
Defined.

Lemma complete_transition_spec_witness :
  delta (objs (canvas (_complete_transition (_start_transition editing_A) 2
                         (Some "x")))) 1 "x" = Some 2.
Proof.
  destruct (proj1 (proj2 (proj2 (complete_transition_spec
                                   (_start_transition editing_A) 2 (Some "x"))))
              1 "x") as [H _];
    [reflexivity|reflexivity|reflexivity|discriminate|simpl; lia|exact H].
Defined.

Lemma delete_transition_spec_witness :
  delta (objs (canvas (_delete_transition editing_S (Some "a")))) 0 "a" = None.
Proof.
  destruct (proj1 (delete_transition_spec editing_S (Some "a")) 0 "a") as [H _];
    [reflexivity|reflexivity|discriminate|simpl; lia|simpl; distinct_keys
    |simpl; discriminate|exact H].
Defined.

Lemma add_then_delete_transition_witness :
  canvas (_delete_transition
            (_complete_transition (_start_transition editing_A) 2 (Some "x"))
            (Some "x"))
  = canvas editing_A.
Proof.
  apply (add_then_delete_transition editing_A 2 "x"); [discriminate|].
  exists 1. split; reflexivity.
Defined.

Lemma on_click_spec_witness :
  selected_state (canvas (_on_click editing_S (Some ["state"; "B"]) None))
  = Some 2.
Proof.
  exact (proj1 (proj2 (on_click_spec editing_S (Some ["state"; "B"]) None)
                  eq_refl eq_refl ["state"; "B"] eq_refl)).
Defined.

Lemma edits_keep_editable_witness :
  exists c',
    apply_edits
      [ AddState (Some "C"); Click (Some ["C"]) None; ToggleAccepting;
        StartTransition; Click (Some ["A"]) (Some "x");
        DeleteTransition (Some "x"); Click (Some ["B"]) None; DeleteState;
        ToggleCustomizationMode false ]
      editing_A = Some c' /\
    editable (canvas c') /\ no_dangling (canvas c') /\
    start_state (canvas c') = start_state (canvas editing_A).
Proof.
  apply (edits_keep_editable _ editing_A). exact editing_A_editable.
Defined.

Lemma update_dfa_language_witness :
  let toks := [mkToken "kw" "if" 1 1; mkToken "id" "x" 1 4] in
  start_state (update_dfa string_set_order initial_visualizer toks)
  = Some (length (objs initial_visualizer)) /\
  (accepts (objs (update_dfa string_set_order initial_visualizer toks))
     (length (objs initial_visualizer)) ["kw"] = true <->
   exists tok, In tok toks /\ ["kw"] = [type tok]).
Proof.
  exact (update_dfa_language string_set_order string_set_order_In
           initial_visualizer
           [mkToken "kw" "if" 1 1; mkToken "id" "x" 1 4] ["kw"]).
Defined.

Lemma update_dfa_well_formed_witness :
  let toks := [mkToken "kw" "if" 1 1; mkToken "id" "x" 1 4] in
  NoDup (Dict.keys (states (update_dfa string_set_order initial_visualizer toks))) /\
  keyed_by_name (update_dfa string_set_order initial_visualizer toks) /\
  (selected_state initial_visualizer = None ->
   editable (update_dfa string_set_order initial_visualizer toks)).
Proof.
  apply (proj2 (update_dfa_well_formed string_set_order string_set_order_In
                  initial_visualizer
                  [mkToken "kw" "if" 1 1; mkToken "id" "x" 1 4])).
  simpl. intuition discriminate.
Defined.

Lemma editor_cleared_disarms_step_witness :
  let app' := on_editor_change sample_tokenize string_set_order ""
                (mkApp (tokens scenario_A_after_a) scenario_A_after_a) in
  app_tokens app' = [] /\
  tokens (dfa_visualizer app') = [] /\
  states (dfa_visualizer app') = [("START", length (objs scenario_A_after_a))] /\
  animation_sequence (dfa_visualizer app') = animation_sequence scenario_A_after_a /\
  step_animation (dfa_visualizer app') = (dfa_visualizer app', None) /\
  forall k, run k (dfa_visualizer app') = None.
Proof.
  exact (editor_cleared_disarms_step sample_tokenize string_set_order
           string_set_order_In
           (mkApp (tokens scenario_A_after_a) scenario_A_after_a)).
Defined.


Lemma steps_keep_cursor_in_range_witness :
  animation_step (steps 3 scenario_A_after_a)
  <= length (animation_sequence (steps 3 scenario_A_after_a)) /\
  objs (steps 3 scenario_A_after_a) = objs scenario_A_after_a /\
  states (steps 3 scenario_A_after_a) = states scenario_A_after_a /\
  start_state (steps 3 scenario_A_after_a) = start_state scenario_A_after_a /\
  animation_sequence (steps 3 scenario_A_after_a)
  = animation_sequence scenario_A_after_a /\
  tokens (steps 3 scenario_A_after_a) = tokens scenario_A_after_a /\
  selected_state (steps 3 scenario_A_after_a) = selected_state scenario_A_after_a.
Proof.
  apply (steps_keep_cursor_in_range 3 scenario_A_after_a).
  vm_compute. apply le_n.
Defined.

Lemma animation_is_periodic_witness :
  let v0 := reset_animation (with_sequence ["a"] scenario_A) in
  animation_step (steps 1 v0) = 1 /\
  current_state (steps 1 v0) = Some 1 /\
  steps 2 v0 = v0.
Proof.
  apply (animation_is_periodic scenario_A ["a"] 0 1);
    [simpl; discriminate|discriminate|reflexivity|reflexivity].
Defined.

Lemma simulator_decides_acceptance_witness :
  simulate scenario_A ["a"; "a"] = Some (accepts (objs scenario_A) 0 ["a"; "a"]).
Proof.
  apply (proj1 (simulator_decides_acceptance scenario_A ["a"; "a"]
                  ltac:(simpl; discriminate) ltac:(discriminate)) 0).
  reflexivity.
Defined.

Lemma minimize_dfa_leaves_input_witness :
  length (objs start_and_X) <= length (objs start_and_X_minimized) /\
  (forall r, r < length (objs start_and_X) ->
             deref (objs start_and_X_minimized) r = deref (objs start_and_X) r) /\
  (forall m, In m (Dict.values (states start_and_X_minimized)) ->
             length (objs start_and_X) <= m < length (objs start_and_X_minimized)) /\
  (forall r, In r (state_refs start_and_X) ->
             ~ In r (Dict.values (states start_and_X_minimized))) /\
  (forall v', _on_minimize_button_click insertion_order 5 start_and_X = Returns v' ->
              current_state v' = current_state start_and_X /\
              selected_state v' = selected_state start_and_X /\
              animation_step v' = animation_step start_and_X /\
              forall r, In r (state_refs start_and_X) -> ~ In r (state_refs v')).
Proof.
  apply (minimize_dfa_leaves_input insertion_order insertion_order_In
           insertion_order_NoDup start_and_X start_and_X_well_formed 5).
  vm_compute. reflexivity.
Defined.

Lemma stale_selection_after_update_witness :
  exists v'',
    _delete_state
      (update_dfa string_set_order scenario_A_selecting_A [mkToken "A" "x" 1 1])
    = Some v'' /\
    states v''
    = Dict.remove string_dec (name (deref (objs scenario_A_selecting_A) 1))
        (states (update_dfa string_set_order scenario_A_selecting_A
                   [mkToken "A" "x" 1 1])) /\
    ~ well_formed v''.
Proof.
  apply (proj2 (proj2 (proj2 (stale_selection_after_update
                                string_set_order string_set_order_In
                                scenario_A_selecting_A [mkToken "A" "x" 1 1] 1
                                eq_refl ltac:(simpl; lia))))).
  simpl. auto.
Defined.

Lemma tokenize_token_types_witness :
  (forall e, tokenize (run_match false) 20 sample_lexer "if x1 + 2" <> Raised e) /\
  (forall toks,
      tokenize (run_match false) 20 sample_lexer "if x1 + 2" = Finished toks ->
      forall tok, In tok toks ->
        type tok <> "whitespace" /\ type tok <> "comment" /\
        (In (type tok) (Dict.keys (patterns sample_lexer)) \/
         In (type tok) ["keyword"; "operator"; "unknown"]) /\
        (type tok = "identifier" ->
         str_memb (value tok) (keywords sample_lexer) = false /\
         str_memb (value tok) (operators sample_lexer) = false)).
Proof.
  exact (tokenize_token_types (run_match false) sample_lexer "if x1 + 2" 20).
Defined.

Lemma tokenize_terminates_witness :
  exists toks,
    (forall fuel, String.length "if x1 + 2" < fuel ->
                  tokenize (run_match false) fuel sample_lexer "if x1 + 2"
                  = Finished toks) /\
    length toks <= String.length "if x1 + 2" /\
    (forall tok, In tok toks -> value tok <> EmptyString).
Proof.
  apply (tokenize_terminates (run_match false) sample_lexer "if x1 + 2").
  intros token_type pattern rest _. apply run_match_nonempty.
Defined.

Lemma tokenize_hangs_on_empty_match_witness :
  tokenize (run_match true) 1000 sample_lexer "+1" = Unfinished.
Proof.
  apply (tokenize_hangs_on_empty_match (run_match true) sample_lexer "+1"
           (mkLocals [] 1 1 0) "identifier").
  - simpl. lia.
  - reflexivity.
Defined.

Lemma tokenize_positions_witness :
  line (mkToken "identifier" "x" 1 4) = 1 /\
  1 <= column (mkToken "identifier" "x" 1 4) /\
  substring (column (mkToken "identifier" "x" 1 4) - 1)
    (String.length (value (mkToken "identifier" "x" 1 4))) "if x1 + 2"
  = value (mkToken "identifier" "x" 1 4).
Proof.
  apply (tokenize_positions (run_match false) sample_lexer "if x1 + 2" 10
           (sample_tokenize "if x1 + 2")).
  - intros pattern rest value0. apply run_match_prefix.
  - reflexivity.
  - vm_compute. reflexivity.
  - vm_compute. auto.
Defined.

Lemma get_suggestions_spec_witness :
  exists word_start suggestions,
    get_suggestions is_alnum sample_lexer "x = i" 5 = Some suggestions /\
    word_start <= 5 /\
    (forall i, word_start <= i < 5 ->
               exists c, String.get i "x = i" = Some c /\ is_alnum c = true) /\
    (word_start = 0 \/
     exists c, String.get (word_start - 1) "x = i" = Some c /\ is_alnum c = false) /\
    let current_word := substring word_start (5 - word_start) "x = i" in
    (forall s, In s suggestions <->
               (In s (keywords sample_lexer) \/ In s (operators sample_lexer)) /\
               prefix current_word s = true) /\
    length suggestions
    = length (filter (prefix current_word) (keywords sample_lexer))
      + length (filter (prefix current_word) (operators sample_lexer)).
Proof.
  apply (get_suggestions_spec is_alnum sample_lexer "x = i" 5).
  simpl. lia.
Defined.

(** The sample rules at work: "if" is stored as a keyword, the space is
    dropped, "+" matches no pattern and is an operator; and the word "i"
    before the cursor brings up "if" and "in", the latter as a keyword and
    as an operator. *)
Example sample_lexer_at_work :
  sample_tokenize "if x1 + 2"
  = [ mkToken "keyword" "if" 1 1; mkToken "identifier" "x" 1 4;
      mkToken "number" "1" 1 5; mkToken "operator" "+" 1 7;
      mkToken "number" "2" 1 9 ] /\
  get_suggestions is_alnum sample_lexer "x = i" 5 = Some ["if"; "in"; "in"].
Proof. vm_compute. split; reflexivity. Qed.
